(** * Partner hierarchy of hexya-base: a shallow embedding of [partner.go]

    The partner model keeps a tree of records (companies, persons, contact
    addresses).  This development embeds the methods of [partner.go] that
    maintain the tree: the commercial partner computation, the field
    synchronisation run by [Write] and [Create], the typed address lookup
    [AddressGet] and the address formatter [DisplayAddress].

    Records live in a table (a list of rows, in insertion order); record
    sets are lists of ids, and a getter applied to a record set reads its
    first record, the zero value when the set is empty, as the ORM does.
    Methods that call each other recursively take a fuel argument and
    return [None] when it runs out. *)

From Stdlib Require Import ZArith Bool Lia SpecFloat Ascii String.
From stdpp Require Import gmap strings list.

Local Open Scope string_scope.
Local Open Scope list_scope.
Local Open Scope Z_scope.

(** ** Fields and values *)

(** The columns of the partner table the hierarchy methods read or write. *)
Inductive Field :=
| FName | FParent | FActive | FIsCompany | FType
| FVAT | FCreditLimit
| FStreet | FStreet2 | FZip | FCity | FState | FCountry
| FCompanyName | FCommercialPartner.

Global Instance Field_eq_dec : EqDecision Field.
Proof. solve_decision. Defined.

Definition Field_code (f : Field) : nat :=
  match f with
  | FName => 0 | FParent => 1 | FActive => 2 | FIsCompany => 3 | FType => 4
  | FVAT => 5 | FCreditLimit => 6
  | FStreet => 7 | FStreet2 => 8 | FZip => 9 | FCity => 10 | FState => 11
  | FCountry => 12 | FCompanyName => 13 | FCommercialPartner => 14
  end%nat.

Definition Field_of_code (n : nat) : Field :=
  match n with
  | 0 => FName | 1 => FParent | 2 => FActive | 3 => FIsCompany | 4 => FType
  | 5 => FVAT | 6 => FCreditLimit
  | 7 => FStreet | 8 => FStreet2 | 9 => FZip | 10 => FCity | 11 => FState
  | 12 => FCountry | 13 => FCompanyName | _ => FCommercialPartner
  end%nat.

Global Instance Field_countable : Countable Field.
Proof.
  apply (inj_countable' Field_code Field_of_code).
  intros []; reflexivity.
Defined.

(** A value read from or written to a column ([interface{}] in the source):
    a string, a boolean, a float or a many2one reference. *)
Inductive Value :=
| VChar (s : string)
| VBool (b : bool)
| VFloat (x : spec_float)
| VRef (r : option Z).

(** [typesutils.IsZero]: the zero value of the type; an empty record set
    counts as zero, and so do both float zeros. *)
Definition IsZero (v : Value) : bool :=
  match v with
  | VChar s => bool_decide (s = "")
  | VBool b => negb b
  | VFloat (S754_zero _) => true
  | VFloat _ => false
  | VRef None => true
  | VRef (Some _) => false
  end.

(** A record set: the ids of its records, in order. *)
Abbreviation PartnerSet := (list Z).

Definition IsEmpty (rs : PartnerSet) : bool :=
  match rs with [] => true | _ => false end.

(** [rs.Equals(other)]: same number of records and every id of [other]
    among those of [rs]. *)
Definition Equals (rs other : PartnerSet) : bool :=
  (length rs =? length other)%nat
  && forallb (fun i => bool_decide (i ∈ rs)) other.

Definition as_string (v : Value) : string :=
  match v with VChar s => s | _ => "" end.
Definition as_bool (v : Value) : bool :=
  match v with VBool b => b | _ => false end.
Definition as_float (v : Value) : spec_float :=
  match v with VFloat x => x | _ => S754_zero false end.
Definition as_ref (v : Value) : option Z :=
  match v with VRef r => r | _ => None end.
Definition as_set (v : Value) : PartnerSet :=
  match as_ref v with Some i => [i] | None => [] end.
Definition ref_of (rs : list Z) : option Z := head rs.

(** ** Rows of the partner table *)

Record PartnerRow := mkPartner {
  ID : Z;
  cName : string;
  cParent : option Z;
  cActive : bool;
  cIsCompany : bool;
  cType : string;
  cVAT : string;
  cCreditLimit : spec_float;
  cStreet : string;
  cStreet2 : string;
  cZip : string;
  cCity : string;
  cState : option Z;
  cCountry : option Z;
  cCompanyName : string;
  cCommercialPartner : option Z
}.

Definition get_col (f : Field) (r : PartnerRow) : Value :=
  match f with
  | FName => VChar (cName r)
  | FParent => VRef (cParent r)
  | FActive => VBool (cActive r)
  | FIsCompany => VBool (cIsCompany r)
  | FType => VChar (cType r)
  | FVAT => VChar (cVAT r)
  | FCreditLimit => VFloat (cCreditLimit r)
  | FStreet => VChar (cStreet r)
  | FStreet2 => VChar (cStreet2 r)
  | FZip => VChar (cZip r)
  | FCity => VChar (cCity r)
  | FState => VRef (cState r)
  | FCountry => VRef (cCountry r)
  | FCompanyName => VChar (cCompanyName r)
  | FCommercialPartner => VRef (cCommercialPartner r)
  end.

(** Writing a column; a value of another type than the column's is not
    stored (the typed setters of the source never produce one). *)
Definition set_col (f : Field) (v : Value) (r : PartnerRow) : PartnerRow :=
  let 'mkPartner i nm pa ac co ty va cl s1 s2 zp ci sa cn cy cp := r in
  match f, v with
  | FName, VChar s => mkPartner i s pa ac co ty va cl s1 s2 zp ci sa cn cy cp
  | FParent, VRef x => mkPartner i nm x ac co ty va cl s1 s2 zp ci sa cn cy cp
  | FActive, VBool b => mkPartner i nm pa b co ty va cl s1 s2 zp ci sa cn cy cp
  | FIsCompany, VBool b => mkPartner i nm pa ac b ty va cl s1 s2 zp ci sa cn cy cp
  | FType, VChar s => mkPartner i nm pa ac co s va cl s1 s2 zp ci sa cn cy cp
  | FVAT, VChar s => mkPartner i nm pa ac co ty s cl s1 s2 zp ci sa cn cy cp
  | FCreditLimit, VFloat x => mkPartner i nm pa ac co ty va x s1 s2 zp ci sa cn cy cp
  | FStreet, VChar s => mkPartner i nm pa ac co ty va cl s s2 zp ci sa cn cy cp
  | FStreet2, VChar s => mkPartner i nm pa ac co ty va cl s1 s zp ci sa cn cy cp
  | FZip, VChar s => mkPartner i nm pa ac co ty va cl s1 s2 s ci sa cn cy cp
  | FCity, VChar s => mkPartner i nm pa ac co ty va cl s1 s2 zp s sa cn cy cp
  | FState, VRef x => mkPartner i nm pa ac co ty va cl s1 s2 zp ci x cn cy cp
  | FCountry, VRef x => mkPartner i nm pa ac co ty va cl s1 s2 zp ci sa x cy cp
  | FCompanyName, VChar s => mkPartner i nm pa ac co ty va cl s1 s2 zp ci sa cn s cp
  | FCommercialPartner, VRef x => mkPartner i nm pa ac co ty va cl s1 s2 zp ci sa cn cy x
  | _, _ => r
  end.

(** The zero value of a column's type. *)
Definition zero_value (f : Field) : Value :=
  match f with
  | FName | FType | FVAT | FStreet | FStreet2 | FZip | FCity | FCompanyName =>
      VChar ""
  | FActive | FIsCompany => VBool false
  | FCreditLimit => VFloat (S754_zero false)
  | FParent | FState | FCountry | FCommercialPartner => VRef None
  end.

Definition all_fields : list Field :=
  [FName; FParent; FActive; FIsCompany; FType; FVAT; FCreditLimit;
   FStreet; FStreet2; FZip; FCity; FState; FCountry; FCompanyName;
   FCommercialPartner].

Abbreviation Table := (list PartnerRow).

Definition find_row (t : Table) (i : Z) : option PartnerRow :=
  find (fun r => ID r =? i) t.

(** [rs.Get(field)]: the value on the first record of [rs]. *)
Definition Get (t : Table) (rs : PartnerSet) (f : Field) : Value :=
  match rs with
  | [] => zero_value f
  | i :: _ =>
      match find_row t i with
      | Some r => get_col f r
      | None => zero_value f
      end
  end.

Definition Name (t : Table) (rs : PartnerSet) : string := as_string (Get t rs FName).
Definition Parent (t : Table) (rs : PartnerSet) : PartnerSet := as_set (Get t rs FParent).
Definition IsCompany (t : Table) (rs : PartnerSet) : bool := as_bool (Get t rs FIsCompany).
Definition Type_ (t : Table) (rs : PartnerSet) : string := as_string (Get t rs FType).
Definition CompanyName (t : Table) (rs : PartnerSet) : string := as_string (Get t rs FCompanyName).
Definition CommercialPartner (t : Table) (rs : PartnerSet) : PartnerSet :=
  as_set (Get t rs FCommercialPartner).

(** [rs.Children()]: the one2many reverse of [Parent], filtered on
    [Active = true], in table order. *)
Definition Children (t : Table) (rs : PartnerSet) : PartnerSet :=
  match rs with
  | [] => []
  | i :: _ =>
      map ID (filter (fun r => bool_decide (cParent r = Some i) && cActive r) t)
  end.

(** ** Commercial partner *)

(** [ComputeCommercialPartner]: the record itself when it is a company or
    has no parent, the stored commercial partner of its parent otherwise. *)
Definition ComputeCommercialPartner (t : Table) (rs : PartnerSet) : PartnerSet :=
  if negb (IsCompany t rs) && negb (IsEmpty (Parent t rs))
  then CommercialPartner t (Parent t rs)
  else rs.

(** [ComputeCommercialCompanyName]: the name of the commercial partner
    when that is a company, the free-text company name otherwise. *)
Definition ComputeCommercialCompanyName (t : Table) (rs : PartnerSet) : string :=
  if negb (IsCompany t (CommercialPartner t rs))
  then CompanyName t rs
  else Name t (CommercialPartner t rs).

(** ** Partner data: the values of a write *)

(** [m.PartnerData]: the columns a write sets, with their values. *)
Abbreviation PartnerData := (gmap Field Value).

Definition Has (d : PartnerData) (f : Field) : bool :=
  bool_decide (is_Some (d !! f)).

(** [d.Get(field)]: the zero value when the column is not set. *)
Definition DGet (d : PartnerData) (f : Field) : Value :=
  default (zero_value f) (d !! f).

Definition dParent (d : PartnerData) : PartnerSet := as_set (DGet d FParent).

Definition apply_data (d : PartnerData) (r : PartnerRow) : PartnerRow :=
  foldr (fun f acc => match d !! f with Some v => set_col f v acc | None => acc end)
        r all_fields.

(** [AddressFields] and [CommercialFields], as the source lists them. *)
Definition AddressFields : list Field :=
  [FStreet; FStreet2; FZip; FCity; FState; FCountry].

Definition CommercialFields : list Field := [FVAT; FCreditLimit].

(** [UpdateFieldValues]: this partner's values on the given fields.  (The
    one2many check of the source cannot fire: no listed field is one.) *)
Definition UpdateFieldValues (t : Table) (rs : PartnerSet) (fields : list Field)
  : PartnerData :=
  foldl (fun res f => <[f := Get t rs f]> res) ∅ fields.

(** [OnchangeParent]: the parent's address, when this is a contact whose
    parent has some address column set; no value otherwise. *)
Definition OnchangeParent (t : Table) (rs : PartnerSet) : PartnerData :=
  if IsEmpty (Parent t rs) || negb (String.eqb (Type_ t rs) "contact") then ∅
  else if negb (existsb (fun f => negb (IsZero (Get t (Parent t rs) f))) AddressFields)
  then ∅
  else foldl (fun res f => <[f := Get t (Parent t rs) f]> res) ∅ AddressFields.

(** ** The store behind the model: [Super().Write] and [Super().Create] *)

(** The request context: the keys set on the environment. *)
Abbreviation Context := (list string).

Definition HasKey (ctx : Context) (k : string) : bool := bool_decide (k ∈ ctx).
Definition WithContext (k : string) (ctx : Context) : Context := k :: ctx.

(** [CommercialPartner] is a stored computed column depending on
    [IsCompany], [Parent] and [Parent.CommercialPartner]: when a write
    touches [IsCompany] or [Parent] the column is recomputed with
    [ComputeCommercialPartner], row by row, as often as there are rows, so
    that a change reaches every descendant. *)
Definition recompute_pass (t : Table) : Table :=
  map (fun r =>
         set_col FCommercialPartner
                 (VRef (ref_of (ComputeCommercialPartner t [ID r]))) r) t.

Definition recompute (t : Table) : Table :=
  Nat.iter (length t) recompute_pass t.

(** A computed column is written only under [hexya_force_compute_write]. *)
Definition writable (ctx : Context) (d : PartnerData) : PartnerData :=
  if HasKey ctx "hexya_force_compute_write" then d
  else delete FCommercialPartner d.

Definition update_rows (rs : PartnerSet) (d : PartnerData) (t : Table) : Table :=
  map (fun r => if bool_decide (ID r ∈ rs) then apply_data d r else r) t.

(** [rs.Super().Write(vals)]: every record of [rs] takes the values. *)
Definition SuperWrite (ctx : Context) (rs : PartnerSet) (d : PartnerData)
           (t : Table) : Table :=
  let t1 := update_rows rs (writable ctx d) t in
  if Has d FParent || Has d FIsCompany then recompute t1 else t1.

Definition next_id (t : Table) : Z :=
  1 + foldr (fun r m => Z.max (ID r) m) 0 t.

(** The column defaults of a new partner: active, of type contact, not a
    company. *)
Definition default_row (i : Z) : PartnerRow :=
  mkPartner i "" None true false "contact" "" (S754_zero false)
            "" "" "" "" None None "" None.

(** [rs.Super().Create(vals)]: a new row with a fresh id; its computed
    column is then computed. *)
Definition SuperCreate (ctx : Context) (d : PartnerData) (t : Table)
  : PartnerSet * Table :=
  let i := next_id t in
  ([i], recompute (t ++ [apply_data (writable ctx d) (default_row i)])).

(** ** The synchronisation engine *)

(** The state the methods run on: the partner table and the history of
    [FieldsSync] activations, oldest first.  The history is ghost state: no
    method reads it. *)
Record World := mkWorld {
  rows : Table;
  sync_log : list PartnerSet
}.

Definition on_rows (f : Table → Table) (w : World) : World :=
  mkWorld (f (rows w)) (sync_log w).

Definition log_sync (rs : PartnerSet) (w : World) : World :=
  mkWorld (rows w) (sync_log w ++ [rs]).

(** [for _, x := range l { f(x) }] over a state that may fail. *)
Fixpoint for_each {A} (f : A → World → option World) (l : list A) (w : World)
  : option World :=
  match l with
  | [] => Some w
  | x :: l' => w' ← f x w; for_each f l' w'
  end.

(** [if !vals.Parent().IsEmpty() { vals.SetCompanyName("") }], the first
    step of [Write] and of [Create] on their values. *)
Definition clear_company_name (vals : PartnerData) : PartnerData :=
  if negb (IsEmpty (dParent vals)) then <[FCompanyName := VChar ""]> vals
  else vals.

(** The type of [Write] as its callers see it. *)
Definition Writer := Context → PartnerSet → PartnerData → World → option World.

(** [UpdateAddress]: writes the address columns of [vals], and only those,
    through [Write] under [goto_super].  (The boolean results of the
    synchronisation methods are never inspected by their callers and are
    not modelled.) *)
Definition UpdateAddress_with (write : Writer) (ctx : Context) (rs : PartnerSet)
           (vals : PartnerData) (w : World) : option World :=
  let res := foldl (fun res f => if Has vals f then <[f := DGet vals f]> res else res)
                   (∅ : PartnerData) AddressFields in
  if (size res =? 0)%nat then Some w
  else write (WithContext "goto_super" ctx) rs res w.

(** [CommercialSyncFromCompany]: takes the commercial fields of the
    commercial partner, unless the partner is its own commercial partner. *)
Definition CommercialSyncFromCompany_with (write : Writer) (ctx : Context)
           (rs : PartnerSet) (w : World) : option World :=
  if Equals rs (CommercialPartner (rows w) rs) then Some w
  else write ctx rs
             (UpdateFieldValues (rows w) (CommercialPartner (rows w) rs) CommercialFields)
             w.

Definition person_children (t : Table) (rs : PartnerSet) : PartnerSet :=
  filter (fun c => negb (IsCompany t [c])) (Children t rs).

Definition contact_children (t : Table) (rs : PartnerSet) : PartnerSet :=
  filter (fun c => String.eqb (Type_ t [c]) "contact") (Children t rs).

Definition any_nonzero (t : Table) (rs : PartnerSet) (fields : list Field) : bool :=
  existsb (fun f => negb (IsZero (Get t rs f))) fields.

(** The type of [CommercialSyncToChildren] as [FieldsSync] sees it. *)
Definition Pusher := Context → PartnerSet → World → option World.

(** The steps of [FieldsSync], named as its comments number them. *)

(** 1a. Commercial fields: sync if the parent changed. *)
Definition sync_from_company (write : Writer) (ctx : Context) (rs : PartnerSet)
           (vals : PartnerData) (w : World) : option World :=
  if negb (IsEmpty (dParent vals))
  then CommercialSyncFromCompany_with write ctx rs w
  else Some w.

(** 1b. Address fields: sync from the parent of a contact. *)
Definition sync_address_from_parent (write : Writer) (ctx : Context)
           (rs : PartnerSet) (w : World) : option World :=
  if negb (IsEmpty (Parent (rows w) rs)) && String.eqb (Type_ (rows w) rs) "contact"
  then UpdateAddress_with write ctx rs (OnchangeParent (rows w) rs) w
  else Some w.

(** 2a. Commercial fields: sync to the children if this is a commercial
    entity with some commercial field set ... *)
Definition sync_to_children (push : Pusher) (ctx : Context) (rs : PartnerSet)
           (w : World) : option World :=
  if Equals rs (CommercialPartner (rows w) rs)
     && any_nonzero (rows w) rs CommercialFields
  then push ctx rs w
  else Some w.

(** ... and again if a child that is not a company has another commercial
    partner than this one. *)
Definition sync_to_new_children (push : Pusher) (ctx : Context) (rs : PartnerSet)
           (w : World) : option World :=
  if existsb (fun child =>
                negb (Equals (CommercialPartner (rows w) [child])
                             (CommercialPartner (rows w) rs)))
             (person_children (rows w) rs)
  then push ctx rs w
  else Some w.

(** 2b. Address fields: sync to the contacts below if the address changed. *)
Definition sync_address_to_children (write : Writer) (ctx : Context)
           (rs : PartnerSet) (vals : PartnerData) (w : World) : option World :=
  if existsb (Has vals) AddressFields
  then UpdateAddress_with write ctx (contact_children (rows w) rs) vals w
  else Some w.

(** [Write], [FieldsSync] and [CommercialSyncToChildren] call each other.
    In [Write] the image resizing, the website cleaning and the check of the
    users' company are left out: they read and write columns outside this
    model, or abort the call. *)
Fixpoint Write (fuel : nat) (ctx : Context) (rs : PartnerSet) (vals : PartnerData)
         (w : World) {struct fuel} : option World :=
  match fuel with
  | O => None
  | S n =>
      if HasKey ctx "goto_super" then Some (on_rows (SuperWrite ctx rs vals) w)
      else
        let vals := clear_company_name vals in
        let w := on_rows (SuperWrite ctx rs vals) w in
        for_each (fun partner => FieldsSync n ctx [partner] vals) rs w
  end
with FieldsSync (fuel : nat) (ctx : Context) (rs : PartnerSet) (vals : PartnerData)
         (w : World) {struct fuel} : option World :=
  match fuel with
  | O => None
  | S n =>
      let w := log_sync rs w in
      w ← sync_from_company (Write n) ctx rs vals w;
      w ← sync_address_from_parent (Write n) ctx rs w;
      if IsEmpty (Children (rows w) rs) then Some w
      else
        w ← sync_to_children (CommercialSyncToChildren n) ctx rs w;
        w ← sync_to_new_children (CommercialSyncToChildren n) ctx rs w;
        sync_address_to_children (Write n) ctx rs vals w
  end
with CommercialSyncToChildren (fuel : nat) (ctx : Context) (rs : PartnerSet)
         (w : World) {struct fuel} : option World :=
  match fuel with
  | O => None
  | S n =>
      let partnerData :=
        UpdateFieldValues (rows w) (CommercialPartner (rows w) rs) CommercialFields in
      let syncChildren := person_children (rows w) rs in
      if IsEmpty syncChildren then Some w
      else
        w ← for_each (fun child => CommercialSyncToChildren n ctx [child])
                     syncChildren w;
        let partnerData :=
          <[FCommercialPartner := VRef (ref_of (CommercialPartner (rows w) rs))]>
            partnerData in
        Write n (WithContext "hexya_force_compute_write" ctx) syncChildren partnerData w
  end.

Definition UpdateAddress (fuel : nat) := UpdateAddress_with (Write fuel).
Definition CommercialSyncFromCompany (fuel : nat) :=
  CommercialSyncFromCompany_with (Write fuel).

(** [HandleFirsrtContactCreation]: the first contact created under a
    company, or under a root, that has no address gives it its own. *)
Definition HandleFirsrtContactCreation (fuel : nat) (ctx : Context)
           (rs : PartnerSet) (w : World) : option World :=
  let t := rows w in
  if negb (IsCompany t (Parent t rs)) && negb (IsEmpty (Parent t (Parent t rs)))
  then Some w
  else if negb (length (Children t (Parent t rs)) =? 1)%nat then Some w
  else
    let parentAddressDefined := any_nonzero t (Parent t rs) AddressFields in
    let addressDefined := any_nonzero t rs AddressFields in
    if addressDefined && negb parentAddressDefined
    then UpdateAddress fuel ctx (Parent t rs) (UpdateFieldValues t rs AddressFields) w
    else Some w.

(** [Create].  The default image and the website cleaning are left out, as
    in [Write]. *)
Definition Create (fuel : nat) (ctx : Context) (vals : PartnerData) (w : World)
  : option (PartnerSet * World) :=
  let vals := clear_company_name vals in
  let '(partner, t) := SuperCreate ctx vals (rows w) in
  w ← FieldsSync fuel ctx partner vals (mkWorld t (sync_log w));
  w ← HandleFirsrtContactCreation fuel ctx partner w;
  Some (partner, w).

(** ** Address lookup by type *)

(** How a scan ends: with the [return result] inside the loops, or by
    falling out of them with the result and the visited ids so far. *)
Inductive Flow :=
| Return (result : gmap string PartnerSet)
| Continue (result : gmap string PartnerSet) (visited : gset Z).

(** [record.ID()]: the id of the first record, 0 for the empty set. *)
Definition ID_of (rs : PartnerSet) : Z := default 0 (head rs).

(** The inner loop of [AddressGet]: a breadth-first scan of [toScan]. *)
Fixpoint scan (fuel : nat) (t : Table) (atMap : gset string)
         (toScan : list PartnerSet) (result : gmap string PartnerSet)
         (visited : gset Z) : option Flow :=
  match fuel with
  | O => None
  | S n =>
      match toScan with
      | [] => Some (Continue result visited)
      | record :: toScan =>
          let visited := {[ID_of record]} ∪ visited in
          let result :=
            if bool_decide (Type_ t record ∈ atMap)
               && negb (bool_decide (is_Some (result !! Type_ t record)))
            then <[Type_ t record := record]> result
            else result in
          if (size result =? size atMap)%nat then Some (Return result)
          else
            let children :=
              filter (fun child => negb (bool_decide (child ∈ visited))
                                   && negb (IsCompany t [child]))
                     (Children t record) in
            scan n t atMap (toScan ++ map (fun child => [child]) children)
                 result visited
      end
  end.

(** The loop over the ancestors: scan below [currentPartner], then go on
    at its parent unless it is a company or has none. *)
Fixpoint climb (fuel : nat) (t : Table) (atMap : gset string)
         (currentPartner : PartnerSet) (result : gmap string PartnerSet)
         (visited : gset Z) : option Flow :=
  match fuel with
  | O => None
  | S n =>
      if IsEmpty currentPartner then Some (Continue result visited)
      else
        match scan n t atMap [currentPartner] result visited with
        | None => None
        | Some (Return result) => Some (Return result)
        | Some (Continue result visited) =>
            if IsCompany t currentPartner || IsEmpty (Parent t currentPartner)
            then Some (Continue result visited)
            else climb n t atMap (Parent t currentPartner) result visited
        end
  end.

(** The loop over the records of [rs]. *)
Fixpoint seeds (fuel : nat) (t : Table) (atMap : gset string)
         (partners : list Z) (result : gmap string PartnerSet)
         (visited : gset Z) : option Flow :=
  match partners with
  | [] => Some (Continue result visited)
  | partner :: partners =>
      match climb fuel t atMap [partner] result visited with
      | None => None
      | Some (Return result) => Some (Return result)
      | Some (Continue result visited) =>
          seeds fuel t atMap partners result visited
      end
  end.

Definition AddressGet (fuel : nat) (t : Table) (rs : PartnerSet)
           (addrTypes : list string) : option (gmap string PartnerSet) :=
  let atMap : gset string := {["contact"]} ∪ list_to_set addrTypes in
  match seeds fuel t atMap rs ∅ ∅ with
  | None => None
  | Some (Return result) => Some result
  | Some (Continue result _) =>
      (* default to type 'contact' or the partner itself *)
      let def := default rs (result !! "contact") in
      Some (foldl (fun result addrType =>
                     match result !! addrType with
                     | Some _ => result
                     | None => <[addrType := def]> result
                     end) result addrTypes)
  end.

(** ** Address formatting *)

Record CountryRow := mkCountry {
  country_ID : Z;
  country_AddressFormat : string;
  country_Code : string;
  country_Name : string
}.

Record StateRow := mkState {
  state_ID : Z;
  state_Code : string;
  state_Name : string
}.

Record Catalog := mkCatalog {
  countries : list CountryRow;
  states : list StateRow
}.

Definition find_country (cat : Catalog) (r : option Z) : option CountryRow :=
  match r with
  | Some i => find (fun c => country_ID c =? i) (countries cat)
  | None => None
  end.

Definition find_state (cat : Catalog) (r : option Z) : option StateRow :=
  match r with
  | Some i => find (fun s => state_ID s =? i) (states cat)
  | None => None
  end.

(** [basetypes.AddressData], the data handed to the template. *)
Record AddressData := mkAddressData {
  adStreet : string;
  adStreet2 : string;
  adCity : string;
  adZip : string;
  adStateCode : string;
  adStateName : string;
  adCountryCode : string;
  adCountryName : string;
  adCompanyName : string
}.

Definition address_field (name : string) (data : AddressData) : option string :=
  if String.eqb name "Street" then Some (adStreet data)
  else if String.eqb name "Street2" then Some (adStreet2 data)
  else if String.eqb name "City" then Some (adCity data)
  else if String.eqb name "Zip" then Some (adZip data)
  else if String.eqb name "StateCode" then Some (adStateCode data)
  else if String.eqb name "StateName" then Some (adStateName data)
  else if String.eqb name "CountryCode" then Some (adCountryCode data)
  else if String.eqb name "CountryName" then Some (adCountryName data)
  else if String.eqb name "CompanyName" then Some (adCompanyName data)
  else None.

(** The text before the first occurrence of the two characters [a b], and
    the text after it when there is one. *)
Fixpoint cut (a b : ascii) (s : string) : string * option string :=
  match s with
  | EmptyString => (EmptyString, None)
  | String c s' =>
      match s' with
      | String d s'' =>
          if Ascii.eqb c a && Ascii.eqb d b then (EmptyString, Some s'')
          else let '(pre, post) := cut a b s' in (String c pre, post)
      | EmptyString => (s, None)
      end
  end.

Fixpoint drop_spaces (s : string) : string :=
  match s with
  | String c s' => if Ascii.eqb c " "%char then drop_spaces s' else s
  | EmptyString => s
  end.

Definition trim (s : string) : string :=
  String.rev (drop_spaces (String.rev (drop_spaces s))).

(** The part of [text/template] the address formats use: text is copied,
    an action [{{ .Field }}] is replaced by the field of the data; an
    unclosed action or an unknown field is an error. *)
Fixpoint execute_template (fuel : nat) (format : string) (data : AddressData)
  : option string :=
  match fuel with
  | O => None
  | S n =>
      match cut "{"%char "{"%char format with
      | (text, None) => Some text
      | (text, Some rest) =>
          match cut "}"%char "}"%char rest with
          | (_, None) => None
          | (action, Some rest) =>
              match trim action with
              | String "." name =>
                  v ← address_field name data;
                  out ← execute_template n rest data;
                  Some (text +:+ v +:+ out)
              | _ => None
              end
          end
      end
  end.

Definition default_address_format : string :=
  "{{ .Street }}" +:+ String "010" "{{ .Street2 }}" +:+ String "010"
  "{{ .City }} {{ .StateCode }} {{ .Zip }}" +:+ String "010" "{{ .CountryName}}".

(** [DisplayAddress]: [None] stands for the panic on a template error.
    [CommercialCompanyName] is a stored computed column; reading it gives
    what [ComputeCommercialCompanyName] computes. *)
Definition DisplayAddress (cat : Catalog) (t : Table) (rs : PartnerSet)
           (withoutCompany : bool) : option string :=
  let country := find_country cat (as_ref (Get t rs FCountry)) in
  let state := find_state cat (as_ref (Get t rs FState)) in
  let addressFormat := from_option country_AddressFormat "" country in
  let addressFormat :=
    if String.eqb addressFormat "" then default_address_format else addressFormat in
  let data :=
    mkAddressData (as_string (Get t rs FStreet)) (as_string (Get t rs FStreet2))
                  (as_string (Get t rs FCity)) (as_string (Get t rs FZip))
                  (from_option state_Code "" state) (from_option state_Name "" state)
                  (from_option country_Code "" country)
                  (from_option country_Name "" country)
                  (ComputeCommercialCompanyName t rs) in
  let addressFormat :=
    if negb (String.eqb (adCompanyName data) "")
    then "{{ .CompanyName }}" +:+ String "010" addressFormat
    else addressFormat in
  execute_template (S (String.length addressFormat)) addressFormat data.

(** ** Well-formed tables *)

(** The stored commercial partner of every record is what
    [ComputeCommercialPartner] computes for it: the contract of a stored
    computed column. *)
Definition cp_stored_ok (t : Table) : Prop :=
  ∀ i, is_Some (find_row t i) →
       CommercialPartner t [i] = ComputeCommercialPartner t [i].

(** Every parent reference points to a row of the table. *)
Definition parents_exist (t : Table) : Prop :=
  ∀ rs p, Parent t rs = [p] → is_Some (find_row t p).

(** The id is a key of the table. *)
Definition unique_ids (t : Table) : Prop := NoDup (map ID t).

(** The walk along the parent links from [rs] reaches a record without
    parent: [rs] lies in no cycle. *)
Inductive chain_ends (t : Table) : PartnerSet → Prop :=
| chain_root rs : Parent t rs = [] → chain_ends t rs
| chain_step rs : chain_ends t (Parent t rs) → chain_ends t rs.

(** The parent links form a forest: [hgt] ranks every record strictly
    below its parent. *)
Definition ranked (hgt : Z → nat) (t : Table) : Prop :=
  ∀ r p, r ∈ t → cParent r = Some p → (hgt (ID r) < hgt p)%nat.

(** [within_company t b d]: [d] is reached from [b] through children that
    are not companies. *)
Inductive within_company (t : Table) (b : Z) : Z → Prop :=
| within_child d : d ∈ person_children t [b] → within_company t b d
| within_below c d :
    c ∈ person_children t [b] → within_company t c d → within_company t b d.

(** The columns the synchronisation writes. *)
Definition synced_fields : list Field :=
  CommercialFields ++ [FCommercialPartner] ++ AddressFields.

(** [fits f v]: [v] has the type of column [f]. *)
Definition fits (f : Field) (v : Value) : bool :=
  match zero_value f, v with
  | VChar _, VChar _ | VBool _, VBool _ | VFloat _, VFloat _ | VRef _, VRef _ => true
  | _, _ => false
  end.

(** A row after some synchronisation writes: same id, and the same values
    outside the synchronised columns. *)
Definition keeps (r r' : PartnerRow) : Prop :=
  ID r' = ID r ∧ ∀ f, f ∉ synced_fields → get_col f r' = get_col f r.

(** ... where moreover the rows ranked [k] or higher are untouched. *)
Definition keeps_above (hgt : Z → nat) (k : nat) (r r' : PartnerRow) : Prop :=
  keeps r r' ∧ ((k ≤ hgt (ID r))%nat → r' = r).

(** A row after some pushes of the commercial fields of [b] in [t0]: a
    commercial field keeps its value or takes the one of [b]; the
    commercial partner stays or becomes [b]. *)
Definition pushed_from (t0 : Table) (b : Z) (r r' : PartnerRow) : Prop :=
  keeps r r'
  ∧ (∀ f, f ∈ CommercialFields →
          get_col f r' = get_col f r ∨ get_col f r' = Get t0 [b] f)
  ∧ (cCommercialPartner r' = cCommercialPartner r ∨ cCommercialPartner r' = Some b).

(** The data of a write made by the synchronisation sets synchronised
    columns only. *)
Definition only_synced (d : PartnerData) : Prop :=
  ∀ f, is_Some (d !! f) → f ∈ synced_fields.

(** The history only grows. *)
Definition log_grows (w w' : World) : Prop :=
  sync_log w `prefix_of` sync_log w'.

(** The keys of a result of [AddressGet] are searched types. *)
Definition within_types (atMap : gset string) (result : gmap string PartnerSet)
  : Prop := dom result ⊆ atMap.

(** ** Checks that compute *)

Definition ranked_b (hgt : Z → nat) (t : Table) : bool :=
  forallb (fun r => match cParent r with
                    | Some p => (hgt (ID r) <? hgt p)%nat
                    | None => true
                    end) t.

Definition cp_stored_ok_b (t : Table) : bool :=
  forallb (fun r => bool_decide (CommercialPartner t [ID r]
                                 = ComputeCommercialPartner t [ID r])) t.

Definition parents_exist_b (t : Table) : bool :=
  forallb (fun r => match cParent r with
                    | Some p => bool_decide (is_Some (find_row t p))
                    | None => true
                    end) t.

Fixpoint chain_ends_b (fuel : nat) (t : Table) (rs : PartnerSet) : bool :=
  match fuel with
  | O => false
  | S n => IsEmpty (Parent t rs) || chain_ends_b n t (Parent t rs)
  end.

(** ** Example data *)

Definition no_credit : spec_float := S754_zero false.

(** A company with an address and a tax id, a contact of it, and a contact
    of that contact. *)
Definition ex_company : PartnerRow :=
  mkPartner 1 "ACME" None true true "contact" "FR1" no_credit
            "1 Main St" "" "75001" "Paris" None (Some 7) "" (Some 1).

Definition ex_contact : PartnerRow :=
  mkPartner 2 "Bob" (Some 1) true false "contact" "" no_credit
            "9 Side St" "" "" "" None None "" (Some 1).

Definition ex_child : PartnerRow :=
  mkPartner 3 "Kid" (Some 2) true false "contact" "" no_credit
            "" "" "" "" None None "" (Some 1).

Definition ex_table : Table := [ex_company; ex_contact; ex_child].

Definition ex_world : World := mkWorld ex_table [].

Definition ex_hgt (i : Z) : nat :=
  if i =? 1 then 2%nat else if i =? 2 then 1%nat else 0%nat.

Definition ex_catalog : Catalog :=
  mkCatalog [mkCountry 7 "" "FR" "France"] [].

(** An invoice address on its own. *)
Definition ex_invoice : PartnerRow :=
  mkPartner 5 "Billing" None true false "invoice" "" no_credit
            "" "" "" "" None None "" (Some 5).

(** A company without address that has one contact, without address. *)
Definition ex_office : Table :=
  [ mkPartner 1 "ACME" None true true "contact" "" no_credit
              "" "" "" "" None None "" (Some 1);
    mkPartner 2 "Bob" (Some 1) true false "contact" "" no_credit
              "" "" "" "" None None "" (Some 1) ].

(** The same company before it has any contact. *)
Definition ex_empty_office : Table :=
  [ mkPartner 1 "ACME" None true true "contact" "" no_credit
              "" "" "" "" None None "" (Some 1) ].

(** Values of the example writes. *)
Definition ex_new_contact : PartnerData :=
  <[FParent := VRef (Some 1)]> (<[FStreet := VChar "new"]> {[FName := VChar "Ann"]}).

Definition ex_reparent : PartnerData :=
  <[FParent := VRef (Some 1)]> {[FCompanyName := VChar "Old Co"]}.

Definition ex_archived_contact : PartnerData :=
  <[FParent := VRef (Some 1)]>
    (<[FActive := VBool false]> {[FStreet := VChar "1 Main St"]}).

Definition ex_first_contact : PartnerData :=
  <[FParent := VRef (Some 1)]> {[FStreet := VChar "1 Main St"]}.

Definition ex_second_contact : PartnerData :=
  <[FParent := VRef (Some 1)]> {[FStreet := VChar "2 Other St"]}.

(** ** Further reading of the methods *)

(** The case in which [HandleFirsrtContactCreation] writes: none of its
    early returns is taken, the record has an address and its parent has
    none. *)
Definition first_contact_applies (t : Table) (rs : PartnerSet) : bool :=
  (IsCompany t (Parent t rs) || IsEmpty (Parent t (Parent t rs)))
  && (length (Children t (Parent t rs)) =? 1)%nat
  && any_nonzero t rs AddressFields
  && negb (any_nonzero t (Parent t rs) AddressFields).

(** [ToggleActive] of the model mixin, on partners.  [rs.Get] reads the
    first record of the set; [rs.Set] writes the column on every record,
    through [Write]. *)
Definition ToggleActive (fuel : nat) (ctx : Context) (rs : PartnerSet) (w : World)
  : option World :=
  if as_bool (Get (rows w) rs FActive)
  then Write fuel ctx rs {[FActive := VBool false]} w
  else Write fuel ctx rs {[FActive := VBool true]} w.

(** [ComputeCompanyType] and [InverseCompanyType]: the selection shown for
    the [IsCompany] flag, and the write behind a change of the selection. *)
Definition ComputeCompanyType (t : Table) (rs : PartnerSet) : string :=
  if IsCompany t rs then "company" else "person".

Definition InverseCompanyType (fuel : nat) (ctx : Context) (rs : PartnerSet)
           (companyType : string) (w : World) : option World :=
  Write fuel ctx rs {[FIsCompany := VBool (String.eqb companyType "company")]} w.

(** [CreateCompany]: the company named by [CompanyName] is created with
    the address of the partner and made the parent of the partner and of
    its children.  [EnsureOne] fails on a set that is not one record;
    [SetParent] is a write of the one column. *)
Definition CreateCompany (fuel : nat) (ctx : Context) (rs : PartnerSet) (w : World)
  : option World :=
  match rs with
  | [_] =>
      if negb (String.eqb (CompanyName (rows w) rs) "") then
        let values := UpdateFieldValues (rows w) rs AddressFields in
        let values := <[FName := VChar (CompanyName (rows w) rs)]> values in
        let values := <[FIsCompany := VBool true]> values in
        '(newCompany, w) ← Create fuel ctx values w;
        w ← Write fuel ctx rs {[FParent := VRef (ref_of newCompany)]} w;
        Write fuel ctx (Children (rows w) rs) {[FParent := VRef (ref_of newCompany)]} w
      else Some w
  | _ => None
  end.

(** ** Further relations between tables *)

(** A row after writes that reach the records of a region only. *)
Definition touches (P : Z → Prop) (r r' : PartnerRow) : Prop :=
  keeps r r' ∧ (¬ P (ID r) → r' = r).

(** The data of a commercial write: commercial fields and the commercial
    partner, nothing else. *)
Definition commercial_only (d : PartnerData) : Prop :=
  ∀ f, is_Some (d !! f) → f ∈ CommercialFields ∨ f = FCommercialPartner.

(** A row after steps that change the record [c] only, and not its
    commercial partner. *)
Definition own_touch (c : Z) (r r' : PartnerRow) : Prop :=
  keeps r r'
  ∧ (ID r ≠ c → r' = r)
  ∧ cCommercialPartner r' = cCommercialPartner r.

(** A row after steps that change address columns of the record [c]
    only. *)
Definition address_touch (c : Z) (r r' : PartnerRow) : Prop :=
  ID r' = ID r
  ∧ (ID r ≠ c → r' = r)
  ∧ ∀ f, f ∉ AddressFields → get_col f r' = get_col f r.

(** ** The search of [AddressGet] *)

(** The result a scan ends with, however it ends. *)
Definition flow_result (f : Flow) : gmap string PartnerSet :=
  match f with Return r => r | Continue r _ => r end.

(** Every entry of a result is a record of the type it is filed under. *)
Definition typed (t : Table) (result : gmap string PartnerSet) : Prop :=
  ∀ k v, result !! k = Some v → Type_ t v = k.

(** The number of rows not visited so far. *)
Definition unvisited (t : Table) (visited : gset Z) : nat :=
  length (filter (λ r, ID r ∉ visited) t).

(** The queue of a scan after its first record: distinct rows, not visited,
    whose parent is. *)
Definition queue_ok (t : Table) (visited : gset Z) (q : list PartnerSet) : Prop :=
  NoDup q
  ∧ ∀ record, record ∈ q →
      ∃ x p, record = [x] ∧ (x ∉ visited) ∧ is_Some (find_row t x)
             ∧ Parent t [x] = [p] ∧ p ∈ visited.

(** [climbs t x y]: the search that starts at [x] comes to scan from [y]:
    [y] is [x], or the parent of a record it came to that is not a
    company. *)
Inductive climbs (t : Table) (x : Z) : Z → Prop :=
| climbs_here : climbs t x x
| climbs_up y p :
    climbs t x y → IsCompany t [y] = false → Parent t [y] = [p] → climbs t x p.

(** The records the search from [rs] can file: those it climbs to, and
    those found from there through children that are not companies. *)
Definition in_reach (t : Table) (rs : PartnerSet) (v : PartnerSet) : Prop :=
  ∃ x y z, x ∈ rs ∧ climbs t x y ∧ v = [z] ∧ (z = y ∨ within_company t y z).

(** ** Further example data *)

(** A person with a company name, a VAT number and one contact. *)
Definition ex_solo : World :=
  mkWorld [ mkPartner 1 "Ann" None true false "contact" "VAT9" no_credit
                      "5 Elm St" "" "" "Metz" None None "Ann Ltd" (Some 1);
            mkPartner 2 "Kid" (Some 1) true false "contact" "VAT9" no_credit
                      "5 Elm St" "" "" "Metz" None None "" (Some 1) ] [].

Definition ex_solo_hgt (i : Z) : nat :=
  if i =? 3 then 2%nat else if i =? 1 then 1%nat else 0%nat.

(** A company, and a person with a contact of its own. *)
Definition ex_join : World :=
  mkWorld [ mkPartner 1 "ACME" None true true "contact" "FR1" no_credit
                      "1 Main St" "" "75001" "Paris" None None "" (Some 1);
            mkPartner 4 "Ann" None true false "contact" "VAT9" no_credit
                      "" "" "" "" None None "" (Some 4);
            mkPartner 5 "Kid" (Some 4) true false "other" "VAT9" no_credit
                      "" "" "" "" None None "" (Some 4) ] [].

Definition ex_join_hgt (i : Z) : nat :=
  if i =? 1 then 2%nat else if i =? 4 then 1%nat else 0%nat.

(** ** Partner categories *)

Module PartnerCategory.

Record CategoryRow := mkCategory {
  tag_ID : Z;
  tag_Name : string;
  tag_Parent : option Z
}.

Abbreviation CategoryTable := (list CategoryRow).
Abbreviation CategorySet := (list Z).

Definition find_tag (t : CategoryTable) (i : Z) : option CategoryRow :=
  find (fun r => tag_ID r =? i) t.

(** [rs.Name()] and [rs.Parent()], on the first record of [rs]. *)
Definition Name (t : CategoryTable) (rs : CategorySet) : string :=
  match rs with
  | [] => ""
  | i :: _ => from_option tag_Name "" (find_tag t i)
  end.

Definition Parent (t : CategoryTable) (rs : CategorySet) : CategorySet :=
  match rs with
  | [] => []
  | i :: _ =>
      match find_tag t i with
      | Some r => match tag_Parent r with Some p => [p] | None => [] end
      | None => []
      end
  end.

(** [strings.HasPrefix], [strings.Join], and [strings.Split] for a
    separator that is not empty: the text is cut at each occurrence of the
    separator, found from left to right. *)
Fixpoint HasPrefix (s prefix : string) {struct prefix} : bool :=
  match prefix with
  | EmptyString => true
  | String a prefix' =>
      match s with
      | EmptyString => false
      | String b s' => Ascii.eqb a b && HasPrefix s' prefix'
      end
  end.

Fixpoint Join (elems : list string) (sep : string) : string :=
  match elems with
  | [] => ""
  | x :: rest =>
      match rest with
      | [] => x
      | _ => x +:+ sep +:+ Join rest sep
      end
  end.

Fixpoint split_from (sep s : string) (skip : nat) (token : string) : list string :=
  match s with
  | EmptyString => [token]
  | String c s' =>
      match skip with
      | S k => split_from sep s' k token
      | O =>
          if HasPrefix s sep
          then token :: split_from sep s' (String.length sep - 1) ""
          else split_from sep s' 0 (token +:+ String c "")
      end
  end.

Definition Split (s sep : string) : list string := split_from sep s 0 "".

(** The loop of [NameGet]: the names from the root down to the record. *)
Fixpoint path_names (fuel : nat) (t : CategoryTable) (current : CategorySet)
         (names : list string) : option (list string) :=
  match fuel with
  | O => None
  | S n =>
      if IsEmpty current then Some names
      else path_names n t (Parent t current) (Name t current :: names)
  end.

(** [NameGet]: [display] is the value of [partner_category_display] in the
    context, [super] the name the model gives without this method. *)
Definition NameGet (fuel : nat) (t : CategoryTable) (display : string)
           (super : CategorySet → string) (rs : CategorySet) : option string :=
  if String.eqb display "short" then Some (super rs)
  else names ← path_names fuel t rs []; Some (Join names " / ").

(** [SearchByName]: the name the search is made with. *)
Definition SearchByName (name : string) : string :=
  if negb (String.eqb name "") then List.last (Split name " / ") ""
  else name.

(** The parent links of a category end: the constraint [CheckParent]
    keeps. *)
Inductive chain_ends (t : CategoryTable) : CategorySet → Prop :=
| chain_root rs : Parent t rs = [] → chain_ends t rs
| chain_step rs : chain_ends t (Parent t rs) → chain_ends t rs.

(** No "/" in the text. *)
Fixpoint no_slash (s : string) : bool :=
  match s with
  | EmptyString => true
  | String c s' => negb (Ascii.eqb c "/"%char) && no_slash s'
  end.

Definition ex_tags : CategoryTable :=
  [ mkCategory 1 "Customers" None;
    mkCategory 2 "Retail" (Some 1);
    mkCategory 3 "Shops" (Some 2) ].

End PartnerCategory.

(** ** The displayed name of a partner *)

(** [strings.Replace(s, old, new, -1)] for [old] not empty: every
    occurrence of [old], found from left to right, gives way to [new]. *)
Definition Replace (s old new : string) : string :=
  PartnerCategory.Join (PartnerCategory.Split s old) new.

(** The labels of the selection of [Type]. *)
Definition type_label (ty : string) : string :=
  if String.eqb ty "contact" then "Contact"
  else if String.eqb ty "invoice" then "Invoice Address"
  else if String.eqb ty "delivery" then "Shipping Address"
  else if String.eqb ty "other" then "Other Address"
  else "".

(** The context keys [NameGet] reads, as [GetBool] gives them. *)
Record NameFlags := mkNameFlags {
  show_address_only : bool;
  show_address : bool;
  show_email : bool;
  html_format : bool
}.

(** [NameGet].  [Email] and [EmailFormatted] are columns outside the
    table of this model: they come as arguments. *)
Definition NameGet (cat : Catalog) (t : Table) (flags : NameFlags)
           (Email EmailFormatted : string) (rs : PartnerSet) : option string :=
  let name := Name t rs in
  let name :=
    if negb (String.eqb (CompanyName t rs) "") || negb (IsEmpty (Parent t rs)) then
      let name :=
        if String.eqb name ""
           && (String.eqb (Type_ t rs) "invoice"
               || String.eqb (Type_ t rs) "delivery"
               || String.eqb (Type_ t rs) "other")
        then type_label (Type_ t rs)
        else name in
      if negb (IsCompany t rs)
      then ComputeCommercialCompanyName t rs +:+ ", " +:+ name
      else name
    else name in
  name ← (if show_address_only flags then DisplayAddress cat t rs true
          else Some name);
  name ← (if show_address flags
          then address ← DisplayAddress cat t rs true;
               Some (name +:+ String "010" address)
          else Some name);
  let name := Replace name (String "010" (String "010" "")) (String "010" "") in
  let name := Replace name (String "010" (String "010" "")) (String "010" "") in
  let name :=
    if show_email flags && negb (String.eqb Email "") then EmailFormatted
    else name in
  let name :=
    if html_format flags then Replace name (String "010" "") "<br/>" else name in
  Some name.

(** The character [c] does not occur in the text. *)
Fixpoint lacks (c : ascii) (s : string) : bool :=
  match s with
  | EmptyString => true
  | String d s' => negb (Ascii.eqb d c) && lacks c s'
  end.

(** * Properties *)

(** ** Commercial partner *)

Lemma Parent_cases t rs : Parent t rs = [] ∨ ∃ p, Parent t rs = [p].
Proof.
  unfold Parent, as_set. destruct (as_ref _); eauto.
Qed.

Lemma Compute_self t rs :
  IsCompany t rs = true ∨ Parent t rs = [] →
  ComputeCommercialPartner t rs = rs.
Proof.
  unfold ComputeCommercialPartner. intros [-> | ->]; simpl; [done|].
  by rewrite andb_false_r.
Qed.

Lemma Compute_parent t rs :
  IsCompany t rs = false → Parent t rs ≠ [] →
  ComputeCommercialPartner t rs = CommercialPartner t (Parent t rs).
Proof.
  unfold ComputeCommercialPartner. intros -> Hp.
  by destruct (Parent t rs).
Qed.

Lemma Compute_step t rs :
  cp_stored_ok t → parents_exist t →
  IsCompany t rs = false → Parent t rs ≠ [] →
  ComputeCommercialPartner t rs = ComputeCommercialPartner t (Parent t rs).
Proof.
  intros Hok Hfk Hc Hp. rewrite Compute_parent by done.
  destruct (Parent_cases t rs) as [?|[p Hpp]]; [done|].
  rewrite Hpp. apply Hok. eauto.
Qed.

(** C1. [ComputeCommercialPartner] returns the record itself when it is a
    company or has no parent; otherwise it returns the commercial partner
    stored on the parent, which on a well-formed table is the commercial
    partner computed for the parent. *)
Theorem ComputeCommercialPartner_rule (t : Table) (rs : PartnerSet) :
  (IsCompany t rs = true ∨ Parent t rs = [] →
   ComputeCommercialPartner t rs = rs) ∧
  (IsCompany t rs = false → Parent t rs ≠ [] →
   ComputeCommercialPartner t rs = CommercialPartner t (Parent t rs)) ∧
  (cp_stored_ok t → parents_exist t →
   IsCompany t rs = false → Parent t rs ≠ [] →
   ComputeCommercialPartner t rs = ComputeCommercialPartner t (Parent t rs)).
Proof.
  split; [apply Compute_self|]. split; [apply Compute_parent|].
  apply Compute_step.
Qed.

Lemma Compute_at_boundary t rs :
  cp_stored_ok t → parents_exist t → chain_ends t rs →
  IsCompany t (ComputeCommercialPartner t rs) = true
  ∨ Parent t (ComputeCommercialPartner t rs) = [].
Proof.
  intros Hok Hfk Hch. induction Hch as [rs Hr | rs Hch IH].
  - right. by rewrite Compute_self; [|right].
  - destruct (IsCompany t rs) eqn:Hc.
    { left. by rewrite Compute_self; [|left]. }
    destruct (Parent_cases t rs) as [Hr|[p Hp]].
    { right. by rewrite Compute_self; [|right]. }
    rewrite Compute_step; [exact IH|done..|by rewrite Hp].
Qed.

(** C7. Commercial resolution is idempotent: on a well-formed table, for a
    record whose parent chain ends, computing the commercial partner of the
    computed commercial partner gives it again. *)
Theorem ComputeCommercialPartner_idempotent (t : Table) (rs : PartnerSet) :
  cp_stored_ok t → parents_exist t → chain_ends t rs →
  ComputeCommercialPartner t (ComputeCommercialPartner t rs)
  = ComputeCommercialPartner t rs.
Proof.
  intros Hok Hfk Hch. apply Compute_self. by apply Compute_at_boundary.
Qed.

(** ** Rows and tables *)

Lemma ID_set_col f v r : ID (set_col f v r) = ID r.
Proof. by destruct r, f, v. Qed.

Lemma get_set_col f g v r :
  get_col g (set_col f v r)
  = if decide (f = g) then (if fits f v then v else get_col g r) else get_col g r.
Proof. destruct r, f, g, v; reflexivity. Qed.

Lemma fits_get_col f r : fits f (get_col f r) = true.
Proof. by destruct f. Qed.

Lemma fits_zero_value f : fits f (zero_value f) = true.
Proof. by destruct f. Qed.

Lemma NoDup_all_fields : NoDup all_fields.
Proof. apply (bool_decide_unpack _). by vm_compute. Qed.

Lemma elem_of_all_fields f : f ∈ all_fields.
Proof. unfold all_fields. destruct f; set_solver. Qed.

Lemma ID_apply_data d r : ID (apply_data d r) = ID r.
Proof.
  unfold apply_data. induction all_fields as [|f l IH]; simpl; [done|].
  destruct (d !! f); [by rewrite ID_set_col|done].
Qed.

Lemma get_apply_data d g r :
  get_col g (apply_data d r)
  = match d !! g with
    | Some v => if fits g v then v else get_col g r
    | None => get_col g r
    end.
Proof.
  unfold apply_data.
  assert (Hin : g ∈ all_fields) by apply elem_of_all_fields.
  assert (Hnd : NoDup all_fields) by apply NoDup_all_fields.
  revert Hin Hnd.
  generalize all_fields as l.
  assert (Hout : ∀ l, g ∉ l →
    get_col g (foldr (λ f acc, match d !! f with
                               | Some v => set_col f v acc | None => acc end) r l)
    = get_col g r).
  { induction l as [|f l IH]; simpl; [done|]. intros Hg.
    apply not_elem_of_cons in Hg as [Hne Hg].
    destruct (d !! f); [|by apply IH].
    rewrite get_set_col. destruct (decide (f = g)); [congruence|by apply IH]. }
  induction l as [|f l IH]; simpl; intros Hin Hnd; [by apply elem_of_nil in Hin|].
  apply NoDup_cons in Hnd as [Hf Hnd].
  destruct (decide (f = g)) as [->|Hne].
  - destruct (d !! g) as [v|]; [|by apply Hout].
    rewrite get_set_col. destruct (decide (g = g)); [|done].
    destruct (fits g v); [done|by apply Hout].
  - apply elem_of_cons in Hin as [?|Hin]; [congruence|].
    destruct (d !! f); [|by apply IH].
    rewrite get_set_col. destruct (decide (f = g)); [done|by apply IH].
Qed.

Lemma find_row_Forall2 (R : PartnerRow → PartnerRow → Prop) t t' i :
  (∀ r r', R r r' → ID r' = ID r) → Forall2 R t t' →
  option_Forall2 R (find_row t i) (find_row t' i).
Proof.
  intros HID. unfold find_row. induction 1 as [|r r' t t' Hr _ IH]; simpl.
  - constructor.
  - rewrite (HID _ _ Hr). destruct (ID r =? i); [by constructor|done].
Qed.

Lemma find_row_Some t i r : find_row t i = Some r → r ∈ t ∧ ID r = i.
Proof.
  unfold find_row. intros H. apply find_some in H as [H1 H2].
  split; [by apply list_elem_of_In|lia].
Qed.

Lemma find_row_unique t r : unique_ids t → r ∈ t → find_row t (ID r) = Some r.
Proof.
  unfold unique_ids, find_row. induction t as [|x t IH]; simpl.
  - by intros _ ?%elem_of_nil.
  - intros [Hx Hnd]%NoDup_cons [->|Hr]%elem_of_cons.
    + by rewrite Z.eqb_refl.
    + destruct (ID x =? ID r) eqn:E; [|by apply IH].
      apply Z.eqb_eq in E. destruct Hx. rewrite E.
      apply list_elem_of_fmap. eauto.
Qed.

Global Instance keeps_refl : Reflexive keeps.
Proof. by intros r. Qed.

Global Instance keeps_trans : Transitive keeps.
Proof.
  intros r1 r2 r3 [H1 H2] [H3 H4]. split; [congruence|].
  intros f Hf. by rewrite H4, H2.
Qed.

Global Instance keeps_above_refl hgt k : Reflexive (keeps_above hgt k).
Proof. by intros r. Qed.

Global Instance keeps_above_trans hgt k : Transitive (keeps_above hgt k).
Proof.
  intros r1 r2 r3 [H1 H2] [H3 H4]. split; [by etrans|].
  intros Hk. rewrite H4, H2; [done..|]. destruct H1 as [-> _]. done.
Qed.

Lemma keeps_above_mono hgt k k' r r' :
  (k ≤ k')%nat → keeps_above hgt k r r' → keeps_above hgt k' r r'.
Proof. intros Hk [H1 H2]. split; [done|]. intros ?. apply H2. lia. Qed.

Lemma keeps_above_keeps hgt k t t' :
  Forall2 (keeps_above hgt k) t t' → Forall2 keeps t t'.
Proof. intros H. eapply Forall2_impl; [done|]. by intros r r' [? _]. Qed.

Lemma Forall2_keeps_above_mono hgt k k' t t' :
  (k ≤ k')%nat → Forall2 (keeps_above hgt k) t t' → Forall2 (keeps_above hgt k') t t'.
Proof.
  intros Hk H. eapply Forall2_impl; [done|]. intros r r'. by apply keeps_above_mono.
Qed.

Lemma Get_keeps t t' rs f :
  Forall2 keeps t t' → f ∉ synced_fields → Get t' rs f = Get t rs f.
Proof.
  intros Ht Hf. unfold Get. destruct rs as [|i rs]; [done|].
  destruct (find_row_Forall2 keeps t t' i) as [r r' [_ Hr]|]; [by intros ?? [? _]|done|..].
  - by apply Hr.
  - done.
Qed.

Lemma not_synced_Parent : FParent ∉ synced_fields.
Proof. apply (bool_decide_unpack _). by vm_compute. Qed.
Lemma not_synced_Active : FActive ∉ synced_fields.
Proof. apply (bool_decide_unpack _). by vm_compute. Qed.
Lemma not_synced_IsCompany : FIsCompany ∉ synced_fields.
Proof. apply (bool_decide_unpack _). by vm_compute. Qed.
Lemma not_synced_Type : FType ∉ synced_fields.
Proof. apply (bool_decide_unpack _). by vm_compute. Qed.
Lemma not_synced_CompanyName : FCompanyName ∉ synced_fields.
Proof. apply (bool_decide_unpack _). by vm_compute. Qed.

Lemma Parent_keeps t t' rs : Forall2 keeps t t' → Parent t' rs = Parent t rs.
Proof. intros H. unfold Parent. by rewrite (Get_keeps t t') by (done || apply not_synced_Parent). Qed.

Lemma IsCompany_keeps t t' rs : Forall2 keeps t t' → IsCompany t' rs = IsCompany t rs.
Proof. intros H. unfold IsCompany. by rewrite (Get_keeps t t') by (done || apply not_synced_IsCompany). Qed.

Lemma Type_keeps t t' rs : Forall2 keeps t t' → Type_ t' rs = Type_ t rs.
Proof. intros H. unfold Type_. by rewrite (Get_keeps t t') by (done || apply not_synced_Type). Qed.

Lemma Children_keeps t t' rs : Forall2 keeps t t' → Children t' rs = Children t rs.
Proof.
  intros Ht. unfold Children. destruct rs as [|i rs]; [done|].
  induction Ht as [|r r' t t' [HID Hr] _ IH]; [done|].
  rewrite !filter_cons.
  pose proof (Hr FParent not_synced_Parent) as HP.
  pose proof (Hr FActive not_synced_Active) as HA.
  simpl in HP, HA. injection HP as ->. injection HA as ->.
  destruct (decide _); simpl; by rewrite IH, ?HID.
Qed.

Lemma person_children_keeps t t' rs :
  Forall2 keeps t t' → person_children t' rs = person_children t rs.
Proof.
  intros Ht. unfold person_children. rewrite (Children_keeps t t') by done.
  apply list_filter_iff. intros c. by rewrite (IsCompany_keeps t t').
Qed.

Lemma contact_children_keeps t t' rs :
  Forall2 keeps t t' → contact_children t' rs = contact_children t rs.
Proof.
  intros Ht. unfold contact_children. rewrite (Children_keeps t t') by done.
  apply list_filter_iff. intros c. by rewrite (Type_keeps t t').
Qed.

Lemma ranked_keeps hgt t t' : Forall2 keeps t t' → ranked hgt t → ranked hgt t'.
Proof.
  intros Ht Hr r' p Hin Hp.
  apply list_elem_of_lookup in Hin as [n Hn].
  destruct (Forall2_lookup_r _ _ _ _ _ Ht Hn) as (r & Hl & HID & Hk).
  rewrite HID. apply Hr; [by eapply list_elem_of_lookup_2|].
  pose proof (Hk FParent not_synced_Parent) as HP. simpl in HP. congruence.
Qed.

(** ** Data of the internal writes *)

Lemma lookup_foldl_insert (g : Field → Value) (l : list Field) (d : PartnerData) f :
  foldl (λ res f, <[f := g f]> res) d l !! f
  = if decide (f ∈ l) then Some (g f) else d !! f.
Proof.
  revert d. induction l as [|x l IH]; intros d; simpl.
  - destruct (decide (f ∈ [])) as [H|H]; [by apply elem_of_nil in H|done].
  - rewrite IH.
    destruct (decide (f ∈ l)) as [Hl|Hl], (decide (f ∈ x :: l)) as [Hxl|Hxl];
      try done.
    + destruct Hxl. by right.
    + apply elem_of_cons in Hxl as [->|?]; [by rewrite lookup_insert_eq|done].
    + rewrite lookup_insert_ne; [done|]. intros ->. apply Hxl. left.
Qed.

Lemma lookup_UpdateFieldValues t rs l f :
  UpdateFieldValues t rs l !! f = if decide (f ∈ l) then Some (Get t rs f) else None.
Proof. unfold UpdateFieldValues. by rewrite lookup_foldl_insert, lookup_empty. Qed.

Lemma lookup_foldl_copy (vals : PartnerData) (l : list Field) (d : PartnerData) f :
  foldl (λ res f, if Has vals f then <[f := DGet vals f]> res else res) d l !! f
  = if decide (f ∈ l)
    then match vals !! f with Some v => Some v | None => d !! f end
    else d !! f.
Proof.
  revert d. induction l as [|x l IH]; intros d; simpl.
  - destruct (decide (f ∈ [])) as [H|H]; [by apply elem_of_nil in H|done].
  - rewrite IH. unfold Has, DGet.
    destruct (decide (x = f)) as [->|Hne].
    + assert (f ∈ f :: l) as Hin by left.
      destruct (vals !! f) as [v|] eqn:Hv.
      * rewrite bool_decide_eq_true_2 by eauto. rewrite lookup_insert_eq.
        by destruct (decide (f ∈ l)), (decide (f ∈ f :: l)).
      * rewrite bool_decide_eq_false_2 by (by intros [? ?]).
        by destruct (decide (f ∈ l)), (decide (f ∈ f :: l)).
    + assert ((if bool_decide (is_Some (vals !! x))
               then <[x:=default (zero_value x) (vals !! x)]> d else d) !! f = d !! f)
        as ->.
      { destruct (bool_decide _); [by rewrite lookup_insert_ne|done]. }
      destruct (decide (f ∈ l)) as [Hl|Hl], (decide (f ∈ x :: l)) as [Hxl|Hxl];
        try done.
      * destruct Hxl. by right.
      * apply elem_of_cons in Hxl as [->|?]; done.
Qed.

(** The address part of a data, as [UpdateAddress] extracts it. *)
Lemma lookup_address_part (vals : PartnerData) (l : list Field) f :
  foldl (λ res f, if Has vals f then <[f := DGet vals f]> res else res)
        (∅ : PartnerData) l !! f
  = if decide (f ∈ l) then vals !! f else None.
Proof.
  rewrite lookup_foldl_copy, lookup_empty.
  destruct (decide (f ∈ l)); [|done]. by destruct (vals !! f).
Qed.

Lemma AddressFields_synced f : f ∈ AddressFields → f ∈ synced_fields.
Proof. unfold synced_fields. rewrite !elem_of_app. auto. Qed.

Lemma CommercialFields_synced f : f ∈ CommercialFields → f ∈ synced_fields.
Proof. unfold synced_fields. rewrite !elem_of_app. auto. Qed.

Lemma only_synced_address_part (vals : PartnerData) :
  only_synced (foldl (λ res f, if Has vals f then <[f := DGet vals f]> res else res)
                     (∅ : PartnerData) AddressFields).
Proof.
  intros f [v Hv]. rewrite lookup_address_part in Hv.
  destruct (decide (f ∈ AddressFields)); [by apply AddressFields_synced|done].
Qed.

Lemma only_synced_commercial t rs :
  only_synced (UpdateFieldValues t rs CommercialFields).
Proof.
  intros f [v Hv]. rewrite lookup_UpdateFieldValues in Hv.
  destruct (decide (f ∈ CommercialFields)); [by apply CommercialFields_synced|done].
Qed.

Lemma only_synced_insert f v (d : PartnerData) :
  f ∈ synced_fields → only_synced d → only_synced (<[f := v]> d).
Proof.
  intros Hf Hd g [x Hx]. destruct (decide (f = g)) as [->|Hne]; [done|].
  rewrite lookup_insert_ne in Hx by done. apply Hd. eauto.
Qed.

Lemma only_synced_writable ctx d : only_synced d → only_synced (writable ctx d).
Proof.
  intros Hd. unfold writable. destruct (HasKey _ _); [done|].
  intros f [v Hv]. apply lookup_delete_Some in Hv as [_ Hv]. apply Hd. eauto.
Qed.

Lemma only_synced_dParent d : only_synced d → dParent d = [].
Proof.
  intros Hd. unfold dParent, DGet.
  destruct (d !! FParent) eqn:E; [|done].
  destruct not_synced_Parent. apply Hd. eauto.
Qed.

Lemma clear_company_name_synced d : only_synced d → clear_company_name d = d.
Proof. intros Hd. unfold clear_company_name. by rewrite only_synced_dParent. Qed.

Lemma only_synced_Has d f : only_synced d → f ∉ synced_fields → Has d f = false.
Proof.
  intros Hd Hf. unfold Has. apply bool_decide_eq_false_2. intros H. by apply Hf, Hd.
Qed.

(** ** Writes to the table *)

Lemma apply_data_keeps d r : only_synced d → keeps r (apply_data d r).
Proof.
  intros Hd. split; [apply ID_apply_data|].
  intros f Hf. rewrite get_apply_data.
  destruct (d !! f) eqn:E; [|done]. destruct Hf. apply Hd. eauto.
Qed.

Lemma update_rows_Forall2 (R : PartnerRow → PartnerRow → Prop) rs d t :
  Reflexive R →
  (∀ r, r ∈ t → ID r ∈ rs → R r (apply_data d r)) →
  Forall2 R t (update_rows rs d t).
Proof.
  intros HR H. unfold update_rows. apply Forall2_fmap_r, Forall_Forall2_diag.
  apply Forall_forall. intros r Hr. simpl.
  destruct (bool_decide (ID r ∈ rs)) eqn:E; [|done].
  apply bool_decide_eq_true in E. by apply H.
Qed.

Lemma SuperWrite_plain ctx rs d t :
  only_synced d → SuperWrite ctx rs d t = update_rows rs (writable ctx d) t.
Proof.
  intros Hd. unfold SuperWrite.
  rewrite !only_synced_Has;
    [done|done|apply not_synced_IsCompany|done|apply not_synced_Parent].
Qed.

Lemma SuperWrite_keeps_above hgt k ctx rs d t :
  only_synced d → (∀ i, i ∈ rs → (hgt i < k)%nat) →
  Forall2 (keeps_above hgt k) t (SuperWrite ctx rs d t).
Proof.
  intros Hd Hrs. rewrite SuperWrite_plain by done.
  apply update_rows_Forall2; [apply _|].
  intros r _ Hr. split; [by apply apply_data_keeps, only_synced_writable|].
  intros Hk. apply Hrs in Hr. lia.
Qed.

(** ** Loops *)

Lemma for_each_steps {A} (f : A → World → option World)
      (Inv : World → Prop) (Rel : World → World → Prop) (l : list A) :
  Reflexive Rel → Transitive Rel →
  (∀ x w w', x ∈ l → Inv w → f x w = Some w' → Rel w w' ∧ Inv w') →
  ∀ w w', Inv w → for_each f l w = Some w' → Rel w w' ∧ Inv w'.
Proof.
  intros HR HT. induction l as [|x l IH]; intros Hf w w' Hw; simpl.
  - by intros [= <-].
  - destruct (f x w) as [w1|] eqn:E; simpl; [|done]. intros Hl.
    destruct (Hf x w w1) as [H1 H2]; [left|done..|].
    destruct (IH (λ y u u' Hy, Hf y u u' (list_elem_of_further _ _ _ Hy)) w1 w')
      as [H3 H4]; [done..|].
    split; [by etrans|done].
Qed.

Lemma for_each_total {A} (f : A → World → option World)
      (Inv : World → Prop) (l : list A) :
  (∀ x w, x ∈ l → Inv w → ∃ w', f x w = Some w' ∧ Inv w') →
  ∀ w, Inv w → ∃ w', for_each f l w = Some w' ∧ Inv w'.
Proof.
  induction l as [|x l IH]; intros Hf w Hw; simpl; [eauto|].
  destruct (Hf x w) as (w1 & -> & H1); [left|done|]. simpl.
  apply IH; [|done]. intros y u Hy. apply Hf. by right.
Qed.

(** ** The equations of the engine *)

Lemma Write_S n ctx rs vals w :
  Write (S n) ctx rs vals w
  = if HasKey ctx "goto_super" then Some (on_rows (SuperWrite ctx rs vals) w)
    else
      let vals := clear_company_name vals in
      let w := on_rows (SuperWrite ctx rs vals) w in
      for_each (fun partner => FieldsSync n ctx [partner] vals) rs w.
Proof. reflexivity. Qed.

Lemma FieldsSync_S n ctx rs vals w :
  FieldsSync (S n) ctx rs vals w
  = (w ← sync_from_company (Write n) ctx rs vals (log_sync rs w);
     w ← sync_address_from_parent (Write n) ctx rs w;
     if IsEmpty (Children (rows w) rs) then Some w
     else
       w ← sync_to_children (CommercialSyncToChildren n) ctx rs w;
       w ← sync_to_new_children (CommercialSyncToChildren n) ctx rs w;
       sync_address_to_children (Write n) ctx rs vals w).
Proof. reflexivity. Qed.

Lemma CommercialSyncToChildren_S n ctx rs w :
  CommercialSyncToChildren (S n) ctx rs w
  = let partnerData :=
      UpdateFieldValues (rows w) (CommercialPartner (rows w) rs) CommercialFields in
    let syncChildren := person_children (rows w) rs in
    if IsEmpty syncChildren then Some w
    else
      w ← for_each (fun child => CommercialSyncToChildren n ctx [child])
                   syncChildren w;
      let partnerData :=
        <[FCommercialPartner := VRef (ref_of (CommercialPartner (rows w) rs))]>
          partnerData in
      Write n (WithContext "hexya_force_compute_write" ctx) syncChildren partnerData w.
Proof. reflexivity. Qed.

Lemma Write_goto_super n ctx rs vals w :
  HasKey ctx "goto_super" = true →
  Write (S n) ctx rs vals w = Some (on_rows (SuperWrite ctx rs vals) w).
Proof. intros H. by rewrite Write_S, H. Qed.

(** ** What a synchronisation touches *)

Lemma Children_ranked hgt t rs c :
  ranked hgt t → c ∈ Children t rs →
  ∃ i, head rs = Some i ∧ (hgt c < hgt i)%nat.
Proof.
  intros Hr Hc. unfold Children in Hc. destruct rs as [|i rs].
  { by apply elem_of_nil in Hc. }
  exists i. split; [done|].
  apply list_elem_of_fmap in Hc as (r & -> & Hin).
  apply list_elem_of_filter in Hin as [HP Hin].
  apply andb_prop_elim in HP as [HP _]. apply bool_decide_unpack in HP.
  by apply Hr.
Qed.

Lemma person_children_Children t rs c :
  c ∈ person_children t rs → c ∈ Children t rs.
Proof. unfold person_children. by intros [_ ?]%list_elem_of_filter. Qed.

Lemma contact_children_Children t rs c :
  c ∈ contact_children t rs → c ∈ Children t rs.
Proof. unfold contact_children. by intros [_ ?]%list_elem_of_filter. Qed.

Lemma HasKey_WithContext k ctx : HasKey (WithContext k ctx) k = true.
Proof. unfold HasKey, WithContext. apply bool_decide_eq_true_2. left. Qed.

Lemma UpdateAddress_keeps_above hgt k n ctx rs vals w w' :
  (∀ i, i ∈ rs → (hgt i < k)%nat) →
  UpdateAddress_with (Write n) ctx rs vals w = Some w' →
  Forall2 (keeps_above hgt k) (rows w) (rows w').
Proof.
  intros Hrs. unfold UpdateAddress_with.
  destruct (_ =? _)%nat; [by intros [= <-]|].
  destruct n as [|n]; [done|].
  rewrite Write_goto_super by apply HasKey_WithContext. intros [= <-]. simpl.
  apply SuperWrite_keeps_above; [apply only_synced_address_part|done].
Qed.

Section frame.
Context (hgt : Z → nat).

Let Rel (k : nat) (w w' : World) : Prop :=
  Forall2 (keeps_above hgt k) (rows w) (rows w').
Let Inv (w : World) : Prop := ranked hgt (rows w).

Local Instance Rel_refl k : Reflexive (Rel k).
Proof. intros w. unfold Rel. reflexivity. Qed.

Local Instance Rel_trans k : Transitive (Rel k).
Proof. intros w1 w2 w3. unfold Rel. by etrans. Qed.

Lemma Rel_Inv k w w' : Rel k w w' → Inv w → Inv w'.
Proof. intros H. eapply ranked_keeps, keeps_above_keeps, H. Qed.

Lemma Rel_mono k k' w w' : (k ≤ k')%nat → Rel k w w' → Rel k' w w'.
Proof. intros. by eapply Forall2_keeps_above_mono. Qed.

Lemma engine_frame n :
  (∀ k ctx rs vals w w',
     Inv w → only_synced vals → (∀ i, i ∈ rs → (hgt i ≤ k)%nat) →
     Write n ctx rs vals w = Some w' → Rel (S k) w w')
  ∧ (∀ k ctx rs vals w w',
     Inv w → (∀ i, i ∈ rs → (hgt i ≤ k)%nat) →
     FieldsSync n ctx rs vals w = Some w' → Rel (S k) w w')
  ∧ (∀ k ctx rs w w',
     Inv w → (∀ i, head rs = Some i → (hgt i ≤ k)%nat) →
     CommercialSyncToChildren n ctx rs w = Some w' → Rel k w w').
Proof.
  induction n as [|n (IHW & IHF & IHC)]; [done|].
  split; [|split].
  - (* Write *)
    intros k ctx rs vals w w' Hw Hd Hrs. rewrite Write_S.
    assert (Rel (S k) w (on_rows (SuperWrite ctx rs vals) w)) as H0.
    { apply SuperWrite_keeps_above; [done|]. intros i Hi. apply Hrs in Hi. lia. }
    destruct (HasKey ctx "goto_super"); [by intros [= <-]|].
    rewrite clear_company_name_synced by done. cbv zeta.
    intros H.
    apply (for_each_steps _ Inv (Rel (S k))) in H as [H _].
    + by etrans.
    + apply _.
    + apply _.
    + intros x u u' Hx Hu Hs. assert (Rel (S k) u u') as Huu.
      { eapply IHF; [exact Hu| |exact Hs].
        intros i ->%list_elem_of_singleton. by apply Hrs. }
      split; [done|by eapply Rel_Inv].
    + by eapply Rel_Inv.
  - (* FieldsSync *)
    intros k ctx rs vals w w' Hw Hrs. rewrite FieldsSync_S.
    assert (∀ i, i ∈ rs → (hgt i < S k)%nat) as Hrs'.
    { intros i Hi. apply Hrs in Hi. lia. }
    intros H. apply bind_Some in H as (w1 & H1 & H).
    assert (Rel (S k) w w1) as R1.
    { change (Rel (S k) (log_sync rs w) w1).
      unfold sync_from_company, CommercialSyncFromCompany_with in H1.
      destruct (negb _); [|by injection H1 as <-].
      destruct (Equals _ _); [by injection H1 as <-|].
      eapply IHW; [done|apply only_synced_commercial|done|done]. }
    apply bind_Some in H as (w2 & H2 & H).
    assert (Rel (S k) w1 w2) as R2.
    { unfold sync_address_from_parent in H2.
      destruct (_ && _); [|by injection H2 as <-].
      by eapply UpdateAddress_keeps_above. }
    assert (Inv w2) as Hw2 by (eapply Rel_Inv; [|eapply Rel_Inv]; done).
    destruct (IsEmpty (Children (rows w2) rs)); [injection H as <-; by etrans|].
    apply bind_Some in H as (w3 & H3 & H).
    assert (Rel k w2 w3) as R3.
    { unfold sync_to_children in H3.
      destruct (_ && _); [|by injection H3 as <-].
      eapply IHC; [done| |done]. intros i Hi. apply Hrs.
      destruct rs; simplify_eq/=. left. }
    assert (Inv w3) as Hw3 by by eapply Rel_Inv.
    apply bind_Some in H as (w4 & H4 & H).
    assert (Rel k w3 w4) as R4.
    { unfold sync_to_new_children in H4.
      destruct (existsb _ _); [|by injection H4 as <-].
      eapply IHC; [done| |done]. intros i Hi. apply Hrs.
      destruct rs; simplify_eq/=. left. }
    assert (Inv w4) as Hw4 by by eapply Rel_Inv.
    assert (Rel (S k) w4 w') as R5.
    { unfold sync_address_to_children in H.
      destruct (existsb _ _); [|by injection H as <-].
      eapply UpdateAddress_keeps_above; [|done].
      intros c Hc. apply contact_children_Children in Hc.
      destruct (Children_ranked hgt _ _ _ Hw4 Hc) as (i & Hi & Hlt).
      assert (hgt i ≤ k)%nat; [|lia].
      apply Hrs. destruct rs; simplify_eq/=. left. }
    etrans; [done|]. etrans; [done|]. etrans; [by eapply Rel_mono; [|done]; lia|].
    etrans; [by eapply Rel_mono; [|done]; lia|done].
  - (* CommercialSyncToChildren *)
    intros k ctx rs w w' Hw Hrs. rewrite CommercialSyncToChildren_S. cbv zeta.
    destruct (IsEmpty (person_children (rows w) rs)) eqn:Hemp; [by intros [= <-]|].
    assert (∀ c, c ∈ person_children (rows w) rs → (hgt c < k)%nat) as Hch.
    { intros c Hc. apply person_children_Children in Hc.
      destruct (Children_ranked hgt _ _ _ Hw Hc) as (i & Hi & Hlt).
      apply Hrs in Hi. lia. }
    intros H. apply bind_Some in H as (w1 & H1 & H).
    apply (for_each_steps _ Inv (Rel k)) in H1 as [R1 Hw1];
      [|apply _|apply _| |done].
    2:{ intros c u u' Hc Hu Hs. assert (Rel k u u') as Huu.
        { apply (Rel_mono (hgt c)); [apply Hch in Hc; lia|].
          eapply IHC; [done| |done]. by intros i [= <-]. }
        split; [done|by eapply Rel_Inv]. }
    etrans; [done|].
    destruct k as [|k].
    { destruct (person_children (rows w) rs) as [|c ?]; [done|].
      assert (hgt c < 0)%nat; [apply Hch; left|lia]. }
    eapply IHW; [done| | |done].
    + apply only_synced_insert; [|apply only_synced_commercial].
      unfold synced_fields. rewrite !elem_of_app, !elem_of_cons. auto.
    + intros c Hc. apply Hch in Hc. lia.
Qed.
End frame.

Lemma Write_frame hgt n k ctx rs vals w w' :
  ranked hgt (rows w) → only_synced vals → (∀ i, i ∈ rs → (hgt i ≤ k)%nat) →
  Write n ctx rs vals w = Some w' →
  Forall2 (keeps_above hgt (S k)) (rows w) (rows w').
Proof. apply (engine_frame hgt n). Qed.

Lemma FieldsSync_frame hgt n k ctx rs vals w w' :
  ranked hgt (rows w) → (∀ i, i ∈ rs → (hgt i ≤ k)%nat) →
  FieldsSync n ctx rs vals w = Some w' →
  Forall2 (keeps_above hgt (S k)) (rows w) (rows w').
Proof. apply (engine_frame hgt n). Qed.

Lemma CommercialSyncToChildren_frame hgt n k ctx rs w w' :
  ranked hgt (rows w) → (∀ i, head rs = Some i → (hgt i ≤ k)%nat) →
  CommercialSyncToChildren n ctx rs w = Some w' →
  Forall2 (keeps_above hgt k) (rows w) (rows w').
Proof. apply (engine_frame hgt n). Qed.

(** ** Termination on forests *)

Arguments sync_from_company : simpl never.
Arguments sync_address_from_parent : simpl never.
Arguments sync_to_children : simpl never.
Arguments sync_to_new_children : simpl never.
Arguments sync_address_to_children : simpl never.
Arguments UpdateAddress_with : simpl never.
Arguments Write : simpl never.
Arguments FieldsSync : simpl never.
Arguments CommercialSyncToChildren : simpl never.

Lemma UpdateAddress_total n ctx rs vals w :
  is_Some (UpdateAddress_with (Write (S n)) ctx rs vals w).
Proof.
  unfold UpdateAddress_with. destruct (_ =? _)%nat; [done|].
  by rewrite Write_goto_super by apply HasKey_WithContext.
Qed.

Section total.
Context (hgt : Z → nat).

Let Inv (w : World) : Prop := ranked hgt (rows w).

Lemma frame_Write n k ctx rs vals w w' :
  Inv w → only_synced vals → (∀ i, i ∈ rs → (hgt i ≤ k)%nat) →
  Write n ctx rs vals w = Some w' → Inv w'.
Proof.
  intros Hw Hd Hrs H. eapply ranked_keeps; [|exact Hw].
  eapply keeps_above_keeps. by eapply Write_frame.
Qed.

Lemma frame_FieldsSync n k ctx rs vals w w' :
  Inv w → (∀ i, i ∈ rs → (hgt i ≤ k)%nat) →
  FieldsSync n ctx rs vals w = Some w' → Inv w'.
Proof.
  intros Hw Hrs H. eapply ranked_keeps; [|exact Hw].
  eapply keeps_above_keeps. by eapply FieldsSync_frame.
Qed.

Lemma frame_CommercialSyncToChildren n ctx rs w w' :
  Inv w → CommercialSyncToChildren n ctx rs w = Some w' → Inv w'.
Proof.
  intros Hw H. eapply ranked_keeps; [|exact Hw].
  eapply keeps_above_keeps.
  eapply (CommercialSyncToChildren_frame hgt n (default 0%nat (hgt <$> head rs)));
    [done| |done].
  by intros i ->.
Qed.

Lemma frame_UpdateAddress n ctx rs vals w w' :
  Inv w → UpdateAddress_with (Write n) ctx rs vals w = Some w' → Inv w'.
Proof.
  intros Hw H. eapply ranked_keeps; [|exact Hw].
  eapply keeps_above_keeps.
  eapply (UpdateAddress_keeps_above hgt (S (foldr (λ i m, Nat.max (hgt i) m) 0%nat rs)));
    [|done].
  clear. induction rs as [|j rs IH]; intros i Hi.
  - by apply elem_of_nil in Hi.
  - simpl. apply elem_of_cons in Hi as [->|Hi]; [lia|]. apply IH in Hi. lia.
Qed.

(** The downstream half of [FieldsSync], once the pushing terminates. *)
Lemma downstream_total n ctx rs vals w :
  Inv w →
  (∀ u, Inv u → is_Some (CommercialSyncToChildren (S n) ctx rs u)) →
  is_Some (w ← sync_to_children (CommercialSyncToChildren (S n)) ctx rs w;
           w ← sync_to_new_children (CommercialSyncToChildren (S n)) ctx rs w;
           sync_address_to_children (Write (S n)) ctx rs vals w).
Proof.
  intros Hw HC.
  assert (∃ w1, sync_to_children (CommercialSyncToChildren (S n)) ctx rs w = Some w1
                ∧ Inv w1) as (w1 & -> & Hw1).
  { unfold sync_to_children. destruct (_ && _); [|eauto].
    destruct (HC w Hw) as [w1 H1]. exists w1. split; [done|].
    by eapply frame_CommercialSyncToChildren. }
  simpl.
  assert (∃ w2, sync_to_new_children (CommercialSyncToChildren (S n)) ctx rs w1 = Some w2
                ∧ Inv w2) as (w2 & -> & Hw2).
  { unfold sync_to_new_children. destruct (existsb _ _); [|eauto].
    destruct (HC w1 Hw1) as [w2 H2]. exists w2. split; [done|].
    by eapply frame_CommercialSyncToChildren. }
  simpl. unfold sync_address_to_children.
  destruct (existsb _ _); [apply UpdateAddress_total|done].
Qed.

Lemma engine_total k :
  (∀ n ctx rs w,
     Inv w → (∀ i, head rs = Some i → (hgt i ≤ k)%nat) → (3 * k + 1 ≤ n)%nat →
     is_Some (CommercialSyncToChildren n ctx rs w))
  ∧ (∀ n ctx rs vals w,
     Inv w → (∀ i, i ∈ rs → (hgt i ≤ k)%nat) → dParent vals = [] →
     (3 * k + 2 ≤ n)%nat → is_Some (FieldsSync n ctx rs vals w))
  ∧ (∀ n ctx rs vals w,
     Inv w → (∀ i, i ∈ rs → (hgt i ≤ k)%nat) → only_synced vals →
     (3 * k + 3 ≤ n)%nat → is_Some (Write n ctx rs vals w))
  ∧ (∀ n ctx rs vals w,
     Inv w → (∀ i, i ∈ rs → (hgt i ≤ k)%nat) →
     (3 * k + 4 ≤ n)%nat → is_Some (FieldsSync n ctx rs vals w)).
Proof.
  assert (∀ k,
    (k = 0%nat ∨ ∃ k', k = S k' ∧
       (∀ n ctx rs w,
          Inv w → (∀ i, head rs = Some i → (hgt i ≤ k')%nat) → (3 * k' + 1 ≤ n)%nat →
          is_Some (CommercialSyncToChildren n ctx rs w)) ∧
       (∀ n ctx rs vals w,
          Inv w → (∀ i, i ∈ rs → (hgt i ≤ k')%nat) → only_synced vals →
          (3 * k' + 3 ≤ n)%nat → is_Some (Write n ctx rs vals w))) →
    ∀ n ctx rs w,
      Inv w → (∀ i, head rs = Some i → (hgt i ≤ k)%nat) → (3 * k + 1 ≤ n)%nat →
      is_Some (CommercialSyncToChildren n ctx rs w)) as HC.
  { clear k. intros k IH n ctx rs w Hw Hrs Hn.
    destruct n as [|n]; [lia|]. rewrite CommercialSyncToChildren_S. cbv zeta.
    destruct (IsEmpty (person_children (rows w) rs)) eqn:Hemp; [done|].
    assert (∀ c, c ∈ person_children (rows w) rs → (hgt c < k)%nat) as Hch.
    { intros c Hc. apply person_children_Children in Hc.
      destruct (Children_ranked hgt _ _ _ Hw Hc) as (i & Hi & Hlt).
      apply Hrs in Hi. lia. }
    destruct IH as [->|(k' & -> & IHC & IHW)].
    { destruct (person_children (rows w) rs) as [|c ?]; [done|].
      assert (hgt c < 0)%nat; [apply Hch; left|lia]. }
    destruct (for_each_total (λ child, CommercialSyncToChildren n ctx [child]) Inv
                (person_children (rows w) rs)) with (w := w) as (w1 & -> & Hw1);
      [|done|].
    { intros c u Hc Hu. destruct (IHC n ctx [c] u) as [u' Hu']; [done| |lia|].
      - intros i [= <-]. apply Hch in Hc. lia.
      - exists u'. split; [done|]. by eapply frame_CommercialSyncToChildren. }
    simpl. apply IHW; [done| | |lia].
    - intros c Hc. apply Hch in Hc. lia.
    - apply only_synced_insert; [|apply only_synced_commercial].
      unfold synced_fields. rewrite !elem_of_app, !elem_of_cons. auto. }
  assert (∀ k,
    (∀ n ctx rs w,
       Inv w → (∀ i, head rs = Some i → (hgt i ≤ k)%nat) → (3 * k + 1 ≤ n)%nat →
       is_Some (CommercialSyncToChildren n ctx rs w)) →
    ∀ n ctx rs vals w,
      Inv w → (∀ i, i ∈ rs → (hgt i ≤ k)%nat) → dParent vals = [] →
      (3 * k + 2 ≤ n)%nat → is_Some (FieldsSync n ctx rs vals w)) as HF0.
  { clear k. intros k IHC n ctx rs vals w Hw Hrs Hd Hn.
    destruct n as [|[|n]]; [lia..|]. rewrite FieldsSync_S.
    assert (sync_from_company (Write (S n)) ctx rs vals (log_sync rs w)
            = Some (log_sync rs w)) as ->.
    { unfold sync_from_company. by rewrite Hd. }
    simpl.
    assert (∃ w2, sync_address_from_parent (Write (S n)) ctx rs (log_sync rs w)
                  = Some w2 ∧ Inv w2) as (w2 & -> & Hw2).
    { unfold sync_address_from_parent.
      destruct (_ && _); [|exists (log_sync rs w); split; [done|exact Hw]].
      destruct (UpdateAddress_total n ctx rs
                  (OnchangeParent (rows (log_sync rs w)) rs) (log_sync rs w))
        as [w2 H2].
      exists w2. split; [done|]. eapply frame_UpdateAddress; [|exact H2]. exact Hw. }
    simpl. destruct (IsEmpty _); [done|].
    apply downstream_total; [done|]. intros u Hu. apply IHC; [done| |lia].
    intros i Hi. apply Hrs. destruct rs; simplify_eq/=. left. }
  assert (∀ k,
    (∀ n ctx rs vals w,
       Inv w → (∀ i, i ∈ rs → (hgt i ≤ k)%nat) → dParent vals = [] →
       (3 * k + 2 ≤ n)%nat → is_Some (FieldsSync n ctx rs vals w)) →
    ∀ n ctx rs vals w,
      Inv w → (∀ i, i ∈ rs → (hgt i ≤ k)%nat) → only_synced vals →
      (3 * k + 3 ≤ n)%nat → is_Some (Write n ctx rs vals w)) as HW0.
  { clear k. intros k IHF n ctx rs vals w Hw Hrs Hd Hn.
    destruct n as [|n]; [lia|]. rewrite Write_S.
    destruct (HasKey ctx "goto_super"); [done|].
    rewrite clear_company_name_synced by done. cbv zeta.
    destruct (for_each_total (λ partner, FieldsSync n ctx [partner] vals) Inv rs)
      with (w := on_rows (SuperWrite ctx rs vals) w) as (w1 & -> & Hw1); [| |done].
    - intros x u Hx Hu.
      destruct (IHF n ctx [x] vals u) as [u' Hu'];
        [done| |by apply only_synced_dParent|lia|].
      + intros i ->%list_elem_of_singleton. by apply Hrs.
      + exists u'. split; [done|]. eapply frame_FieldsSync; [done| |done].
        intros i ->%list_elem_of_singleton. by apply Hrs.
    - eapply ranked_keeps; [|exact Hw]. eapply keeps_above_keeps. simpl.
      apply (SuperWrite_keeps_above hgt (S k)); [done|].
      intros i Hi. apply Hrs in Hi. lia. }
  assert (∀ k,
    (∀ n ctx rs w,
       Inv w → (∀ i, head rs = Some i → (hgt i ≤ k)%nat) → (3 * k + 1 ≤ n)%nat →
       is_Some (CommercialSyncToChildren n ctx rs w)) →
    (∀ n ctx rs vals w,
       Inv w → (∀ i, i ∈ rs → (hgt i ≤ k)%nat) → only_synced vals →
       (3 * k + 3 ≤ n)%nat → is_Some (Write n ctx rs vals w)) →
    ∀ n ctx rs vals w,
      Inv w → (∀ i, i ∈ rs → (hgt i ≤ k)%nat) →
      (3 * k + 4 ≤ n)%nat → is_Some (FieldsSync n ctx rs vals w)) as HF.
  { clear k. intros k IHC IHW n ctx rs vals w Hw Hrs Hn.
    destruct n as [|[|n]]; [lia..|]. rewrite FieldsSync_S.
    assert (∃ w1, sync_from_company (Write (S n)) ctx rs vals (log_sync rs w)
                  = Some w1 ∧ Inv w1) as (w1 & -> & Hw1).
    { unfold sync_from_company, CommercialSyncFromCompany_with.
      destruct (negb _); [|exists (log_sync rs w); split; [done|exact Hw]].
      destruct (Equals _ _); [exists (log_sync rs w); split; [done|exact Hw]|].
      destruct (IHW (S n) ctx rs
                  (UpdateFieldValues (rows (log_sync rs w))
                     (CommercialPartner (rows (log_sync rs w)) rs) CommercialFields)
                  (log_sync rs w)) as [w1 H1];
        [exact Hw|done|apply only_synced_commercial|lia|].
      exists w1. split; [exact H1|].
      eapply frame_Write; [| | |exact H1];
        [exact Hw|apply only_synced_commercial|done]. }
    simpl.
    assert (∃ w2, sync_address_from_parent (Write (S n)) ctx rs w1
                  = Some w2 ∧ Inv w2) as (w2 & -> & Hw2).
    { unfold sync_address_from_parent. destruct (_ && _); [|eauto].
      destruct (UpdateAddress_total n ctx rs (OnchangeParent (rows w1) rs) w1)
        as [w2 H2].
      exists w2. split; [done|]. by eapply frame_UpdateAddress. }
    simpl. destruct (IsEmpty _); [done|].
    apply downstream_total; [done|]. intros u Hu. apply IHC; [done| |lia].
    intros i Hi. apply Hrs. destruct rs; simplify_eq/=. left. }
  induction k as [|k (IHC & IHF0 & IHW0 & IHF)].
  - assert (HC0 := HC 0%nat (or_introl eq_refl)).
    split; [done|]. split; [by apply HF0|]. split; [by apply HW0, HF0|].
    apply HF; [done|]. by apply HW0, HF0.
  - assert (HCS := HC (S k) (or_intror (ex_intro _ k (conj eq_refl (conj IHC IHW0))))).
    split; [done|]. split; [by apply HF0|]. split; [by apply HW0, HF0|].
    apply HF; [done|]. by apply HW0, HF0.
Qed.
End total.

(** ** The commercial push *)

Lemma for_each_at {A} (f : A → World → option World)
      (Inv : World → Prop) (Rel : World → World → Prop) (l : list A) :
  Reflexive Rel → Transitive Rel →
  (∀ x w w', x ∈ l → Inv w → f x w = Some w' → Rel w w' ∧ Inv w') →
  ∀ x w w', x ∈ l → Inv w → for_each f l w = Some w' →
            ∃ u u', Inv u ∧ f x u = Some u' ∧ Rel u' w'.
Proof.
  intros HR HT. induction l as [|y l IH]; intros Hf x w w' Hx Hw; simpl.
  - by apply elem_of_nil in Hx.
  - destruct (f y w) as [w1|] eqn:E; simpl; [|done]. intros Hl.
    destruct (Hf y w w1) as [H1 H2]; [left|done..|].
    assert (∀ z u u', z ∈ l → Inv u → f z u = Some u' → Rel u u' ∧ Inv u') as Hf'.
    { intros z u u' Hz. apply Hf. by right. }
    apply elem_of_cons in Hx as [->|Hx].
    + exists w, w1. split; [done|]. split; [done|].
      by apply (for_each_steps f Inv Rel l HR HT Hf' w1 w').
    + by apply (IH Hf' x w1 w').
Qed.

Lemma within_company_step t b x c :
  within_company t b x → c ∈ person_children t [x] → within_company t b c.
Proof.
  induction 1 as [b x Hx|b c' x Hc' _ IH]; intros Hc.
  - eapply within_below; [done|]. by apply within_child.
  - eapply within_below; [done|]. by apply IH.
Qed.

Lemma within_company_keeps t t' b d :
  Forall2 keeps t t' → within_company t b d → within_company t' b d.
Proof.
  intros Ht. induction 1 as [b d Hd|b c d Hc _ IH].
  - apply within_child. by rewrite (person_children_keeps t t').
  - eapply within_below; [|done]. by rewrite (person_children_keeps t t').
Qed.

Lemma find_row_update_rows rs d t i :
  find_row (update_rows rs d t) i
  = (λ r, if bool_decide (ID r ∈ rs) then apply_data d r else r) <$> find_row t i.
Proof.
  unfold find_row, update_rows. induction t as [|r t IH]; simpl; [done|].
  assert (ID (if bool_decide (ID r ∈ rs) then apply_data d r else r) = ID r) as ->.
  { destruct (bool_decide _); [apply ID_apply_data|done]. }
  by destruct (ID r =? i).
Qed.

Lemma Children_find_row t rs c : c ∈ Children t rs → is_Some (find_row t c).
Proof.
  unfold Children. destruct rs as [|i rs]; [by intros ?%elem_of_nil|].
  intros (r & -> & Hin)%list_elem_of_fmap.
  apply list_elem_of_filter in Hin as [_ Hin].
  unfold find_row. destruct (find (λ r0, ID r0 =? ID r) t) eqn:E; [done|].
  apply list_elem_of_In in Hin.
  eapply find_none in E; [|done]. simpl in E. lia.
Qed.

Section push.
Context (t0 : Table) (b : Z).

(** The values pushed: the commercial fields of [b]. *)
Let V (f : Field) : Value := Get t0 [b] f.

Let InCo (x : Z) : Prop := x = b ∨ within_company t0 b x.

Let Rc : PartnerRow → PartnerRow → Prop := pushed_from t0 b.

Let J (w : World) : Prop := Forall2 Rc t0 (rows w).
Let Rel (w w' : World) : Prop := Forall2 Rc (rows w) (rows w').

Let data_ok (d : PartnerData) : Prop :=
  only_synced d
  ∧ (∀ f v, f ∈ CommercialFields → d !! f = Some v → v = V f)
  ∧ (∀ v, d !! FCommercialPartner = Some v → v = VRef (Some b)).

Hypothesis HCP : ∀ x, InCo x → CommercialPartner t0 [x] = [b].

Local Instance Rc_refl : Reflexive Rc.
Proof. intros r. split; [done|]. split; [|by left]. intros. by left. Qed.

Local Instance Rc_trans : Transitive Rc.
Proof.
  intros r1 r2 r3 (K1 & C1 & P1) (K2 & C2 & P2). split; [by etrans|]. split.
  - intros f Hf. destruct (C2 f Hf) as [-> | ->]; [by apply C1|by right].
  - destruct P2 as [-> | ->]; [done|by right].
Qed.

Local Instance Rel_refl' : Reflexive Rel.
Proof. intros w. unfold Rel. reflexivity. Qed.

Local Instance Rel_trans' : Transitive Rel.
Proof. intros w1 w2 w3. unfold Rel. by etrans. Qed.

Lemma Rel_J w w' : Rel w w' → J w → J w'.
Proof. unfold Rel, J. intros ??. by etrans. Qed.

Lemma Rc_keeps t t' : Forall2 Rc t t' → Forall2 keeps t t'.
Proof. intros H. eapply Forall2_impl; [done|]. by intros r r' [? _]. Qed.

Lemma Rc_ID r r' : Rc r r' → ID r' = ID r.
Proof. by intros [[? _] _]. Qed.

Lemma J_CommercialPartner w x : J w → InCo x → CommercialPartner (rows w) [x] = [b].
Proof.
  intros HJ Hx. specialize (HCP x Hx). revert HCP.
  unfold CommercialPartner, Get.
  destruct (find_row_Forall2 Rc t0 (rows w) x Rc_ID HJ) as [r r' (_ & _ & HP)|];
    [|done]. simpl.
  destruct HP as [->| ->]; [done|]. by intros _.
Qed.

Lemma Rel_stable w w' d f :
  Rel w w' → f ∈ CommercialFields →
  Get (rows w) [d] f = V f → Get (rows w') [d] f = V f.
Proof.
  intros HR Hf. unfold Get.
  destruct (find_row_Forall2 Rc (rows w) (rows w') d Rc_ID HR) as [r r' (_ & HC & _)|];
    [|done].
  destruct (HC f Hf) as [->| ->]; done.
Qed.

Lemma J_commercial w f : J w → f ∈ CommercialFields → Get (rows w) [b] f = V f.
Proof.
  intros HJ Hf. apply (Rel_stable (mkWorld t0 []) w); [exact HJ|done|done].
Qed.

Lemma J_person_children w x :
  J w → person_children (rows w) [x] = person_children t0 [x].
Proof. intros HJ. by apply person_children_keeps, Rc_keeps. Qed.

Lemma InCo_child x c : InCo x → c ∈ person_children t0 [x] → InCo c.
Proof.
  intros [->|Hx] Hc; right; [by apply within_child|].
  by eapply within_company_step.
Qed.

Lemma data_ok_commercial w x :
  J w → InCo x →
  data_ok (UpdateFieldValues (rows w) (CommercialPartner (rows w) [x]) CommercialFields).
Proof.
  intros HJ Hx. rewrite J_CommercialPartner by done.
  split; [apply only_synced_commercial|]. split.
  - intros f v Hf. rewrite lookup_UpdateFieldValues.
    destruct (decide _); [|done]. intros [= <-]. by apply J_commercial.
  - intros v. rewrite lookup_UpdateFieldValues.
    destruct (decide _) as [Hc|]; [|done].
    exfalso. revert Hc. unfold CommercialFields.
    rewrite !elem_of_cons, elem_of_nil. intuition congruence.
Qed.

Lemma data_ok_address (vals : PartnerData) :
  data_ok (foldl (λ res f, if Has vals f then <[f := DGet vals f]> res else res)
                 (∅ : PartnerData) AddressFields).
Proof.
  split; [apply only_synced_address_part|]. split.
  - intros f v Hf. rewrite lookup_address_part.
    destruct (decide (f ∈ AddressFields)) as [Ha|]; [|done].
    exfalso. revert Hf Ha. unfold CommercialFields, AddressFields.
    rewrite !elem_of_cons, !elem_of_nil. intros [->|[->|[]]]; intuition congruence.
  - intros v. rewrite lookup_address_part.
    destruct (decide (_ ∈ AddressFields)) as [Ha|]; [|done].
    exfalso. revert Ha. unfold AddressFields.
    rewrite !elem_of_cons, !elem_of_nil. intuition congruence.
Qed.

Lemma V_fits f : fits f (V f) = true.
Proof.
  unfold V, Get. destruct (find_row t0 b); [apply fits_get_col|apply fits_zero_value].
Qed.

Lemma data_ok_writable ctx d : data_ok d → data_ok (writable ctx d).
Proof.
  intros (H1 & H2 & H3). unfold writable. destruct (HasKey _ _); [done|].
  split; [|split].
  - intros f [v Hv]. apply lookup_delete_Some in Hv as [_ Hv]. apply H1. eauto.
  - intros f v Hf Hv. apply lookup_delete_Some in Hv as [_ Hv]. eauto.
  - intros v Hv. by apply lookup_delete_Some in Hv as [? _].
Qed.

Lemma apply_data_Rc d r : data_ok d → Rc r (apply_data d r).
Proof.
  intros (H1 & H2 & H3). split; [by apply apply_data_keeps|]. split.
  - intros f Hf. rewrite get_apply_data.
    destruct (d !! f) as [v|] eqn:E; [|by left].
    rewrite (H2 f v Hf E), V_fits. by right.
  - pose proof (get_apply_data d FCommercialPartner r) as Hg. simpl in Hg.
    destruct (d !! FCommercialPartner) as [v|] eqn:E; [|left; congruence].
    rewrite (H3 v eq_refl) in Hg. simpl in Hg. right. congruence.
Qed.

Lemma SuperWrite_Rc ctx rs d t :
  data_ok d → Forall2 Rc t (SuperWrite ctx rs d t).
Proof.
  intros Hd. rewrite SuperWrite_plain by apply Hd.
  apply update_rows_Forall2; [apply _|].
  intros r _ _. by apply apply_data_Rc, data_ok_writable.
Qed.

Lemma UpdateAddress_Rc n ctx rs vals w w' :
  UpdateAddress_with (Write n) ctx rs vals w = Some w' → Rel w w'.
Proof.
  unfold UpdateAddress_with.
  destruct (_ =? _)%nat; [by intros [= <-]|].
  destruct n as [|n]; [done|].
  rewrite Write_goto_super by apply HasKey_WithContext. intros [= <-].
  apply SuperWrite_Rc, data_ok_address.
Qed.

Lemma push_safe n :
  (∀ ctx rs d w w',
     J w → data_ok d → (∀ x, x ∈ rs → InCo x) →
     Write n ctx rs d w = Some w' → Rel w w')
  ∧ (∀ ctx x vals w w',
     J w → InCo x → FieldsSync n ctx [x] vals w = Some w' → Rel w w')
  ∧ (∀ ctx x w w',
     J w → InCo x → CommercialSyncToChildren n ctx [x] w = Some w' → Rel w w').
Proof.
  induction n as [|n (IHW & IHF & IHC)]; [done|].
  split; [|split].
  - intros ctx rs d w w' HJ Hd Hrs. rewrite Write_S.
    assert (Rel w (on_rows (SuperWrite ctx rs d) w)) as H0.
    { by apply SuperWrite_Rc. }
    destruct (HasKey ctx "goto_super"); [by intros [= <-]|].
    rewrite clear_company_name_synced by apply Hd. cbv zeta. intros H.
    apply (for_each_steps _ J Rel) in H as [H _];
      [by etrans|apply _|apply _| |by eapply Rel_J].
    intros x u u' Hx Hu Hs. assert (Rel u u') as Huu.
    { eapply IHF; [exact Hu|by apply Hrs|exact Hs]. }
    split; [done|by eapply Rel_J].
  - intros ctx x vals w w' HJ Hx. rewrite FieldsSync_S.
    intros H. apply bind_Some in H as (w1 & H1 & H).
    assert (Rel w w1) as R1.
    { change (Rel (log_sync [x] w) w1).
      unfold sync_from_company, CommercialSyncFromCompany_with in H1.
      destruct (negb _); [|by injection H1 as <-].
      destruct (Equals _ _); [by injection H1 as <-|].
      eapply IHW; [exact HJ| | |exact H1].
      - by apply (data_ok_commercial (log_sync [x] w)).
      - by intros y ->%list_elem_of_singleton. }
    assert (J w1) as J1 by by eapply Rel_J.
    apply bind_Some in H as (w2 & H2 & H).
    assert (Rel w1 w2) as R2.
    { unfold sync_address_from_parent in H2.
      destruct (_ && _); [|by injection H2 as <-].
      by eapply UpdateAddress_Rc. }
    assert (J w2) as J2 by by eapply Rel_J.
    destruct (IsEmpty (Children (rows w2) [x])); [injection H as <-; by etrans|].
    apply bind_Some in H as (w3 & H3 & H).
    assert (Rel w2 w3) as R3.
    { unfold sync_to_children in H3.
      destruct (_ && _); [|by injection H3 as <-]. by eapply IHC. }
    assert (J w3) as J3 by by eapply Rel_J.
    apply bind_Some in H as (w4 & H4 & H).
    assert (Rel w3 w4) as R4.
    { unfold sync_to_new_children in H4.
      destruct (existsb _ _); [|by injection H4 as <-]. by eapply IHC. }
    assert (Rel w4 w') as R5.
    { unfold sync_address_to_children in H.
      destruct (existsb _ _); [|by injection H as <-].
      by eapply UpdateAddress_Rc. }
    etrans; [done|]. etrans; [done|]. etrans; [done|]. by etrans.
  - intros ctx x w w' HJ Hx. rewrite CommercialSyncToChildren_S. cbv zeta.
    destruct (IsEmpty _); [by intros [= <-]|].
    intros H. apply bind_Some in H as (w1 & H1 & H).
    apply (for_each_steps _ J Rel) in H1 as [R1 J1]; [|apply _|apply _| |done].
    2:{ intros c u u' Hc Hu Hs. assert (Rel u u') as Huu.
        { eapply IHC; [exact Hu| |exact Hs].
          eapply InCo_child; [exact Hx|]. by rewrite <-(J_person_children w). }
        split; [done|by eapply Rel_J]. }
    etrans; [done|].
    eapply IHW; [exact J1| | |exact H].
    + destruct (data_ok_commercial w x HJ Hx) as (D1 & D2 & D3).
      split; [|split].
      * apply only_synced_insert; [|done].
        unfold synced_fields. rewrite !elem_of_app, !elem_of_cons. auto.
      * intros f v Hf. rewrite lookup_insert_ne; [by apply D2|].
        intros <-. revert Hf. unfold CommercialFields.
        rewrite !elem_of_cons, elem_of_nil. intuition congruence.
      * intros v. rewrite lookup_insert_eq, J_CommercialPartner by done.
        by intros [= <-].
    + intros c Hc. eapply InCo_child; [exact Hx|]. by rewrite <-(J_person_children w).
Qed.

Lemma push_safe_Write n ctx rs d w w' :
  J w → data_ok d → (∀ x, x ∈ rs → InCo x) →
  Write n ctx rs d w = Some w' → Rel w w'.
Proof. apply (push_safe n). Qed.

Lemma push_safe_FieldsSync n ctx x vals w w' :
  J w → InCo x → FieldsSync n ctx [x] vals w = Some w' → Rel w w'.
Proof. apply (push_safe n). Qed.

Lemma push_safe_CommercialSyncToChildren n ctx x w w' :
  J w → InCo x → CommercialSyncToChildren n ctx [x] w = Some w' → Rel w w'.
Proof. apply (push_safe n). Qed.

Lemma SuperWrite_sets ctx rs d t x f :
  data_ok d → f ∈ CommercialFields → is_Some (d !! f) → x ∈ rs →
  is_Some (find_row t x) →
  Get (SuperWrite ctx rs d t) [x] f = V f.
Proof.
  intros Hd Hf [v Hv] Hx [r Hr]. pose proof Hd as (D1 & D2 & D3).
  rewrite SuperWrite_plain by done. unfold Get.
  rewrite find_row_update_rows, Hr. simpl.
  apply find_row_Some in Hr as [_ <-].
  rewrite bool_decide_eq_true_2 by done. rewrite get_apply_data.
  assert (writable ctx d !! f = Some v) as ->.
  { unfold writable. destruct (HasKey _ _); [done|].
    rewrite lookup_delete_ne; [done|]. intros <-. revert Hf.
    unfold CommercialFields. rewrite !elem_of_cons, elem_of_nil.
    intuition congruence. }
  by rewrite (D2 f v Hf Hv), V_fits.
Qed.

Lemma push_progress n ctx x w w' d f :
  J w → InCo x → CommercialSyncToChildren n ctx [x] w = Some w' →
  within_company t0 x d → f ∈ CommercialFields →
  Get (rows w') [d] f = V f.
Proof.
  revert ctx x w w' d. induction n as [|n IH]; [done|].
  intros ctx x w w' d HJ Hx. rewrite CommercialSyncToChildren_S. cbv zeta.
  rewrite J_person_children by done.
  destruct (IsEmpty (person_children t0 [x])) eqn:Hemp.
  { intros _ Hd. destruct (person_children t0 [x]) eqn:E; [|done].
    inversion Hd as [? Hin|? ? Hin _]; rewrite E in Hin;
      by apply elem_of_nil in Hin. }
  intros H Hd Hf. apply bind_Some in H as (w1 & H1 & H).
  assert (∀ c u u', c ∈ person_children t0 [x] → J u →
            CommercialSyncToChildren n ctx [c] u = Some u' → Rel u u' ∧ J u')
    as Hstep.
  { intros c u u' Hc Hu Hs. assert (Rel u u') as Huu.
    { eapply push_safe_CommercialSyncToChildren; [exact Hu| |exact Hs].
      by eapply InCo_child. }
    split; [done|by eapply Rel_J]. }
  destruct (for_each_steps _ J Rel _ _ _ Hstep w w1 HJ H1) as [R1 J1].
  assert (data_ok (<[FCommercialPartner:=VRef (ref_of (CommercialPartner (rows w1) [x]))]>
            (UpdateFieldValues (rows w) (CommercialPartner (rows w) [x])
               CommercialFields))) as Hdata.
  { destruct (data_ok_commercial w x HJ Hx) as (D1 & D2 & D3).
    split; [|split].
    * apply only_synced_insert; [|done].
      unfold synced_fields. rewrite !elem_of_app, !elem_of_cons. auto.
    * intros g v Hg. rewrite lookup_insert_ne; [by apply D2|].
      intros <-. revert Hg. unfold CommercialFields.
      rewrite !elem_of_cons, elem_of_nil. intuition congruence.
    * intros v. rewrite lookup_insert_eq, J_CommercialPartner by done.
      by intros [= <-]. }
  assert (∀ c, c ∈ person_children t0 [x] → InCo c) as HIc.
  { intros c Hc. by eapply InCo_child. }
  assert (is_Some ((<[FCommercialPartner:=VRef (ref_of (CommercialPartner (rows w1) [x]))]>
            (UpdateFieldValues (rows w) (CommercialPartner (rows w) [x])
               CommercialFields)) !! f)) as Hlk.
  { rewrite lookup_insert_ne.
    + rewrite lookup_UpdateFieldValues. by rewrite decide_True.
    + intros <-. revert Hf. unfold CommercialFields.
      rewrite !elem_of_cons, elem_of_nil. intuition congruence. }
  revert H Hdata Hlk.
  generalize (<[FCommercialPartner:=VRef (ref_of (CommercialPartner (rows w1) [x]))]>
            (UpdateFieldValues (rows w) (CommercialPartner (rows w) [x])
               CommercialFields)).
  intros data H Hdata Hlk.
  inversion Hd as [? Hin|c ? Hin Hcd]; subst.
  - (* a child: the write sets it *)
    destruct n as [|n]; [done|]. rewrite Write_S in H.
    assert (Get (SuperWrite (WithContext "hexya_force_compute_write" ctx)
                   (person_children t0 [x]) data (rows w1)) [d] f = V f) as Hset.
    { apply SuperWrite_sets; [exact Hdata|done|done|done|].
      apply person_children_Children, Children_find_row in Hin as [r Hr].
        destruct (find_row_Forall2 Rc t0 (rows w1) d Rc_ID J1); [done|].
        congruence. }
    destruct (HasKey _ "goto_super"); [by injection H as <-|].
    rewrite clear_company_name_synced in H by apply Hdata. cbv zeta in H.
    apply (for_each_steps _ J Rel) in H as [H _]; [|apply _|apply _| |].
    + eapply Rel_stable; [exact H|done|exact Hset].
    + intros y u u' Hy Hu Hs. assert (Rel u u') as Huu.
      { eapply push_safe_FieldsSync; [exact Hu|by apply HIc|exact Hs]. }
      split; [done|by eapply Rel_J].
    + eapply Rel_J; [|exact J1]. by apply SuperWrite_Rc.
  - (* below a child: the push from the child sets it *)
    destruct (for_each_at _ J Rel _ _ _ Hstep c w w1 Hin HJ H1)
      as (u & u' & Ju & Hu & Ru).
    assert (Get (rows u') [d] f = V f) as Hset.
    { eapply IH; [exact Ju|by apply HIc|exact Hu|done|done]. }
    assert (Rel w1 w') as R2.
    { eapply push_safe_Write; [exact J1|exact Hdata|exact HIc|exact H]. }
    eapply Rel_stable; [exact R2|done|].
    eapply Rel_stable; [exact Ru|done|exact Hset].
Qed.

Lemma Equals_singleton x : Equals [x] [x] = true.
Proof. unfold Equals. simpl. rewrite bool_decide_eq_true_2; [done|left]. Qed.

(** [FieldsSync] on [b] pushes, once it is known to return. *)
Lemma FieldsSync_push n ctx vals w w' d f :
  J w → any_nonzero t0 [b] CommercialFields = true →
  FieldsSync n ctx [b] vals w = Some w' →
  within_company t0 b d → f ∈ CommercialFields →
  Get (rows w') [d] f = V f ∧ Get (rows w') [b] f = V f.
Proof.
  intros HJ Hnz H Hd Hf.
  assert (J w') as HJ'.
  { eapply Rel_J; [|exact HJ].
    eapply push_safe_FieldsSync; [exact HJ|by left|exact H]. }
  split; [|by apply J_commercial].
  destruct n as [|n]; [done|]. rewrite FieldsSync_S in H.
  apply bind_Some in H as (w1 & H1 & H).
  assert (w1 = log_sync [b] w) as ->.
  { unfold sync_from_company, CommercialSyncFromCompany_with in H1.
    change (rows (log_sync [b] w)) with (rows w) in H1.
    rewrite J_CommercialPartner, Equals_singleton in H1 by (done || by left).
    destruct (negb _); congruence. }
  apply bind_Some in H as (w2 & H2 & H).
  assert (J w2) as J2.
  { eapply Rel_J; [|exact HJ]. change (Rel (log_sync [b] w) w2).
    unfold sync_address_from_parent in H2.
    destruct (_ && _); [|by injection H2 as <-].
    by eapply UpdateAddress_Rc. }
  assert (Children (rows w2) [b] = Children t0 [b]) as HCh.
  { by apply Children_keeps, Rc_keeps. }
  rewrite HCh in H.
  destruct (IsEmpty (Children t0 [b])) eqn:Hemp.
  { destruct (Children t0 [b]) eqn:E; [|done].
    inversion Hd as [? Hin|? ? Hin _]; apply person_children_Children in Hin;
      rewrite E in Hin; by apply elem_of_nil in Hin. }
  apply bind_Some in H as (w3 & H3 & H).
  unfold sync_to_children in H3.
  rewrite J_CommercialPartner, Equals_singleton in H3 by (done || by left).
  assert (any_nonzero (rows w2) [b] CommercialFields = true) as Hnz2.
  { rewrite <-Hnz. unfold any_nonzero, CommercialFields. cbn [existsb].
    rewrite !(J_commercial w2) by (done || unfold CommercialFields;
      rewrite !elem_of_cons; auto). done. }
  rewrite Hnz2 in H3. simpl in H3.
  assert (Get (rows w3) [d] f = V f) as Hset.
  { eapply push_progress; [exact J2|by left|exact H3|done|done]. }
  assert (J w3) as J3.
  { eapply Rel_J; [|exact J2].
    eapply push_safe_CommercialSyncToChildren; [exact J2|by left|exact H3]. }
  apply bind_Some in H as (w4 & H4 & H).
  assert (Rel w3 w4) as R4.
  { unfold sync_to_new_children in H4.
    destruct (existsb _ _); [|by injection H4 as <-].
    eapply push_safe_CommercialSyncToChildren; [exact J3|by left|exact H4]. }
  assert (Rel w4 w') as R5.
  { unfold sync_address_to_children in H.
    destruct (existsb _ _); [|by injection H as <-].
    by eapply UpdateAddress_Rc. }
  eapply Rel_stable; [exact R5|done|].
  eapply Rel_stable; [exact R4|done|exact Hset].
Qed.
End push.

Lemma FieldsSync_total hgt k n ctx rs vals w :
  ranked hgt (rows w) → (∀ i, i ∈ rs → (hgt i ≤ k)%nat) → (3 * k + 4 ≤ n)%nat →
  is_Some (FieldsSync n ctx rs vals w).
Proof. destruct (engine_total hgt k) as (_ & _ & _ & H). apply H. Qed.

Lemma Children_Parent t rs c :
  unique_ids t → c ∈ Children t rs → Parent t [c] = take 1 rs.
Proof.
  intros Hu. unfold Children. destruct rs as [|i rs]; [by intros ?%elem_of_nil|].
  intros (r & -> & Hin)%list_elem_of_fmap.
  apply list_elem_of_filter in Hin as [HP Hin].
  apply andb_prop_elim in HP as [HP _]. apply bool_decide_unpack in HP.
  unfold Parent, Get. rewrite find_row_unique by done. simpl. by rewrite HP.
Qed.

Lemma person_children_not_company t rs c :
  c ∈ person_children t rs → IsCompany t [c] = false.
Proof.
  unfold person_children. intros [H _]%list_elem_of_filter.
  by destruct (IsCompany t [c]).
Qed.

Lemma within_CommercialPartner t x d :
  cp_stored_ok t → unique_ids t → within_company t x d →
  CommercialPartner t [d] = CommercialPartner t [x].
Proof.
  intros Hok Hu.
  assert (∀ y c, c ∈ person_children t [y] →
                 CommercialPartner t [c] = CommercialPartner t [y]) as Hstep.
  { intros y c Hc. pose proof (person_children_not_company _ _ _ Hc) as Hnc.
    apply person_children_Children in Hc.
    rewrite Hok by by eapply Children_find_row.
    rewrite Compute_parent; [|done|]; by rewrite (Children_Parent t [y] c). }
  induction 1 as [x d Hd|x c d Hc _ IH]; [by apply Hstep|].
  rewrite IH. by apply Hstep.
Qed.

(** C2. After [FieldsSync] on a commercial entity [b] with some commercial
    field set, in a well-formed forest, every descendant of [b] reached
    through children that are not companies has the commercial fields of
    [b]; and [FieldsSync] returns, given fuel for the height of [b]. *)
Theorem FieldsSync_commercial_downstream
        (hgt : Z → nat) (ctx : Context) (b : Z) (vals : PartnerData)
        (w : World) (fuel : nat) :
  ranked hgt (rows w) → unique_ids (rows w) → cp_stored_ok (rows w) →
  CommercialPartner (rows w) [b] = [b] →
  any_nonzero (rows w) [b] CommercialFields = true →
  (3 * hgt b + 4 ≤ fuel)%nat →
  ∃ w', FieldsSync fuel ctx [b] vals w = Some w'
        ∧ ∀ d f, within_company (rows w) b d → f ∈ CommercialFields →
                 Get (rows w') [d] f = Get (rows w') [b] f
                 ∧ Get (rows w') [b] f = Get (rows w) [b] f.
Proof.
  intros Hr Hu Hok Hb Hnz Hfuel.
  destruct (FieldsSync_total hgt (hgt b) fuel ctx [b] vals w) as [w' Hw'];
    [done|by intros i ->%list_elem_of_singleton|done|].
  exists w'. split; [done|]. intros d f Hd Hf.
  destruct (FieldsSync_push (rows w) b) with (n := fuel) (ctx := ctx) (vals := vals)
    (w := w) (w' := w') (d := d) (f := f) as [H1 H2]; try done.
  - intros x [->|Hx]; [done|]. rewrite <-Hb. by apply within_CommercialPartner.
  - apply Forall_Forall2_diag, Forall_forall. intros r _. apply Rc_refl.
  - by rewrite H1, H2.
Qed.

(** ** The address of a contact *)

Lemma find_row_above hgt k t t' i :
  Forall2 (keeps_above hgt k) t t' → (k ≤ hgt i)%nat →
  find_row t' i = find_row t i.
Proof.
  intros Ht Hk.
  pose proof (find_row_Forall2 (keeps_above hgt k) t t' i) as H.
  destruct (find_row t i) as [r|] eqn:E.
  - specialize (H (λ r r' HR, proj1 (proj1 HR)) Ht).
    inversion H as [r0 r' [_ Hr]|]; subst.
    apply find_row_Some in E as [_ <-]. by rewrite Hr.
  - specialize (H (λ r r' HR, proj1 (proj1 HR)) Ht). by inversion H.
Qed.

Lemma Get_above hgt k t t' i rs f :
  Forall2 (keeps_above hgt k) t t' → (k ≤ hgt i)%nat →
  Get t' (i :: rs) f = Get t (i :: rs) f.
Proof. intros Ht Hk. unfold Get. by rewrite (find_row_above hgt k t t'). Qed.

Lemma Get_fits t rs f : fits f (Get t rs f) = true.
Proof.
  unfold Get. destruct rs; [apply fits_zero_value|].
  destruct (find_row _ _); [apply fits_get_col|apply fits_zero_value].
Qed.

Lemma Parent_ranked hgt t c p :
  ranked hgt t → Parent t [c] = [p] → (hgt c < hgt p)%nat.
Proof.
  intros Hr. unfold Parent, Get, as_set.
  destruct (find_row t c) as [r|] eqn:E; [|done]. simpl.
  destruct (cParent r) as [q|] eqn:Hq; [|done]. intros [= ->].
  apply find_row_Some in E as [Hin <-]. by apply Hr.
Qed.

Lemma OnchangeParent_address t c p :
  Parent t [c] = [p] → Type_ t [c] = "contact" →
  any_nonzero t [p] AddressFields = true →
  OnchangeParent t [c] = UpdateFieldValues t [p] AddressFields.
Proof.
  intros Hp Hty Hnz. unfold OnchangeParent. rewrite Hp, Hty.
  unfold any_nonzero in Hnz. by rewrite Hnz.
Qed.

(** What [UpdateAddress] writes when it is given a whole address. *)
Lemma UpdateAddress_sets n ctx c vals w w' f :
  (∀ g, g ∈ AddressFields → is_Some (vals !! g)) →
  UpdateAddress_with (Write n) ctx [c] vals w = Some w' →
  is_Some (find_row (rows w) c) → f ∈ AddressFields →
  (∀ v, vals !! f = Some v → fits f v = true) →
  Some (Get (rows w') [c] f) = vals !! f.
Proof.
  intros Hall. unfold UpdateAddress_with.
  set (res := foldl _ _ _).
  assert (∀ g, res !! g = if decide (g ∈ AddressFields) then vals !! g else None)
    as Hres by (intros g; apply lookup_address_part).
  assert (size res ≠ 0%nat) as Hsz.
  { intros Hz. apply map_size_empty_iff in Hz.
    specialize (Hres FStreet). rewrite Hz, lookup_empty in Hres.
    destruct (Hall FStreet) as [v Hv]; [unfold AddressFields; left|].
    rewrite decide_True in Hres by (unfold AddressFields; left). congruence. }
  destruct (size res =? 0)%nat eqn:E; [apply Nat.eqb_eq in E; done|].
  destruct n as [|n]; [done|].
  rewrite Write_goto_super by apply HasKey_WithContext. intros [= <-] [r Hr] Hf Hfit.
  simpl. rewrite SuperWrite_plain by apply only_synced_address_part.
  unfold Get. rewrite find_row_update_rows, Hr. simpl.
  apply find_row_Some in Hr as [_ <-].
  rewrite bool_decide_eq_true_2 by left. rewrite get_apply_data.
  assert (writable (WithContext "goto_super" ctx) res !! f = vals !! f) as ->.
  { unfold writable. destruct (HasKey _ _).
    - by rewrite Hres, decide_True.
    - rewrite lookup_delete_ne; [by rewrite Hres, decide_True|].
      intros <-. revert Hf. unfold AddressFields.
      rewrite !elem_of_cons, elem_of_nil. intuition congruence. }
  destruct (Hall f Hf) as [v Hv]. rewrite Hv. by rewrite (Hfit v Hv).
Qed.

(** [FieldsSync] on a contact whose parent has an address: the contact
    ends with the address of the parent, whatever the write gave it. *)
Lemma FieldsSync_pulls_address hgt n ctx c p vals w w' :
  ranked hgt (rows w) →
  Parent (rows w) [c] = [p] → Type_ (rows w) [c] = "contact" →
  any_nonzero (rows w) [p] AddressFields = true →
  FieldsSync n ctx [c] vals w = Some w' →
  (∀ f, f ∈ AddressFields → Get (rows w') [c] f = Get (rows w) [p] f)
  ∧ find_row (rows w') p = find_row (rows w) p.
Proof.
  intros Hr Hp Hty Hnz H.
  pose proof (Parent_ranked hgt _ _ _ Hr Hp) as Hlt.
  destruct n as [|n]; [done|]. rewrite FieldsSync_S in H.
  apply bind_Some in H as (w1 & H1 & H).
  assert (Forall2 (keeps_above hgt (S (hgt c))) (rows w) (rows w1)) as R1.
  { change (rows w) with (rows (log_sync [c] w)).
    unfold sync_from_company, CommercialSyncFromCompany_with in H1.
    destruct (negb _); [|by injection H1 as <-].
    destruct (Equals _ _); [by injection H1 as <-|].
    eapply Write_frame; [exact Hr|apply only_synced_commercial| |exact H1].
    by intros i ->%list_elem_of_singleton. }
  pose proof (keeps_above_keeps _ _ _ _ R1) as K1.
  assert (ranked hgt (rows w1)) as Hr1 by by eapply ranked_keeps.
  apply bind_Some in H as (w2 & H2 & H).
  unfold sync_address_from_parent in H2.
  rewrite (Parent_keeps (rows w) (rows w1)), (Type_keeps (rows w) (rows w1)),
    Hp, Hty in H2 by done. simpl in H2.
  assert (∀ f, Get (rows w1) [p] f = Get (rows w) [p] f) as Hp1.
  { intros f. eapply Get_above; [exact R1|lia]. }
  rewrite (OnchangeParent_address _ c p) in H2.
  2:{ by rewrite (Parent_keeps (rows w) (rows w1)). }
  2:{ by rewrite (Type_keeps (rows w) (rows w1)). }
  2:{ rewrite <-Hnz. unfold any_nonzero, AddressFields. cbn [existsb].
      by rewrite !Hp1. }
  assert (is_Some (find_row (rows w1) c)) as Hc1.
  { assert (is_Some (find_row (rows w) c)) as [r Hrw].
    { revert Hp. unfold Parent, Get. by destruct (find_row (rows w) c). }
    destruct (find_row_Forall2 keeps (rows w) (rows w1) c) as [? ? _|];
      [by intros ?? [? _]|done|done|congruence]. }
  assert (∀ f, f ∈ AddressFields → Get (rows w2) [c] f = Get (rows w) [p] f) as Hc2.
  { intros f Hf.
    pose proof (UpdateAddress_sets n ctx c
                  (UpdateFieldValues (rows w1) [p] AddressFields) w1 w2 f) as Hs.
    rewrite lookup_UpdateFieldValues, decide_True in Hs by done.
    rewrite <-Hp1. apply (inj Some). apply Hs; [|done..|].
    - intros g Hg. by rewrite lookup_UpdateFieldValues, decide_True.
    - intros v Hv. assert (v = Get (rows w1) [p] f) as -> by congruence.
      apply Get_fits. }
  assert (Forall2 (keeps_above hgt (S (hgt c))) (rows w1) (rows w2)) as R2.
  { eapply UpdateAddress_keeps_above; [|exact H2].
    intros i ->%list_elem_of_singleton. lia. }
  assert (ranked hgt (rows w2)) as Hr2.
  { eapply ranked_keeps; [|exact Hr1]. by eapply keeps_above_keeps. }
  assert (Forall2 (keeps_above hgt (hgt c)) (rows w2) (rows w')) as R3.
  { destruct (IsEmpty (Children (rows w2) [c])); [by injection H as <-|].
    apply bind_Some in H as (w3 & H3 & H).
    assert (Forall2 (keeps_above hgt (hgt c)) (rows w2) (rows w3)) as R3.
    { unfold sync_to_children in H3.
      destruct (_ && _); [|by injection H3 as <-].
      eapply CommercialSyncToChildren_frame; [exact Hr2| |exact H3].
      by intros i [= <-]. }
    assert (ranked hgt (rows w3)) as Hr3.
    { eapply ranked_keeps; [|exact Hr2]. by eapply keeps_above_keeps. }
    apply bind_Some in H as (w4 & H4 & H).
    assert (Forall2 (keeps_above hgt (hgt c)) (rows w3) (rows w4)) as R4.
    { unfold sync_to_new_children in H4.
      destruct (existsb _ _); [|by injection H4 as <-].
      eapply CommercialSyncToChildren_frame; [exact Hr3| |exact H4].
      by intros i [= <-]. }
    assert (ranked hgt (rows w4)) as Hr4.
    { eapply ranked_keeps; [|exact Hr3]. by eapply keeps_above_keeps. }
    assert (Forall2 (keeps_above hgt (hgt c)) (rows w4) (rows w')) as R5.
    { unfold sync_address_to_children in H.
      destruct (existsb _ _); [|by injection H as <-].
      eapply UpdateAddress_keeps_above; [|exact H].
      intros i Hi. apply contact_children_Children in Hi.
      destruct (Children_ranked hgt _ _ _ Hr4 Hi) as (j & [= <-] & Hj). done. }
    etrans; [exact R3|]. by etrans. }
  split.
  - intros f Hf. rewrite <-Hc2 by done. eapply Get_above; [exact R3|lia].
  - rewrite (find_row_above hgt (hgt c) (rows w2) (rows w')) by (done || lia).
    rewrite (find_row_above hgt (S (hgt c)) (rows w1) (rows w2)) by (done || lia).
    by rewrite (find_row_above hgt (S (hgt c)) (rows w) (rows w1)) by (done || lia).
Qed.

(** ** [Write] and [Create] as a whole *)

Lemma set_col_keeps f v r : f ∈ synced_fields → keeps r (set_col f v r).
Proof.
  intros Hf. split; [apply ID_set_col|]. intros g Hg. rewrite get_set_col.
  destruct (decide (f = g)) as [->|]; done.
Qed.

Lemma recompute_keeps t : Forall2 keeps t (recompute t).
Proof.
  unfold recompute. generalize (length t) as n.
  induction n as [|n IH]; simpl; [reflexivity|].
  etrans; [exact IH|]. unfold recompute_pass.
  apply Forall2_fmap_r, Forall_Forall2_diag, Forall_forall. intros r _.
  apply set_col_keeps. unfold synced_fields. rewrite !elem_of_app, !elem_of_cons. auto.
Qed.

Lemma next_id_fresh t r : r ∈ t → ID r < next_id t.
Proof.
  unfold next_id. induction t as [|x t IH]; simpl.
  - by intros ?%elem_of_nil.
  - intros [->|Hr]%elem_of_cons; [lia|]. apply IH in Hr. lia.
Qed.

Lemma find_row_new t r : ID r = next_id t → find_row (t ++ [r]) (ID r) = Some r.
Proof.
  intros Hr. unfold find_row.
  destruct (find (λ r0, ID r0 =? ID r) (t ++ [r])) as [x|] eqn:E.
  - apply find_some in E as [Hin Heq]. apply in_app_or in Hin as [Hin|Hin].
    + apply list_elem_of_In, next_id_fresh in Hin. lia.
    + destruct Hin as [->|[]]. done.
  - eapply find_none in E; [|apply in_or_app; right; left; done].
    simpl in E. lia.
Qed.

(** The row [SuperCreate] makes, seen through the getters. *)
Lemma SuperCreate_Get ctx d t c t1 f :
  SuperCreate ctx d t = ([c], t1) → f ∉ synced_fields →
  Get t1 [c] f = get_col f (apply_data (writable ctx d) (default_row c)).
Proof.
  unfold SuperCreate. intros [= <- <-] Hf.
  set (r := apply_data _ _).
  assert (ID r = next_id t) as HID by apply ID_apply_data.
  rewrite (Get_keeps (t ++ [r])) by (apply recompute_keeps || done).
  unfold Get. rewrite <-HID at 1. by rewrite find_row_new.
Qed.

Lemma HandleFirsrtContactCreation_keeps n ctx rs w w' :
  HandleFirsrtContactCreation n ctx rs w = Some w' →
  Forall2 keeps (rows w) (rows w').
Proof.
  unfold HandleFirsrtContactCreation.
  destruct (_ && _); [by intros [= <-]|].
  destruct (negb _); [by intros [= <-]|].
  destruct (_ && _); [|by intros [= <-]].
  intros H. eapply keeps_above_keeps.
  eapply (UpdateAddress_keeps_above (λ _, 0%nat) 1); [|exact H]. lia.
Qed.

Lemma HandleFirsrtContactCreation_total n ctx rs w :
  is_Some (HandleFirsrtContactCreation (S n) ctx rs w).
Proof.
  unfold HandleFirsrtContactCreation.
  destruct (_ && _); [done|]. destruct (negb _); [done|].
  destruct (_ && _); [|done]. apply UpdateAddress_total.
Qed.

(** A write that is not under [goto_super] returns on a forest, and
    changes nothing but synchronised columns after its own store. *)
Lemma Write_total_keeps hgt k fuel ctx rs vals w :
  HasKey ctx "goto_super" = false →
  ranked hgt (SuperWrite ctx rs (clear_company_name vals) (rows w)) →
  (∀ i, i ∈ rs → (hgt i ≤ k)%nat) → (3 * k + 5 ≤ fuel)%nat →
  ∃ w', Write fuel ctx rs vals w = Some w'
        ∧ Forall2 keeps (SuperWrite ctx rs (clear_company_name vals) (rows w)) (rows w').
Proof.
  intros Hctx Hr Hrs Hfuel. destruct fuel as [|n]; [lia|].
  rewrite Write_S, Hctx. cbv zeta.
  set (vals' := clear_company_name vals) in *.
  set (w1 := on_rows (SuperWrite ctx rs vals') w).
  change (SuperWrite ctx rs vals' (rows w)) with (rows w1) in *.
  destruct (for_each_total (λ partner, FieldsSync n ctx [partner] vals')
              (λ u, ranked hgt (rows u) ∧ Forall2 keeps (rows w1) (rows u)) rs)
    with (w := w1) as (w' & Hw' & _ & HK); [|done|by exists w'].
  intros x u Hx [Hu Ku].
  destruct (FieldsSync_total hgt k n ctx [x] vals' u) as [u' Hu'];
    [done|intros i ->%list_elem_of_singleton; by apply Hrs|lia|].
  exists u'. split; [done|].
  assert (Forall2 keeps (rows u) (rows u')) as Kuu.
  { eapply keeps_above_keeps, FieldsSync_frame; [exact Hu| |exact Hu'].
    intros i ->%list_elem_of_singleton. by apply Hrs. }
  split; [by eapply ranked_keeps|by etrans].
Qed.

(** C3 (amended). A contact whose parent has some address field set ends a
    write (one not under [goto_super]) or a create with the address of its
    parent in every address field: the values pulled from the parent
    overwrite those the write supplied.  Both return on a forest. *)
Theorem contact_takes_parent_address
        (hgt : Z → nat) (ctx : Context) (c p : Z) (vals : PartnerData)
        (w : World) (fuel : nat) :
  (3 * hgt c + 5 ≤ fuel)%nat →
  (HasKey ctx "goto_super" = false →
   ∀ t1, t1 = SuperWrite ctx [c] (clear_company_name vals) (rows w) →
         ranked hgt t1 → Parent t1 [c] = [p] → Type_ t1 [c] = "contact" →
         any_nonzero t1 [p] AddressFields = true →
         ∃ w', Write fuel ctx [c] vals w = Some w'
               ∧ ∀ f, f ∈ AddressFields →
                      Get (rows w') [c] f = Get (rows w') [p] f
                      ∧ Get (rows w') [p] f = Get t1 [p] f)
  ∧ (∀ t1, SuperCreate ctx (clear_company_name vals) (rows w) = ([c], t1) →
           ranked hgt t1 → Parent t1 [c] = [p] → Type_ t1 [c] = "contact" →
           any_nonzero t1 [p] AddressFields = true →
           ∃ w', Create fuel ctx vals w = Some ([c], w')
                 ∧ ∀ f, f ∈ AddressFields →
                        Get (rows w') [c] f = Get (rows w') [p] f
                        ∧ Get (rows w') [p] f = Get t1 [p] f).
Proof.
  intros Hfuel. split.
  - intros Hctx t1 -> Hr Hp Hty Hnz.
    destruct fuel as [|n]; [lia|]. rewrite Write_S, Hctx. cbv zeta.
    set (w1 := on_rows (SuperWrite ctx [c] (clear_company_name vals)) w).
    change (SuperWrite ctx [c] (clear_company_name vals) (rows w)) with (rows w1) in *.
    destruct (FieldsSync_total hgt (hgt c) n ctx [c] (clear_company_name vals) w1)
      as [w' Hw']; [done|by intros i ->%list_elem_of_singleton|lia|].
    exists w'. split; [simpl; by rewrite Hw'|].
    destruct (FieldsSync_pulls_address hgt n ctx c p _ w1 w' Hr Hp Hty Hnz Hw')
      as [Ha Hrow].
    intros f Hf. assert (Get (rows w') [p] f = Get (rows w1) [p] f) as Hpf.
    { unfold Get. by rewrite Hrow. }
    split; [|done]. rewrite Hpf. by apply Ha.
  - intros t1 Ht1 Hr Hp Hty Hnz. unfold Create. rewrite Ht1.
    set (w1 := mkWorld t1 (sync_log w)).
    destruct (FieldsSync_total hgt (hgt c) fuel ctx [c] (clear_company_name vals) w1)
      as [w2 Hw2]; [done|by intros i ->%list_elem_of_singleton|lia|].
    rewrite Hw2. cbn [mbind option_bind].
    destruct (FieldsSync_pulls_address hgt fuel ctx c p _ w1 w2 Hr Hp Hty Hnz Hw2)
      as [Ha Hrow].
    assert (∀ f, Get (rows w2) [p] f = Get t1 [p] f) as Hpf.
    { intros f. unfold Get. by rewrite Hrow. }
    assert (Forall2 keeps t1 (rows w2)) as K2.
    { change t1 with (rows w1).
      eapply keeps_above_keeps, (FieldsSync_frame hgt fuel (hgt c)); [exact Hr| |exact Hw2].
      by intros i ->%list_elem_of_singleton. }
    assert (HandleFirsrtContactCreation fuel ctx [c] w2 = Some w2) as ->.
    { unfold HandleFirsrtContactCreation.
      rewrite (Parent_keeps t1 (rows w2)), Hp by done.
      assert (any_nonzero (rows w2) [p] AddressFields = true) as ->.
      { rewrite <-Hnz. unfold any_nonzero, AddressFields. cbn [existsb].
        by rewrite !Hpf. }
      rewrite andb_false_r.
      destruct (_ && _); [done|]. by destruct (negb _). }
    exists w2. split; [done|]. intros f Hf.
    split; [|apply Hpf]. rewrite Hpf. by apply Ha.
Qed.

Lemma clear_company_name_lookup vals :
  dParent vals ≠ [] → clear_company_name vals !! FCompanyName = Some (VChar "").
Proof.
  intros Hp. unfold clear_company_name.
  destruct (dParent vals); [done|]. simpl. apply lookup_insert_eq.
Qed.

Lemma apply_data_CompanyName ctx vals r :
  dParent vals ≠ [] →
  get_col FCompanyName (apply_data (writable ctx (clear_company_name vals)) r)
  = VChar "".
Proof.
  intros Hp. rewrite get_apply_data.
  assert (writable ctx (clear_company_name vals) !! FCompanyName = Some (VChar ""))
    as ->; [|done].
  unfold writable. destruct (HasKey _ _).
  - by apply clear_company_name_lookup.
  - rewrite lookup_delete_ne by done. by apply clear_company_name_lookup.
Qed.

Lemma SuperWrite_CompanyName ctx rs vals t i :
  dParent vals ≠ [] → i ∈ rs →
  CompanyName (SuperWrite ctx rs (clear_company_name vals) t) [i] = "".
Proof.
  intros Hp Hi. unfold CompanyName, SuperWrite.
  set (t1 := update_rows _ _ _).
  assert (Get t1 [i] FCompanyName = VChar "") as Ht1.
  { unfold Get, t1. rewrite find_row_update_rows.
    destruct (find_row t i) as [r|] eqn:E; [|done]. simpl.
    apply find_row_Some in E as [_ <-].
    rewrite bool_decide_eq_true_2 by done. by apply apply_data_CompanyName. }
  destruct (_ || _).
  - rewrite (Get_keeps t1); [by rewrite Ht1|apply recompute_keeps|].
    apply not_synced_CompanyName.
  - by rewrite Ht1.
Qed.

(** C10 (amended). A create, and a write that is not under [goto_super],
    whose values give a parent end with an empty [CompanyName] on the
    records written, whatever company name the values carried.  Both
    return on a forest. *)
Theorem parent_clears_company_name
        (hgt : Z → nat) (k : nat) (ctx : Context) (vals : PartnerData)
        (w : World) (fuel : nat) :
  dParent vals ≠ [] → (3 * k + 5 ≤ fuel)%nat →
  (∀ rs, HasKey ctx "goto_super" = false →
         ranked hgt (SuperWrite ctx rs (clear_company_name vals) (rows w)) →
         (∀ i, i ∈ rs → (hgt i ≤ k)%nat) →
         ∃ w', Write fuel ctx rs vals w = Some w'
               ∧ ∀ i, i ∈ rs → CompanyName (rows w') [i] = "")
  ∧ (∀ c t1, SuperCreate ctx (clear_company_name vals) (rows w) = ([c], t1) →
             ranked hgt t1 → (hgt c ≤ k)%nat →
             ∃ w', Create fuel ctx vals w = Some ([c], w')
                   ∧ CompanyName (rows w') [c] = "").
Proof.
  intros Hp Hfuel. split.
  - intros rs Hctx Hr Hrs.
    destruct (Write_total_keeps hgt k fuel ctx rs vals w) as (w' & Hw' & HK);
      [done..|].
    exists w'. split; [done|]. intros i Hi. unfold CompanyName.
    rewrite (Get_keeps _ _ _ _ HK) by apply not_synced_CompanyName.
    by apply SuperWrite_CompanyName.
  - intros c t1 Ht1 Hr Hc. unfold Create. rewrite Ht1.
    set (w1 := mkWorld t1 (sync_log w)).
    destruct (FieldsSync_total hgt k fuel ctx [c] (clear_company_name vals) w1)
      as [w2 Hw2]; [done|by intros i ->%list_elem_of_singleton|lia|].
    rewrite Hw2. simpl.
    assert (Forall2 keeps t1 (rows w2)) as K2.
    { change t1 with (rows w1).
      eapply keeps_above_keeps, (FieldsSync_frame hgt fuel k); [exact Hr| |exact Hw2].
      by intros i ->%list_elem_of_singleton. }
    destruct fuel as [|n]; [lia|].
    destruct (HandleFirsrtContactCreation_total n ctx [c] w2) as [w3 Hw3].
    rewrite Hw3. simpl. exists w3. split; [done|].
    apply HandleFirsrtContactCreation_keeps in Hw3.
    unfold CompanyName.
    rewrite (Get_keeps _ _ _ _ Hw3), (Get_keeps _ _ _ _ K2)
      by apply not_synced_CompanyName.
    rewrite (SuperCreate_Get _ _ _ _ _ _ Ht1) by apply not_synced_CompanyName.
    by rewrite apply_data_CompanyName.
Qed.

(** ** The history of [FieldsSync] activations *)

Lemma UpdateAddress_log n ctx rs vals w w' :
  UpdateAddress_with (Write n) ctx rs vals w = Some w' → sync_log w' = sync_log w.
Proof.
  unfold UpdateAddress_with. destruct (_ =? _)%nat; [by intros [= <-]|].
  destruct n as [|n]; [done|].
  rewrite Write_goto_super by apply HasKey_WithContext. by intros [= <-].
Qed.

Global Instance log_grows_refl : Reflexive log_grows.
Proof. intros w. unfold log_grows. reflexivity. Qed.

Global Instance log_grows_trans : Transitive log_grows.
Proof. intros w1 w2 w3. unfold log_grows. by etrans. Qed.

Lemma engine_log n :
  (∀ ctx rs vals w w',
     Write n ctx rs vals w = Some w' → sync_log w `prefix_of` sync_log w')
  ∧ (∀ ctx rs vals w w',
     FieldsSync n ctx rs vals w = Some w' →
     (sync_log w ++ [rs]) `prefix_of` sync_log w')
  ∧ (∀ ctx rs w w',
     CommercialSyncToChildren n ctx rs w = Some w' →
     sync_log w `prefix_of` sync_log w').
Proof.
  induction n as [|n (IHW & IHF & IHC)]; [done|].
  assert (∀ ctx rs w w', CommercialSyncToChildren (S n) ctx rs w = Some w' →
                         sync_log w `prefix_of` sync_log w') as HC.
  { intros ctx rs w w'. rewrite CommercialSyncToChildren_S. cbv zeta.
    destruct (IsEmpty _); [by intros [= <-]|].
    intros H. apply bind_Some in H as (w1 & H1 & H).
    apply (for_each_steps _ (λ _, True) log_grows)
      in H1 as [H1 _]; [|apply _|apply _| |done].
    - etrans; [exact H1|]. by eapply IHW.
    - intros c u u' _ _ Hu. split; [|done]. by eapply IHC. }
  split; [|split]; [| |exact HC].
  - intros ctx rs vals w w'. rewrite Write_S.
    destruct (HasKey _ _); [by intros [= <-]|]. cbv zeta. intros H.
    apply (for_each_steps _ (λ _, True) log_grows)
      in H as [H _]; [done|apply _|apply _| |done].
    intros x u u' _ _ Hu. split; [|done]. unfold log_grows.
    etrans; [|by eapply IHF]. by apply prefix_app_r.
  - intros ctx rs vals w w'. rewrite FieldsSync_S.
    intros H. apply bind_Some in H as (w1 & H1 & H).
    assert (sync_log (log_sync rs w) `prefix_of` sync_log w1) as P1.
    { unfold sync_from_company, CommercialSyncFromCompany_with in H1.
      destruct (negb _); [|by injection H1 as <-].
      destruct (Equals _ _); [by injection H1 as <-|]. by eapply IHW. }
    apply bind_Some in H as (w2 & H2 & H).
    assert (sync_log w2 = sync_log w1) as P2.
    { unfold sync_address_from_parent in H2.
      destruct (_ && _); [|by injection H2 as <-]. by eapply UpdateAddress_log. }
    etrans; [exact P1|]. rewrite <-P2.
    destruct (IsEmpty _); [by injection H as <-|].
    apply bind_Some in H as (w3 & H3 & H).
    assert (sync_log w2 `prefix_of` sync_log w3) as P3.
    { unfold sync_to_children in H3.
      destruct (_ && _); [|by injection H3 as <-]. by eapply IHC. }
    apply bind_Some in H as (w4 & H4 & H).
    assert (sync_log w3 `prefix_of` sync_log w4) as P4.
    { unfold sync_to_new_children in H4.
      destruct (existsb _ _); [|by injection H4 as <-]. by eapply IHC. }
    assert (sync_log w' = sync_log w4) as P5.
    { unfold sync_address_to_children in H.
      destruct (existsb _ _); [|by injection H as <-]. by eapply UpdateAddress_log. }
    rewrite P5. etrans; [exact P3|exact P4].
Qed.

Lemma FieldsSync_logged n ctx rs vals w w' :
  FieldsSync n ctx rs vals w = Some w' →
  (sync_log w ++ [rs]) `prefix_of` sync_log w'.
Proof. apply (engine_log n). Qed.

Lemma CommercialSyncToChildren_log n ctx rs w w' :
  CommercialSyncToChildren n ctx rs w = Some w' →
  sync_log w `prefix_of` sync_log w'.
Proof. apply (engine_log n). Qed.

Lemma for_each_FieldsSync_logged n ctx vals rs w w' :
  for_each (λ partner, FieldsSync n ctx [partner] vals) rs w = Some w' →
  ∃ l, sync_log w' = sync_log w ++ l ∧ ∀ i, i ∈ rs → [i] ∈ l.
Proof.
  revert w. induction rs as [|x rs IH]; intros w; simpl.
  - intros [= <-]. exists []. split; [by rewrite app_nil_r|].
    by intros i ?%elem_of_nil.
  - intros H. apply bind_Some in H as (w1 & H1 & H).
    apply FieldsSync_logged in H1 as [l1 H1].
    apply IH in H as (l2 & H2 & Hin).
    exists ([x] :: l1 ++ l2). split.
    + rewrite H2, H1. by rewrite <-!app_assoc.
    + intros i [->|Hi]%elem_of_cons; [left|].
      right. apply elem_of_app. right. by apply Hin.
Qed.

(** A write that is not under [goto_super] runs [FieldsSync] on every
    record it writes. *)
Lemma Write_resyncs n ctx rs vals w w' :
  HasKey ctx "goto_super" = false → Write n ctx rs vals w = Some w' →
  ∃ l, sync_log w' = sync_log w ++ l ∧ ∀ i, i ∈ rs → [i] ∈ l.
Proof.
  intros Hctx. destruct n as [|n]; [done|]. rewrite Write_S, Hctx. cbv zeta.
  intros H. by apply for_each_FieldsSync_logged in H.
Qed.

Lemma HasKey_force ctx :
  HasKey (WithContext "hexya_force_compute_write" ctx) "goto_super"
  = HasKey ctx "goto_super".
Proof.
  unfold HasKey, WithContext. apply bool_decide_ext.
  rewrite elem_of_cons. split; [|by right]. by intros [?|?].
Qed.

(** C6 (amended). Of the writes the synchronisation makes, the address
    writes go through [UpdateAddress], which is under [goto_super] and
    starts no [FieldsSync].  The commercial pull and the commercial push
    go through the full [Write]: unless the caller is under [goto_super]
    already, [FieldsSync] runs again on every record they write. *)
Theorem internal_writes_and_resync :
  (∀ n ctx rs vals w w',
     UpdateAddress n ctx rs vals w = Some w' → sync_log w' = sync_log w)
  ∧ (∀ n ctx rs w w',
     HasKey ctx "goto_super" = false →
     Equals rs (CommercialPartner (rows w) rs) = false →
     CommercialSyncFromCompany n ctx rs w = Some w' →
     ∃ l, sync_log w' = sync_log w ++ l ∧ ∀ i, i ∈ rs → [i] ∈ l)
  ∧ (∀ n ctx rs w w',
     HasKey ctx "goto_super" = false →
     CommercialSyncToChildren n ctx rs w = Some w' →
     ∃ l, sync_log w' = sync_log w ++ l
          ∧ ∀ c, c ∈ person_children (rows w) rs → [c] ∈ l).
Proof.
  split; [|split].
  - intros n ctx rs vals w w'. apply UpdateAddress_log.
  - intros n ctx rs w w' Hctx Heq.
    unfold CommercialSyncFromCompany, CommercialSyncFromCompany_with.
    rewrite Heq. by apply Write_resyncs.
  - intros n ctx rs w w' Hctx. destruct n as [|n]; [done|].
    rewrite CommercialSyncToChildren_S. cbv zeta.
    destruct (person_children (rows w) rs) as [|c0 cs] eqn:E.
    { intros [= <-]. exists []. split; [by rewrite app_nil_r|].
      by intros c ?%elem_of_nil. }
    simpl IsEmpty. cbv iota. intros H. apply bind_Some in H as (w1 & H1 & H).
    apply (for_each_steps _ (λ _, True) log_grows) in H1 as [[l1 H1] _];
      [|apply _|apply _| |done].
    2:{ intros c u u' _ _ Hu. split; [|done].
        by eapply CommercialSyncToChildren_log. }
    apply Write_resyncs in H as (l2 & H2 & Hin); [|by rewrite HasKey_force].
    exists (l1 ++ l2). split; [by rewrite H2, H1, app_assoc|].
    intros c Hc. apply elem_of_app. right. by apply Hin.
Qed.

(** ** The types [AddressGet] answers *)

Lemma scan_within n t atMap toScan result visited flow :
  within_types atMap result →
  scan n t atMap toScan result visited = Some flow →
  match flow with
  | Return r => within_types atMap r ∧ size r = size atMap
  | Continue r _ => within_types atMap r
  end.
Proof.
  revert toScan result visited. induction n as [|n IH]; [done|].
  intros toScan result visited Hw. simpl.
  destruct toScan as [|record toScan]; [by intros [= <-]|].
  set (r := if _ && _ then _ else result).
  assert (within_types atMap r) as Hr.
  { unfold r. destruct (bool_decide (Type_ t record ∈ atMap)) eqn:E; [|done].
    destruct (negb _); [|done]. apply bool_decide_eq_true in E. cbn [andb].
    unfold within_types in *. rewrite dom_insert_L.
    apply union_subseteq. split; [by apply singleton_subseteq_l|done]. }
  destruct (size r =? size atMap)%nat eqn:E.
  - intros [= <-]. split; [done|]. by apply Nat.eqb_eq.
  - by apply IH.
Qed.

Lemma climb_within n t atMap current result visited flow :
  within_types atMap result →
  climb n t atMap current result visited = Some flow →
  match flow with
  | Return r => within_types atMap r ∧ size r = size atMap
  | Continue r _ => within_types atMap r
  end.
Proof.
  revert current result visited. induction n as [|n IH]; [done|].
  intros current result visited Hw. simpl.
  destruct (IsEmpty current); [by intros [= <-]|].
  destruct (scan n t atMap [current] result visited) as [[r|r v]|] eqn:E; [| |done].
  - intros [= <-]. by apply (scan_within _ _ _ _ _ _ _ Hw E).
  - pose proof (scan_within _ _ _ _ _ _ _ Hw E) as Hr.
    destruct (_ || _); [by intros [= <-]|]. by apply IH.
Qed.

Lemma seeds_within n t atMap partners result visited flow :
  within_types atMap result →
  seeds n t atMap partners result visited = Some flow →
  match flow with
  | Return r => within_types atMap r ∧ size r = size atMap
  | Continue r _ => within_types atMap r
  end.
Proof.
  revert result visited. induction partners as [|x partners IH]; simpl.
  { by intros result visited Hw [= <-]. }
  intros result visited Hw.
  destruct (climb n t atMap [x] result visited) as [[r|r v]|] eqn:E; [| |done].
  - intros [= <-]. by apply (climb_within _ _ _ _ _ _ _ Hw E).
  - pose proof (climb_within _ _ _ _ _ _ _ Hw E) as Hr. by apply IH.
Qed.

Lemma defaults_cover (def : PartnerSet) (addrTypes : list string)
      (result : gmap string PartnerSet) a :
  let filled :=
    foldl (λ result addrType,
             match result !! addrType with
             | Some _ => result
             | None => <[addrType := def]> result
             end) result addrTypes in
  (a ∈ addrTypes → is_Some (filled !! a))
  ∧ (is_Some (result !! a) → filled !! a = result !! a)
  ∧ (a ∈ addrTypes → result !! a = None → filled !! a = Some def).
Proof.
  revert result. induction addrTypes as [|x l IH]; intros result; simpl.
  { split; [by intros ?%elem_of_nil|]. split; [done|]. by intros ?%elem_of_nil. }
  set (r1 := match result !! x with Some _ => result | None => <[x:=def]> result end).
  destruct (IH r1) as (H1 & H2 & H3).
  assert (is_Some (r1 !! x)) as Hx.
  { unfold r1. destruct (result !! x) eqn:E; [by rewrite E|].
    by rewrite lookup_insert_eq. }
  assert (∀ b, is_Some (result !! b) → r1 !! b = result !! b) as Hkeep.
  { intros b Hb. unfold r1. destruct (result !! x) eqn:E; [done|].
    rewrite lookup_insert_ne; [done|]. intros ->. rewrite E in Hb. by destruct Hb. }
  split; [|split].
  - intros [->|Ha]%elem_of_cons; [|by apply H1]. by rewrite H2.
  - intros Ha. rewrite H2; [by apply Hkeep|]. by rewrite Hkeep.
  - intros Hin Hnone. destruct (decide (a = x)) as [->|Hne].
    + rewrite H2 by done. unfold r1. rewrite Hnone. apply lookup_insert_eq.
    + apply elem_of_cons in Hin as [?|Hin]; [done|]. apply H3; [done|].
      unfold r1. destruct (result !! x); [done|]. by rewrite lookup_insert_ne.
Qed.

(** What does hold of the result of [AddressGet]: every requested type has
    an entry. *)
Lemma AddressGet_requested_types n t rs addrTypes result a :
  AddressGet n t rs addrTypes = Some result → a ∈ addrTypes →
  is_Some (result !! a).
Proof.
  unfold AddressGet.
  set (atMap := {["contact"]} ∪ list_to_set addrTypes : gset string).
  destruct (seeds n t atMap rs ∅ ∅) as [[r|r v]|] eqn:E; [| |done].
  - intros [= <-] Ha.
    assert (within_types atMap ∅) as H0.
    { unfold within_types. rewrite dom_empty_L. set_solver. }
    destruct (seeds_within n t atMap rs ∅ ∅ _ H0 E) as [Hw Hsz].
    apply elem_of_dom.
    assert (dom r = atMap) as ->.
    { apply set_subseteq_size_eq; [done|]. rewrite size_dom. lia. }
    unfold atMap. set_solver.
  - intros [= <-] Ha. by apply defaults_cover.
Qed.

(** ** Checking a table by computation *)

Lemma ranked_b_ok hgt t : ranked_b hgt t = true → ranked hgt t.
Proof.
  unfold ranked_b. rewrite forallb_forall. intros H r p Hr Hp.
  apply list_elem_of_In, H in Hr. rewrite Hp in Hr. by apply Nat.ltb_lt.
Qed.

Lemma cp_stored_ok_b_ok t : cp_stored_ok_b t = true → cp_stored_ok t.
Proof.
  unfold cp_stored_ok_b. rewrite forallb_forall. intros H i [r Hr].
  apply find_row_Some in Hr as [Hr <-].
  apply list_elem_of_In, H in Hr. by apply bool_decide_eq_true in Hr.
Qed.

Lemma parents_exist_b_ok t : parents_exist_b t = true → parents_exist t.
Proof.
  unfold parents_exist_b. rewrite forallb_forall. intros H rs p.
  unfold Parent, Get, as_set. destruct rs as [|i rs]; [done|].
  destruct (find_row t i) as [r|] eqn:E; [|done]. simpl.
  destruct (cParent r) as [q|] eqn:Hq; [|done]. intros [= ->].
  apply find_row_Some in E as [Hr _].
  apply list_elem_of_In, H in Hr. rewrite Hq in Hr.
  by apply bool_decide_eq_true in Hr.
Qed.

Lemma chain_ends_b_ok n t rs : chain_ends_b n t rs = true → chain_ends t rs.
Proof.
  revert rs. induction n as [|n IH]; intros rs; simpl; [done|].
  intros [H|H]%orb_true_iff.
  - apply chain_root. by destruct (Parent t rs).
  - apply chain_step. by apply IH.
Qed.

Lemma unique_ids_ok t : bool_decide (NoDup (map ID t)) = true → unique_ids t.
Proof. apply bool_decide_eq_true. Qed.

(** ** The claims on the example data *)

Lemma ComputeCommercialPartner_rule_witness :
  ComputeCommercialPartner ex_table [3]
  = ComputeCommercialPartner ex_table (Parent ex_table [3]).
Proof.
  apply (proj2 (proj2 (ComputeCommercialPartner_rule ex_table [3]))).
  - apply cp_stored_ok_b_ok. vm_compute. reflexivity.
  - apply parents_exist_b_ok. vm_compute. reflexivity.
  - vm_compute. reflexivity.
  - vm_compute. discriminate.
Defined.

Lemma ComputeCommercialPartner_idempotent_witness :
  ComputeCommercialPartner ex_table (ComputeCommercialPartner ex_table [3])
  = ComputeCommercialPartner ex_table [3].
Proof.
  apply ComputeCommercialPartner_idempotent.
  - apply cp_stored_ok_b_ok. vm_compute. reflexivity.
  - apply parents_exist_b_ok. vm_compute. reflexivity.
  - apply (chain_ends_b_ok 3). vm_compute. reflexivity.
Defined.


Lemma FieldsSync_commercial_downstream_witness :
  ∃ w', FieldsSync 10 [] [1] ∅ ex_world = Some w'
        ∧ ∀ d f, within_company (rows ex_world) 1 d → f ∈ CommercialFields →
                 Get (rows w') [d] f = Get (rows w') [1] f
                 ∧ Get (rows w') [1] f = Get (rows ex_world) [1] f.
Proof.
  apply (FieldsSync_commercial_downstream ex_hgt).
  - apply ranked_b_ok. vm_compute. reflexivity.
  - apply unique_ids_ok. vm_compute. reflexivity.
  - apply cp_stored_ok_b_ok. vm_compute. reflexivity.
  - vm_compute. reflexivity.
  - vm_compute. reflexivity.
  - vm_compute. lia.
Defined.

(** A write on the contact that gives a street: the street of the parent
    replaces it, against the claim that the value written is kept. *)
Lemma write_supplied_street_overwritten :
  ∃ w', Write 10 [] [2] {[FStreet := VChar "new"]} ex_world = Some w'
        ∧ Get (rows ex_world) [1] FStreet = VChar "1 Main St"
        ∧ Get (rows w') [2] FStreet = VChar "1 Main St"
        ∧ Get (rows w') [2] FStreet ≠ VChar "new".
Proof.
  eexists. split; [vm_compute; reflexivity|].
  split; [vm_compute; reflexivity|].
  split; [vm_compute; reflexivity|]. vm_compute. discriminate.
Qed.

Lemma contact_takes_parent_address_witness :
  (∃ w', Write 10 [] [2] {[FStreet := VChar "new"]} ex_world = Some w'
         ∧ ∀ f, f ∈ AddressFields →
                Get (rows w') [2] f = Get (rows w') [1] f
                ∧ Get (rows w') [1] f
                  = Get (SuperWrite [] [2] (clear_company_name {[FStreet := VChar "new"]})
                                    (rows ex_world)) [1] f)
  ∧ (∃ w', Create 10 [] ex_new_contact ex_world = Some ([4], w')
           ∧ ∀ f, f ∈ AddressFields →
                  Get (rows w') [4] f = Get (rows w') [1] f
                  ∧ Get (rows w') [1] f
                    = Get (snd (SuperCreate [] (clear_company_name ex_new_contact)
                                            (rows ex_world))) [1] f).
Proof.
  split.
  - eapply (proj1 (contact_takes_parent_address ex_hgt [] 2 1
                    {[FStreet := VChar "new"]} ex_world 10%nat ltac:(vm_compute; lia))).
    + vm_compute. reflexivity.
    + reflexivity.
    + apply ranked_b_ok. vm_compute. reflexivity.
    + vm_compute. reflexivity.
    + vm_compute. reflexivity.
    + vm_compute. reflexivity.
  - eapply (proj2 (contact_takes_parent_address ex_hgt [] 4 1
                    ex_new_contact ex_world 10%nat ltac:(vm_compute; lia))).
    + vm_compute. reflexivity.
    + apply ranked_b_ok. vm_compute. reflexivity.
    + vm_compute. reflexivity.
    + vm_compute. reflexivity.
    + vm_compute. reflexivity.
Defined.

(** A write under [goto_super] that gives a parent and a company name:
    the company name is stored, against the claim that it is cleared. *)
Lemma goto_super_write_keeps_company_name :
  ∃ w', Write 10 ["goto_super"] [3] ex_reparent ex_world = Some w'
        ∧ dParent ex_reparent = [1]
        ∧ CompanyName (rows w') [3] = "Old Co".
Proof.
  eexists. split; [vm_compute; reflexivity|].
  split; vm_compute; reflexivity.
Qed.

Lemma parent_clears_company_name_witness :
  (∃ w', Write 10 [] [3] ex_reparent ex_world = Some w'
         ∧ ∀ i, i ∈ [3] → CompanyName (rows w') [i] = "")
  ∧ (∃ w', Create 10 [] ex_reparent ex_world = Some ([4], w')
           ∧ CompanyName (rows w') [4] = "").
Proof.
  assert (dParent ex_reparent ≠ []) as Hp by (vm_compute; discriminate).
  split.
  - apply (proj1 (parent_clears_company_name ex_hgt 0%nat [] ex_reparent ex_world 10%nat
                    Hp ltac:(vm_compute; lia))).
    + vm_compute. reflexivity.
    + apply ranked_b_ok. vm_compute. reflexivity.
    + intros i Hi. apply list_elem_of_singleton in Hi. subst i. vm_compute. lia.
  - eapply (proj2 (parent_clears_company_name ex_hgt 0%nat [] ex_reparent ex_world 10%nat
                    Hp ltac:(vm_compute; lia))).
    + vm_compute. reflexivity.
    + apply ranked_b_ok. vm_compute. reflexivity.
    + vm_compute. lia.
Defined.

(** The commercial push from the company and the commercial pull of the
    contact both start [FieldsSync] again on the records they write,
    against the claim that no internal write does. *)
Lemma commercial_writes_resync :
  (∃ w', CommercialSyncToChildren 10 [] [1] ex_world = Some w'
         ∧ sync_log ex_world = [] ∧ sync_log w' = [[3]; [2]])
  ∧ (∃ w', CommercialSyncFromCompany 10 [] [2] ex_world = Some w'
           ∧ sync_log w' = [[2]]).
Proof.
  split; eexists; (split; [vm_compute; reflexivity|]); [split|];
    vm_compute; reflexivity.
Qed.

Lemma internal_writes_and_resync_witness :
  (∃ l, sync_log (default ex_world (CommercialSyncToChildren 10 [] [1] ex_world))
        = sync_log ex_world ++ l
        ∧ ∀ c, c ∈ person_children (rows ex_world) [1] → [c] ∈ l).
Proof.
  apply (proj2 (proj2 internal_writes_and_resync) 10%nat [] [1] ex_world).
  - vm_compute. reflexivity.
  - vm_compute. reflexivity.
Defined.

(** C4. Asked for the invoice address of a partner that is an invoice
    address on its own, [AddressGet] returns a map without entry for
    "contact": the defaults are filled in for the requested types only. *)
Theorem AddressGet_misses_contact :
  ∃ result, AddressGet 5 [ex_invoice] [5] ["invoice"] = Some result
            ∧ result !! "invoice" = Some [5]
            ∧ result !! "contact" = None.
Proof.
  eexists. split; [vm_compute; reflexivity|]. split; vm_compute; reflexivity.
Qed.

(** The first contact created under a company without address gives it
    its address; a second contact does not. *)
Example first_contact_gives_its_address :
  ∃ w', Create 10 [] ex_first_contact (mkWorld ex_empty_office []) = Some ([2], w')
        ∧ Get (rows w') [1] FStreet = VChar "1 Main St"
        ∧ ∃ w'', Create 10 [] ex_second_contact w' = Some ([3], w'')
                 ∧ Get (rows w'') [1] FStreet = VChar "1 Main St".
Proof.
  eexists. split; [vm_compute; reflexivity|].
  split; [vm_compute; reflexivity|].
  eexists. split; vm_compute; reflexivity.
Qed.

(** C5. A contact created inactive under a company that has one active
    contact already: the company has that other child, and still takes the
    address of the new contact. *)
Theorem archived_contact_gives_its_address :
  ∃ w', Create 10 [] ex_archived_contact (mkWorld ex_office []) = Some ([3], w')
        ∧ Children ex_office [1] = [2]
        ∧ Children (rows w') [1] = [2]
        ∧ Get ex_office [1] FStreet = VChar ""
        ∧ Get (rows w') [1] FStreet = VChar "1 Main St".
Proof.
  eexists. split; [vm_compute; reflexivity|].
  repeat split; vm_compute; reflexivity.
Qed.

(** C9. [DisplayAddress] does not read its flag: with [withoutCompany] set
    the result still starts with the commercial company name. *)
Theorem DisplayAddress_ignores_flag :
  (∀ cat t rs flag,
     DisplayAddress cat t rs flag = DisplayAddress cat t rs (negb flag))
  ∧ ComputeCommercialCompanyName ex_table [2] = "ACME"
  ∧ DisplayAddress ex_catalog ex_table [2] true
    = Some ("ACME" +:+ String "010" "9 Side St" +:+ String "010" ""
            +:+ String "010" "  " +:+ String "010" "").
Proof.
  split; [done|]. split; vm_compute; reflexivity.
Qed.

(** * Further properties *)

(** ** What the methods leave alone *)

Lemma keeps_ids t t' : Forall2 keeps t t' → map ID t' = map ID t.
Proof.
  induction 1 as [|r r' t t' [HID _] _ IH]; simpl; [done|]. by rewrite HID, IH.
Qed.

Lemma Get_update_rows rs d t i f :
  Get (update_rows rs d t) [i] f
  = match find_row t i with
    | Some r => if bool_decide (i ∈ rs) then get_col f (apply_data d r)
                else get_col f r
    | None => zero_value f
    end.
Proof.
  unfold Get. rewrite find_row_update_rows.
  destruct (find_row t i) as [r|] eqn:E; [|done]. simpl.
  apply find_row_Some in E as [_ <-]. by destruct (bool_decide _).
Qed.

(** X1. On a forest [FieldsSync] returns, given fuel for the height of the
    partner; it adds and removes no record, writes no column but the
    commercial fields, the commercial partner and the address fields, and
    leaves every record ranked above the partner as it was. *)
Theorem FieldsSync_returns_on_forest
        (hgt : Z → nat) (k fuel : nat) (ctx : Context) (rs : PartnerSet)
        (vals : PartnerData) (w : World) :
  ranked hgt (rows w) → (∀ i, i ∈ rs → (hgt i ≤ k)%nat) →
  (3 * k + 4 ≤ fuel)%nat →
  ∃ w', FieldsSync fuel ctx rs vals w = Some w'
        ∧ map ID (rows w') = map ID (rows w)
        ∧ (∀ i f, f ∉ synced_fields → Get (rows w') [i] f = Get (rows w) [i] f)
        ∧ (∀ i f, (k < hgt i)%nat → Get (rows w') [i] f = Get (rows w) [i] f).
Proof.
  intros Hr Hrs Hfuel.
  destruct (FieldsSync_total hgt k fuel ctx rs vals w) as [w' Hw']; [done..|].
  pose proof (FieldsSync_frame hgt fuel k ctx rs vals w w' Hr Hrs Hw') as HF.
  pose proof (keeps_above_keeps _ _ _ _ HF) as HK.
  exists w'. split; [done|]. split; [by apply keeps_ids|]. split.
  - intros i f Hf. by apply Get_keeps.
  - intros i f Hi. eapply Get_above; [exact HF|lia].
Qed.

Lemma FieldsSync_returns_on_forest_witness :
  ∃ w', FieldsSync 7 [] [2] {[FStreet := VChar "new"]} ex_world = Some w'
        ∧ map ID (rows w') = map ID (rows ex_world)
        ∧ (∀ i f, f ∉ synced_fields →
                  Get (rows w') [i] f = Get (rows ex_world) [i] f)
        ∧ (∀ i f, (1 < ex_hgt i)%nat →
                  Get (rows w') [i] f = Get (rows ex_world) [i] f).
Proof.
  apply (FieldsSync_returns_on_forest ex_hgt 1).
  - apply ranked_b_ok. vm_compute. reflexivity.
  - intros i Hi. apply list_elem_of_singleton in Hi. subst i. vm_compute. lia.
  - vm_compute. lia.
Defined.

Lemma UpdateAddress_spec
      (n : nat) (ctx : Context) (rs : PartnerSet) (vals : PartnerData)
      (w : World) :
  ∃ w', UpdateAddress (S n) ctx rs vals w = Some w'
        ∧ sync_log w' = sync_log w
        ∧ map ID (rows w') = map ID (rows w)
        ∧ (∀ i f v, i ∈ rs → f ∈ AddressFields → vals !! f = Some v →
                    fits f v = true → is_Some (find_row (rows w) i) →
                    Get (rows w') [i] f = v)
        ∧ (∀ i f, i ∉ rs ∨ f ∉ AddressFields ∨ vals !! f = None →
                  Get (rows w') [i] f = Get (rows w) [i] f).
Proof.
  destruct (UpdateAddress_total n ctx rs vals w) as [w' Hw'].
  exists w'. split; [done|]. split; [by eapply UpdateAddress_log|].
  split.
  { apply keeps_ids. eapply keeps_above_keeps.
    eapply (UpdateAddress_keeps_above (λ _, 0%nat) 1); [|exact Hw']. lia. }
  revert Hw'. unfold UpdateAddress_with.
  set (res := foldl _ _ _).
  assert (∀ g, res !! g = if decide (g ∈ AddressFields) then vals !! g else None)
    as Hres by (intros g; apply lookup_address_part).
  destruct (size res =? 0)%nat eqn:E.
  - apply Nat.eqb_eq, map_size_empty_iff in E. intros [= <-]. split; [|done].
    intros i f v _ Hf Hv. specialize (Hres f).
    rewrite E, lookup_empty, decide_True in Hres by done. congruence.
  - rewrite Write_goto_super by apply HasKey_WithContext. intros [= <-].
    unfold on_rows. cbn [rows].
    rewrite SuperWrite_plain by apply only_synced_address_part.
    assert (∀ f, f ∈ AddressFields →
                 writable (WithContext "goto_super" ctx) res !! f = vals !! f) as Hwr.
    { intros f Hf. unfold writable. destruct (HasKey _ _).
      - by rewrite Hres, decide_True.
      - rewrite lookup_delete_ne; [by rewrite Hres, decide_True|].
        intros <-. revert Hf. unfold AddressFields.
        rewrite !elem_of_cons, elem_of_nil. intuition congruence. }
    assert (∀ f, f ∉ AddressFields →
                 writable (WithContext "goto_super" ctx) res !! f = None) as Hwn.
    { intros f Hf. unfold writable. destruct (HasKey _ _).
      - by rewrite Hres, decide_False.
      - destruct (decide (FCommercialPartner = f)) as [<-|Hne].
        + apply lookup_delete_eq.
        + rewrite lookup_delete_ne by done. by rewrite Hres, decide_False. }
    split.
    + intros i f v Hi Hf Hv Hfit [r Hr].
      rewrite Get_update_rows, Hr, bool_decide_eq_true_2 by done.
      by rewrite get_apply_data, Hwr, Hv, Hfit.
    + intros i f Hcase. rewrite Get_update_rows. unfold Get.
      destruct (find_row (rows w) i) as [r|]; [|done].
      destruct (bool_decide (i ∈ rs)) eqn:Ei; [|done].
      apply bool_decide_eq_true in Ei. rewrite get_apply_data.
      destruct (decide (f ∈ AddressFields)) as [Hf|Hf].
      * rewrite Hwr by done. destruct Hcase as [?|[?|Hn]]; [done..|]. by rewrite Hn.
      * by rewrite Hwn.
Qed.

(** X2. [UpdateAddress] returns with any fuel but none; it starts no
    [FieldsSync] and keeps the records; on the records of [rs] it stores
    the address fields that [vals] gives, and it changes nothing else: the
    other values of [vals] are discarded. *)
Theorem UpdateAddress_effect
        (n : nat) (ctx : Context) (rs : PartnerSet) (vals : PartnerData)
        (w : World) :
  ∃ w', UpdateAddress (S n) ctx rs vals w = Some w'
        ∧ sync_log w' = sync_log w
        ∧ map ID (rows w') = map ID (rows w)
        ∧ (∀ i f v, i ∈ rs → f ∈ AddressFields → vals !! f = Some v →
                    fits f v = true → is_Some (find_row (rows w) i) →
                    Get (rows w') [i] f = v)
        ∧ (∀ i f, i ∉ rs ∨ f ∉ AddressFields ∨ vals !! f = None →
                  Get (rows w') [i] f = Get (rows w) [i] f).
Proof. apply UpdateAddress_spec. Qed.

Lemma lookup_UpdateFieldValues_in t rs l f :
  f ∈ l → UpdateFieldValues t rs l !! f = Some (Get t rs f).
Proof. intros Hf. by rewrite lookup_UpdateFieldValues, decide_True. Qed.

Lemma HandleFirsrtContactCreation_cases n ctx rs w :
  HandleFirsrtContactCreation n ctx rs w
  = if first_contact_applies (rows w) rs
    then UpdateAddress n ctx (Parent (rows w) rs)
                       (UpdateFieldValues (rows w) rs AddressFields) w
    else Some w.
Proof.
  unfold HandleFirsrtContactCreation, first_contact_applies.
  destruct (IsCompany _ _), (IsEmpty (Parent _ (Parent _ _))); simpl;
    try done;
    destruct (length _ =? 1)%nat; simpl; try done;
    destruct (any_nonzero _ rs _); simpl; try done;
    by destruct (any_nonzero _ _ _).
Qed.

(** X3. [HandleFirsrtContactCreation] returns with any fuel but none and
    starts no [FieldsSync].  When none of its early returns is taken, the
    record has an address and the parent has none, the parent takes the six
    address fields of the record and nothing else changes; in every other
    case, so whenever the parent has an address already, nothing changes. *)
Theorem HandleFirsrtContactCreation_effect
        (n : nat) (ctx : Context) (rs : PartnerSet) (w : World) :
  ∃ w', HandleFirsrtContactCreation (S n) ctx rs w = Some w'
        ∧ sync_log w' = sync_log w
        ∧ if first_contact_applies (rows w) rs
          then (∀ p f, Parent (rows w) rs = [p] → is_Some (find_row (rows w) p) →
                       f ∈ AddressFields →
                       Get (rows w') [p] f = Get (rows w) rs f)
               ∧ (∀ i f, [i] ≠ Parent (rows w) rs ∨ f ∉ AddressFields →
                         Get (rows w') [i] f = Get (rows w) [i] f)
          else w' = w.
Proof.
  rewrite HandleFirsrtContactCreation_cases.
  destruct (first_contact_applies (rows w) rs); [|by exists w].
  destruct (UpdateAddress_spec n ctx (Parent (rows w) rs)
              (UpdateFieldValues (rows w) rs AddressFields) w)
    as (w' & Hw' & Hlog & _ & Hset & Hrest).
  exists w'. split; [exact Hw'|]. split; [exact Hlog|]. split.
  - intros p f Hp Hrow Hf. apply Hset; [rewrite Hp; left|done| |apply Get_fits|done].
    by apply lookup_UpdateFieldValues_in.
  - intros i f [Hi|Hf]; apply Hrest; [|by right; left].
    left. intros Hin. apply Hi.
    destruct (Parent_cases (rows w) rs) as [E|[q E]]; rewrite E in *.
    + by apply elem_of_nil in Hin.
    + apply list_elem_of_singleton in Hin. by subst.
Qed.

(** ** The reach of the commercial push *)

Lemma keeps_sym r r' : keeps r r' → keeps r' r.
Proof. intros [H1 H2]. split; [done|]. intros f Hf. by rewrite H2. Qed.

Lemma Forall2_keeps_sym t t' : Forall2 keeps t t' → Forall2 keeps t' t.
Proof.
  intros H. apply Forall2_flip. eapply Forall2_impl; [exact H|].
  intros r r'. apply keeps_sym.
Qed.

Lemma within_company_keeps_iff t t' b d :
  Forall2 keeps t t' → within_company t' b d ↔ within_company t b d.
Proof.
  intros H. split; apply within_company_keeps; [by apply Forall2_keeps_sym|done].
Qed.

Global Instance touches_refl P : Reflexive (touches P).
Proof. by intros r. Qed.

Global Instance touches_trans P : Transitive (touches P).
Proof.
  intros r1 r2 r3 [K1 H1] [K2 H2]. split; [by etrans|].
  intros HP. rewrite H2, H1; [done..|]. destruct K1 as [-> _]. done.
Qed.

Lemma touches_mono (P Q : Z → Prop) t t' :
  (∀ i, P i → Q i) → Forall2 (touches P) t t' → Forall2 (touches Q) t t'.
Proof.
  intros HPQ H. eapply Forall2_impl; [exact H|].
  intros r r' [K HP]. split; [done|]. intros HQ. apply HP. intros ?. by apply HQ, HPQ.
Qed.

Lemma touches_keeps P t t' : Forall2 (touches P) t t' → Forall2 keeps t t'.
Proof. intros H. eapply Forall2_impl; [exact H|]. by intros r r' [? _]. Qed.

Lemma touches_find_row P t t' i :
  Forall2 (touches P) t t' → ¬ P i → find_row t' i = find_row t i.
Proof.
  intros Ht HP.
  pose proof (find_row_Forall2 (touches P) t t' i (λ r r' HR, proj1 (proj1 HR)) Ht)
    as H.
  destruct (find_row t i) as [r|] eqn:E.
  - inversion H as [r0 r' [_ Hr]|]; subst.
    apply find_row_Some in E as [_ <-]. by rewrite Hr.
  - by inversion H.
Qed.

Lemma SuperWrite_touches ctx rs d t :
  only_synced d → Forall2 (touches (λ i, i ∈ rs)) t (SuperWrite ctx rs d t).
Proof.
  intros Hd. rewrite SuperWrite_plain by done.
  apply update_rows_Forall2; [apply _|].
  intros r _ Hr. split; [by apply apply_data_keeps, only_synced_writable|]. done.
Qed.

Lemma UpdateAddress_touches n ctx rs vals w w' :
  UpdateAddress_with (Write n) ctx rs vals w = Some w' →
  Forall2 (touches (λ i, i ∈ rs)) (rows w) (rows w').
Proof.
  unfold UpdateAddress_with. destruct (_ =? _)%nat; [by intros [= <-]|].
  destruct n as [|n]; [done|].
  rewrite Write_goto_super by apply HasKey_WithContext. intros [= <-].
  apply SuperWrite_touches, only_synced_address_part.
Qed.

Lemma commercial_only_synced d : commercial_only d → only_synced d.
Proof.
  intros Hd f Hf. destruct (Hd f Hf) as [?| ->].
  - by apply CommercialFields_synced.
  - unfold synced_fields. rewrite !elem_of_app, !elem_of_cons. auto.
Qed.

Lemma commercial_only_no_address d :
  commercial_only d → existsb (Has d) AddressFields = false.
Proof.
  intros Hd. apply not_true_is_false. intros H.
  apply existsb_exists in H as (f & Hf & HH). apply list_elem_of_In in Hf.
  apply bool_decide_eq_true in HH. revert Hf.
  destruct (Hd f HH) as [Hc| ->]; [revert Hc|];
    unfold CommercialFields, AddressFields;
    rewrite !elem_of_cons, !elem_of_nil; intuition congruence.
Qed.

Lemma commercial_only_push t rs v :
  commercial_only (<[FCommercialPartner := v]> (UpdateFieldValues t rs CommercialFields)).
Proof.
  intros f [x Hx]. destruct (decide (FCommercialPartner = f)) as [<-|Hne]; [by right|].
  rewrite lookup_insert_ne, lookup_UpdateFieldValues in Hx by done.
  destruct (decide (f ∈ CommercialFields)); [by left|done].
Qed.

Lemma push_reach n :
  (∀ ctx rs d w w',
     commercial_only d → Write n ctx rs d w = Some w' →
     Forall2 (touches (λ i, i ∈ rs ∨ ∃ y, y ∈ rs ∧ within_company (rows w) y i))
             (rows w) (rows w'))
  ∧ (∀ ctx y d w w',
     commercial_only d → FieldsSync n ctx [y] d w = Some w' →
     Forall2 (touches (λ i, i = y ∨ within_company (rows w) y i)) (rows w) (rows w'))
  ∧ (∀ ctx x w w',
     CommercialSyncToChildren n ctx [x] w = Some w' →
     Forall2 (touches (within_company (rows w) x)) (rows w) (rows w')).
Proof.
  induction n as [|n (IHW & IHF & IHC)]; [done|].
  assert (∀ ctx x w w',
    CommercialSyncToChildren (S n) ctx [x] w = Some w' →
    Forall2 (touches (within_company (rows w) x)) (rows w) (rows w')) as HC.
  { intros ctx x w w'. rewrite CommercialSyncToChildren_S. cbv zeta.
    destruct (IsEmpty _); [by intros [= <-]|].
    intros H. apply bind_Some in H as (w1 & H1 & H).
    apply (for_each_steps _ (λ u, Forall2 keeps (rows w) (rows u))
             (λ u u', Forall2 (touches (within_company (rows w) x)) (rows u) (rows u')))
      in H1 as [R1 K1]; [| | | |reflexivity].
    - etrans; [exact R1|].
      eapply touches_mono; [|eapply IHW; [apply commercial_only_push|exact H]].
      intros i [Hi|(y & Hy & Hi)]; simpl in *.
      + by apply within_child.
      + eapply within_below; [exact Hy|]. by apply (within_company_keeps_iff (rows w) (rows w1)).
    - intros u. reflexivity.
    - intros u1 u2 u3 ??. by etrans.
    - intros c u u' Hc Hu Hs.
      assert (Forall2 (touches (within_company (rows w) x)) (rows u) (rows u')) as Huu.
      { eapply touches_mono; [|by eapply IHC].
        intros i Hi. eapply within_below; [exact Hc|].
        by apply (within_company_keeps_iff (rows w) (rows u)). }
      split; [done|]. etrans; [exact Hu|]. by eapply touches_keeps. }
  assert (∀ ctx y d w w',
    commercial_only d → FieldsSync (S n) ctx [y] d w = Some w' →
    Forall2 (touches (λ i, i = y ∨ within_company (rows w) y i)) (rows w) (rows w'))
    as HF.
  { intros ctx y d w w' Hd. rewrite FieldsSync_S.
    intros H. apply bind_Some in H as (w1 & H1 & H).
    assert (w1 = log_sync [y] w) as ->.
    { unfold sync_from_company in H1.
      rewrite only_synced_dParent in H1 by by apply commercial_only_synced.
      by injection H1. }
    apply bind_Some in H as (w2 & H2 & H).
    assert (Forall2 (touches (λ i, i = y ∨ within_company (rows w) y i))
                    (rows w) (rows w2)) as R2.
    { change (rows w) with (rows (log_sync [y] w)) at 2.
      unfold sync_address_from_parent in H2.
      destruct (_ && _); [|by injection H2 as <-].
      eapply touches_mono; [|by eapply UpdateAddress_touches].
      intros i Hi%list_elem_of_singleton. by left. }
    pose proof (touches_keeps _ _ _ R2) as K2.
    etrans; [exact R2|].
    destruct (IsEmpty _); [by injection H as <-|].
    apply bind_Some in H as (w3 & H3 & H).
    assert (Forall2 (touches (λ i, i = y ∨ within_company (rows w) y i))
                    (rows w2) (rows w3)) as R3.
    { unfold sync_to_children in H3.
      destruct (_ && _); [|by injection H3 as <-].
      eapply touches_mono; [|by eapply IHC].
      intros i Hi. right. by apply (within_company_keeps_iff (rows w) (rows w2)). }
    pose proof (touches_keeps _ _ _ R3) as K3.
    apply bind_Some in H as (w4 & H4 & H).
    assert (Forall2 (touches (λ i, i = y ∨ within_company (rows w) y i))
                    (rows w3) (rows w4)) as R4.
    { unfold sync_to_new_children in H4.
      destruct (existsb _ _); [|by injection H4 as <-].
      eapply touches_mono; [|by eapply IHC].
      intros i Hi. right.
      apply (within_company_keeps_iff (rows w) (rows w3)); [by etrans|done]. }
    unfold sync_address_to_children in H.
    rewrite commercial_only_no_address in H by done. injection H as <-.
    by etrans. }
  split; [|split]; [|exact HF|exact HC].
  intros ctx rs d w w' Hd. rewrite Write_S.
  assert (Forall2 (touches (λ i, i ∈ rs ∨ ∃ y, y ∈ rs ∧ within_company (rows w) y i))
                  (rows w) (rows (on_rows (SuperWrite ctx rs d) w))) as R0.
  { eapply touches_mono; [|by apply SuperWrite_touches, commercial_only_synced].
    intros i Hi. by left. }
  destruct (HasKey _ _); [by intros [= <-]|].
  rewrite clear_company_name_synced by by apply commercial_only_synced. cbv zeta.
  intros H.
  apply (for_each_steps _ (λ u, Forall2 keeps (rows w) (rows u))
           (λ u u', Forall2 (touches (λ i, i ∈ rs ∨ ∃ y, y ∈ rs ∧
                                            within_company (rows w) y i))
                            (rows u) (rows u')))
    in H as [R1 _]; [by etrans| | | |by eapply touches_keeps].
  - intros u. reflexivity.
  - intros u1 u2 u3 ??. by etrans.
  - intros x u u' Hx Hu Hs.
    assert (Forall2 (touches (λ i, i ∈ rs ∨ ∃ y, y ∈ rs ∧ within_company (rows w) y i))
                    (rows u) (rows u')) as Huu.
    { eapply touches_mono; [|by eapply IHF].
      intros i [->|Hi]; [by left|]. right. exists x. split; [done|].
      by apply (within_company_keeps_iff (rows w) (rows u)). }
    split; [done|]. etrans; [exact Hu|]. by eapply touches_keeps.
Qed.

Lemma within_ranked hgt t b d :
  ranked hgt t → within_company t b d → (hgt d < hgt b)%nat.
Proof.
  intros Hr. induction 1 as [b d Hd|b c d Hc _ IH].
  - apply person_children_Children in Hd.
    by destruct (Children_ranked hgt t [b] d Hr Hd) as (i & [= <-] & ?).
  - apply person_children_Children in Hc.
    destruct (Children_ranked hgt t [b] c Hr Hc) as (i & [= <-] & ?). lia.
Qed.

(** X4. On a forest [CommercialSyncToChildren] returns, and it reaches only
    the records found from the partner through children that are not
    companies: the partner itself, its company children and what lies under
    them, and every record elsewhere keep their rows as they are. *)
Theorem CommercialSyncToChildren_stays_within
        (hgt : Z → nat) (fuel : nat) (ctx : Context) (x : Z) (w : World) :
  ranked hgt (rows w) → (3 * hgt x + 1 ≤ fuel)%nat →
  ∃ w', CommercialSyncToChildren fuel ctx [x] w = Some w'
        ∧ find_row (rows w') x = find_row (rows w) x
        ∧ ∀ i, ¬ within_company (rows w) x i →
               find_row (rows w') i = find_row (rows w) i.
Proof.
  intros Hr Hfuel.
  destruct (engine_total hgt (hgt x)) as (HT & _).
  destruct (HT fuel ctx [x] w) as [w' Hw']; [done|by intros i [= <-]|done|].
  exists w'. split; [done|].
  destruct (push_reach fuel) as (_ & _ & HC). apply HC in Hw'.
  split.
  - apply (touches_find_row _ _ _ _ Hw'). intros Hx%(within_ranked hgt); [lia|done].
  - intros i Hi. by apply (touches_find_row _ _ _ _ Hw').
Qed.

Lemma CommercialSyncToChildren_stays_within_witness :
  ∃ w', CommercialSyncToChildren 7 [] [1] ex_world = Some w'
        ∧ find_row (rows w') 1 = find_row (rows ex_world) 1
        ∧ ∀ i, ¬ within_company (rows ex_world) 1 i →
               find_row (rows w') i = find_row (rows ex_world) i.
Proof.
  apply (CommercialSyncToChildren_stays_within ex_hgt).
  - apply ranked_b_ok. vm_compute. reflexivity.
  - vm_compute. lia.
Defined.

(** ** The address pushed to the contacts *)

Lemma FieldsSync_address_tail n ctx p vals w w' :
  FieldsSync n ctx [p] vals w = Some w' →
  ∀ d f v, d ∈ contact_children (rows w') [p] → f ∈ AddressFields →
           vals !! f = Some v → fits f v = true → Get (rows w') [d] f = v.
Proof.
  destruct n as [|n]; [done|]. rewrite FieldsSync_S. intros H d f v Hd Hf Hv Hfit.
  apply bind_Some in H as (w1 & _ & H). apply bind_Some in H as (w2 & _ & H).
  destruct (Children (rows w2) [p]) as [|c cs] eqn:Hch; cbn [IsEmpty] in H.
  { injection H as <-. apply contact_children_Children in Hd.
    rewrite Hch in Hd. by apply elem_of_nil in Hd. }
  apply bind_Some in H as (w3 & _ & H). apply bind_Some in H as (w4 & _ & H).
  unfold sync_address_to_children in H.
  assert (existsb (Has vals) AddressFields = true) as HE.
  { apply existsb_exists. exists f. split; [by apply list_elem_of_In|].
    apply bool_decide_eq_true. by rewrite Hv. }
  rewrite HE in H.
  destruct n as [|n].
  { revert H. unfold UpdateAddress_with. set (res := foldl _ _ _).
    assert (res !! f = Some v) as Hres.
    { unfold res. by rewrite lookup_address_part, decide_True. }
    destruct (size res =? 0)%nat eqn:E; [|done].
    apply Nat.eqb_eq, map_size_empty_iff in E. by rewrite E, lookup_empty in Hres. }
  destruct (UpdateAddress_spec n ctx (contact_children (rows w4) [p]) vals w4)
    as (w5 & H5 & _ & _ & Hset & _).
  unfold UpdateAddress in H5. rewrite H in H5. injection H5 as <-.
  assert (Forall2 keeps (rows w4) (rows w')) as K.
  { eapply touches_keeps, UpdateAddress_touches, H. }
  rewrite (contact_children_keeps (rows w4) (rows w')) in Hd by done.
  apply Hset; [done..|].
  by eapply Children_find_row, contact_children_Children.
Qed.

Lemma lookup_clear_company_name vals f :
  f ≠ FCompanyName → clear_company_name vals !! f = vals !! f.
Proof.
  intros Hf. unfold clear_company_name. destruct (negb _); [|done].
  by rewrite lookup_insert_ne.
Qed.

(** X5. A write of address fields on a partner (not under [goto_super])
    returns on a forest and leaves every active child of type contact with
    the written value in each address field the write carries. *)
Theorem Write_pushes_address
        (hgt : Z → nat) (ctx : Context) (p : Z) (vals : PartnerData)
        (w : World) (fuel : nat) :
  HasKey ctx "goto_super" = false →
  ranked hgt (SuperWrite ctx [p] (clear_company_name vals) (rows w)) →
  (3 * hgt p + 5 ≤ fuel)%nat →
  ∃ w', Write fuel ctx [p] vals w = Some w'
        ∧ ∀ d f v, d ∈ contact_children (rows w') [p] → f ∈ AddressFields →
                   vals !! f = Some v → fits f v = true →
                   Get (rows w') [d] f = v.
Proof.
  intros Hctx Hr Hfuel. destruct fuel as [|n]; [lia|].
  rewrite Write_S, Hctx. cbv zeta.
  set (w1 := on_rows (SuperWrite ctx [p] (clear_company_name vals)) w).
  destruct (FieldsSync_total hgt (hgt p) n ctx [p] (clear_company_name vals) w1)
    as [w' Hw']; [done|by intros i ->%list_elem_of_singleton|lia|].
  exists w'. split; [simpl; by rewrite Hw'|].
  intros d f v Hd Hf Hv Hfit.
  eapply FieldsSync_address_tail; [exact Hw'|done..| |done].
  rewrite lookup_clear_company_name; [done|].
  intros ->. revert Hf. unfold AddressFields.
  rewrite !elem_of_cons, elem_of_nil. intuition congruence.
Qed.

Lemma Write_pushes_address_witness :
  ∃ w', Write 11 [] [1] {[FCity := VChar "Lyon"]} ex_world = Some w'
        ∧ ∀ d f v, d ∈ contact_children (rows w') [1] → f ∈ AddressFields →
                   ({[FCity := VChar "Lyon"]} : PartnerData) !! f = Some v →
                   fits f v = true → Get (rows w') [d] f = v.
Proof.
  apply (Write_pushes_address ex_hgt).
  - vm_compute. reflexivity.
  - apply ranked_b_ok. vm_compute. reflexivity.
  - vm_compute. lia.
Defined.

(** ** The commercial fields pulled from the company *)

Lemma UpdateAddress_rest n ctx rs vals w w' :
  UpdateAddress_with (Write n) ctx rs vals w = Some w' →
  ∀ i f, i ∉ rs ∨ f ∉ AddressFields → Get (rows w') [i] f = Get (rows w) [i] f.
Proof.
  intros H i f Hif. destruct n as [|n].
  - revert H. unfold UpdateAddress_with. destruct (_ =? _)%nat; [by intros [= <-]|done].
  - destruct (UpdateAddress_spec n ctx rs vals w) as (w'' & H1 & _ & _ & _ & Hrest).
    unfold UpdateAddress in H1. rewrite H in H1. injection H1 as <-.
    apply Hrest. tauto.
Qed.

Lemma not_own_child hgt t c : ranked hgt t → c ∉ Children t [c].
Proof.
  intros Hr Hc. destruct (Children_ranked hgt t [c] c Hr Hc) as (i & [= <-] & ?). lia.
Qed.

Lemma push_own hgt n ctx c w w' :
  ranked hgt (rows w) → CommercialSyncToChildren n ctx [c] w = Some w' →
  find_row (rows w') c = find_row (rows w) c ∧ Forall2 keeps (rows w) (rows w').
Proof.
  intros Hr H. destruct (push_reach n) as (_ & _ & HC). apply HC in H.
  split; [|by eapply touches_keeps].
  apply (touches_find_row _ _ _ _ H). intros Hx%(within_ranked hgt); [lia|done].
Qed.

(** The steps of [FieldsSync] after the first change, on the record itself,
    address columns only. *)
Lemma sync_tail_own hgt n ctx c vals w1 w' :
  ranked hgt (rows w1) →
  (w ← sync_address_from_parent (Write n) ctx [c] w1;
   if IsEmpty (Children (rows w) [c]) then Some w
   else
     w ← sync_to_children (CommercialSyncToChildren n) ctx [c] w;
     w ← sync_to_new_children (CommercialSyncToChildren n) ctx [c] w;
     sync_address_to_children (Write n) ctx [c] vals w) = Some w' →
  ∀ f, f ∉ AddressFields → Get (rows w') [c] f = Get (rows w1) [c] f.
Proof.
  intros Hr H f Hf.
  apply bind_Some in H as (w2 & H2 & H).
  assert (Get (rows w2) [c] f = Get (rows w1) [c] f
          ∧ Forall2 keeps (rows w1) (rows w2)) as [G2 K2].
  { unfold sync_address_from_parent in H2.
    destruct (_ && _); [|by injection H2 as <-].
    split; [eapply UpdateAddress_rest; [done|by right]|].
    by eapply touches_keeps, UpdateAddress_touches. }
  rewrite <-G2. pose proof (ranked_keeps _ _ _ K2 Hr) as R2.
  destruct (IsEmpty _); [by injection H as <-|].
  apply bind_Some in H as (w3 & H3 & H).
  assert (Get (rows w3) [c] f = Get (rows w2) [c] f
          ∧ Forall2 keeps (rows w2) (rows w3)) as [G3 K3].
  { unfold sync_to_children in H3.
    destruct (_ && _); [|by injection H3 as <-].
    destruct (push_own hgt n ctx c w2 w3 R2 H3) as [E K].
    split; [|done]. unfold Get. by rewrite E. }
  rewrite <-G3. pose proof (ranked_keeps _ _ _ K3 R2) as R3.
  apply bind_Some in H as (w4 & H4 & H).
  assert (Get (rows w4) [c] f = Get (rows w3) [c] f
          ∧ Forall2 keeps (rows w3) (rows w4)) as [G4 K4].
  { unfold sync_to_new_children in H4.
    destruct (existsb _ _); [|by injection H4 as <-].
    destruct (push_own hgt n ctx c w3 w4 R3 H4) as [E K].
    split; [|done]. unfold Get. by rewrite E. }
  rewrite <-G4. pose proof (ranked_keeps _ _ _ K4 R3) as R4.
  unfold sync_address_to_children in H.
  destruct (existsb _ _); [|by injection H as <-].
  eapply UpdateAddress_rest; [done|]. left.
  intros Hc%contact_children_Children. by eapply not_own_child.
Qed.

(** Without a parent among the values, [FieldsSync] changes address
    columns only on the record it is called on. *)
Lemma FieldsSync_own hgt n ctx c vals w w' :
  ranked hgt (rows w) → dParent vals = [] →
  FieldsSync n ctx [c] vals w = Some w' →
  ∀ f, f ∉ AddressFields → Get (rows w') [c] f = Get (rows w) [c] f.
Proof.
  intros Hr Hd. destruct n as [|n]; [done|]. rewrite FieldsSync_S. intros H.
  apply bind_Some in H as (w1 & H1 & H).
  unfold sync_from_company in H1. rewrite Hd in H1. injection H1 as <-.
  intros f Hf. by apply (sync_tail_own hgt n ctx c vals (log_sync [c] w) w' Hr H).
Qed.

Lemma SuperWrite_sets_own ctx c d t f v :
  only_synced d → is_Some (find_row t c) → d !! f = Some v →
  f ≠ FCommercialPartner → fits f v = true →
  Get (SuperWrite ctx [c] d t) [c] f = v.
Proof.
  intros Hd [r Hr] Hv Hf Hfit. rewrite SuperWrite_plain, Get_update_rows, Hr by done.
  rewrite bool_decide_eq_true_2 by left. rewrite get_apply_data.
  assert (writable ctx d !! f = Some v) as ->.
  { unfold writable. destruct (HasKey _ _); [done|]. by rewrite lookup_delete_ne. }
  by rewrite Hfit.
Qed.

Lemma not_address_commercial f : f ∈ CommercialFields → f ∉ AddressFields.
Proof.
  unfold CommercialFields, AddressFields.
  rewrite !elem_of_cons, !elem_of_nil. intuition congruence.
Qed.

Lemma FieldsSync_pulls_commercial hgt n ctx c cp vals w w' :
  ranked hgt (rows w) → dParent vals ≠ [] →
  CommercialPartner (rows w) [c] = [cp] → c ≠ cp →
  FieldsSync n ctx [c] vals w = Some w' →
  ∀ f, f ∈ CommercialFields → Get (rows w') [c] f = Get (rows w) [cp] f.
Proof.
  intros Hr Hd Hcp Hne. destruct n as [|n]; [done|]. rewrite FieldsSync_S. intros H.
  apply bind_Some in H as (w1 & H1 & H).
  unfold sync_from_company in H1.
  destruct (dParent vals) as [|q qs] eqn:Eq; [done|]. cbn [IsEmpty negb] in H1.
  unfold CommercialSyncFromCompany_with in H1. cbn [rows log_sync] in H1.
  rewrite Hcp in H1.
  assert (Equals [c] [cp] = false) as HE.
  { unfold Equals. cbn [length forallb]. rewrite bool_decide_eq_false_2; [done|].
    intros ?%list_elem_of_singleton. by apply Hne. }
  rewrite HE in H1.
  set (data := UpdateFieldValues (rows w) [cp] CommercialFields) in H1.
  assert (only_synced data) as Hdata by apply only_synced_commercial.
  assert (is_Some (find_row (rows w) c)) as Hc.
  { revert Hcp. unfold CommercialPartner, Get. by destruct (find_row _ _). }
  assert (Forall2 keeps (rows w) (SuperWrite ctx [c] data (rows w))) as K0.
  { eapply touches_keeps. by apply SuperWrite_touches. }
  assert ((∀ f, f ∈ CommercialFields → Get (rows w1) [c] f = Get (rows w) [cp] f)
          ∧ Forall2 keeps (rows w) (rows w1)) as [G1 K1].
  { destruct n as [|m]; [done|]. rewrite Write_S in H1.
    assert (∀ f, f ∈ CommercialFields →
                 Get (SuperWrite ctx [c] data (rows w)) [c] f = Get (rows w) [cp] f) as G0.
    { intros f Hf. apply SuperWrite_sets_own; [done..| | |apply Get_fits].
      - by apply lookup_UpdateFieldValues_in.
      - intros ->. revert Hf. unfold CommercialFields.
        rewrite !elem_of_cons, elem_of_nil. intuition congruence. }
    destruct (HasKey ctx "goto_super").
    { injection H1 as <-. by split. }
    rewrite clear_company_name_synced in H1 by done. cbv zeta in H1.
    cbn [for_each] in H1. apply bind_Some in H1 as (w0 & HF & [= <-]).
    split.
    - intros f Hf. rewrite <-G0 by done.
      change (SuperWrite ctx [c] data (rows w))
        with (rows (on_rows (SuperWrite ctx [c] data) (log_sync [c] w))).
      eapply (FieldsSync_own hgt m ctx c data); [|by apply only_synced_dParent|done|].
      + unfold on_rows; cbn [rows]. by eapply ranked_keeps.
      + by apply not_address_commercial.
    - etrans; [exact K0|]. eapply keeps_above_keeps.
      change (SuperWrite ctx [c] data (rows w))
        with (rows (on_rows (SuperWrite ctx [c] data) (log_sync [c] w))).
      eapply (FieldsSync_frame hgt m (hgt c) ctx [c]);
        [|by intros i ->%list_elem_of_singleton|exact HF].
      unfold on_rows; cbn [rows]. by eapply ranked_keeps. }
  intros f Hf. rewrite <-G1 by done.
  eapply sync_tail_own; [|exact H|by apply not_address_commercial].
  by eapply ranked_keeps.
Qed.

Lemma dParent_clear_company_name vals :
  dParent (clear_company_name vals) = dParent vals.
Proof. unfold dParent, DGet. by rewrite lookup_clear_company_name. Qed.

(** X6. A write that gives a partner a parent (not under [goto_super])
    returns on a forest and leaves the partner with the commercial fields of
    its commercial partner, whose own row the write does not touch. *)
Theorem Write_pulls_commercial
        (hgt : Z → nat) (ctx : Context) (c cp : Z) (vals : PartnerData)
        (w : World) (fuel : nat) :
  HasKey ctx "goto_super" = false → dParent vals ≠ [] →
  ranked hgt (SuperWrite ctx [c] (clear_company_name vals) (rows w)) →
  CommercialPartner (SuperWrite ctx [c] (clear_company_name vals) (rows w)) [c] = [cp] →
  (hgt c < hgt cp)%nat → (3 * hgt c + 5 ≤ fuel)%nat →
  ∃ w', Write fuel ctx [c] vals w = Some w'
        ∧ find_row (rows w') cp
          = find_row (SuperWrite ctx [c] (clear_company_name vals) (rows w)) cp
        ∧ ∀ f, f ∈ CommercialFields → Get (rows w') [c] f = Get (rows w') [cp] f.
Proof.
  intros Hctx Hd Hr Hcp Hlt Hfuel. destruct fuel as [|n]; [lia|].
  rewrite Write_S, Hctx. cbv zeta.
  set (w1 := on_rows (SuperWrite ctx [c] (clear_company_name vals)) w).
  change (SuperWrite ctx [c] (clear_company_name vals) (rows w)) with (rows w1) in *.
  destruct (FieldsSync_total hgt (hgt c) n ctx [c] (clear_company_name vals) w1)
    as [w' Hw']; [done|by intros i ->%list_elem_of_singleton|lia|].
  exists w'. split; [simpl; by rewrite Hw'|].
  assert (find_row (rows w') cp = find_row (rows w1) cp) as Hrow.
  { eapply (find_row_above hgt (S (hgt c))); [|lia].
    eapply FieldsSync_frame; [done| |done]. by intros i ->%list_elem_of_singleton. }
  split; [done|]. intros f Hf.
  rewrite (FieldsSync_pulls_commercial hgt n ctx c cp (clear_company_name vals) w1 w');
    try done.
  - unfold Get. by rewrite Hrow.
  - by rewrite dParent_clear_company_name.
  - intros ->. lia.
Qed.

Lemma Write_pulls_commercial_witness :
  ∃ w', Write 5 [] [3] {[FParent := VRef (Some 1)]} ex_world = Some w'
        ∧ find_row (rows w') 1
          = find_row (SuperWrite [] [3] (clear_company_name {[FParent := VRef (Some 1)]})
                                 (rows ex_world)) 1
        ∧ ∀ f, f ∈ CommercialFields → Get (rows w') [3] f = Get (rows w') [1] f.
Proof.
  apply (Write_pulls_commercial ex_hgt).
  - vm_compute. reflexivity.
  - vm_compute. discriminate.
  - apply ranked_b_ok. vm_compute. reflexivity.
  - vm_compute. reflexivity.
  - vm_compute. lia.
  - vm_compute. lia.
Defined.

(** ** The record [Create] adds *)

Lemma find_row_app t r i :
  is_Some (find_row t i) → find_row (t ++ [r]) i = find_row t i.
Proof.
  unfold find_row. induction t as [|x t IH]; simpl.
  - by intros [? ?].
  - destruct (ID x =? i); [done|]. apply IH.
Qed.

Lemma next_id_new t : next_id t ∉ map ID t.
Proof.
  intros (r & Hr & Hin)%list_elem_of_fmap. apply next_id_fresh in Hin. lia.
Qed.

Lemma get_apply_writable ctx d r f :
  f ≠ FCommercialPartner →
  get_col f (apply_data (writable ctx d) r) = get_col f (apply_data d r).
Proof.
  intros Hf. rewrite !get_apply_data. unfold writable.
  destruct (HasKey _ _); [done|]. by rewrite lookup_delete_ne.
Qed.

(** X7. On a forest [Create] returns the one new record, whose id is one
    above the largest of the table; the table grows by this record only,
    the records it had keep every column outside the synchronised ones, and
    the new record holds, in those columns, the given values over the
    defaults (the company name being cleared when a parent is given). *)
Theorem Create_adds_one_record
        (hgt : Z → nat) (ctx : Context) (vals : PartnerData) (w : World)
        (fuel : nat) :
  ranked hgt (snd (SuperCreate ctx (clear_company_name vals) (rows w))) →
  (3 * hgt (next_id (rows w)) + 4 ≤ fuel)%nat →
  ∃ w', Create fuel ctx vals w = Some ([next_id (rows w)], w')
        ∧ map ID (rows w') = map ID (rows w) ++ [next_id (rows w)]
        ∧ (next_id (rows w) ∉ map ID (rows w))
        ∧ (∀ i f, f ∉ synced_fields → is_Some (find_row (rows w) i) →
                  Get (rows w') [i] f = Get (rows w) [i] f)
        ∧ (∀ f, f ∉ synced_fields →
                Get (rows w') [next_id (rows w)] f
                = get_col f (apply_data (clear_company_name vals)
                                        (default_row (next_id (rows w))))).
Proof.
  intros Hr Hfuel. unfold Create.
  destruct (SuperCreate ctx (clear_company_name vals) (rows w)) as [partner t1] eqn:E.
  cbn [snd] in Hr.
  assert (partner = [next_id (rows w)]) as -> by (by injection E as <- _).
  set (c := next_id (rows w)) in *.
  set (w1 := mkWorld t1 (sync_log w)).
  destruct (FieldsSync_total hgt (hgt c) fuel ctx [c] (clear_company_name vals) w1)
    as [w2 Hw2]; [done|by intros i ->%list_elem_of_singleton|done|].
  rewrite Hw2. cbn [mbind option_bind].
  destruct fuel as [|n]; [lia|].
  destruct (HandleFirsrtContactCreation_total n ctx [c] w2) as [w3 Hw3].
  rewrite Hw3. cbn [mbind option_bind]. exists w3. split; [done|].
  set (r := apply_data (writable ctx (clear_company_name vals)) (default_row c)).
  assert (t1 = recompute (rows w ++ [r])) as Ht1 by (by injection E as <-).
  assert (Forall2 keeps (rows w ++ [r]) (rows w3)) as K.
  { etrans; [apply recompute_keeps|]. rewrite <-Ht1.
    etrans; [|by eapply HandleFirsrtContactCreation_keeps].
    eapply keeps_above_keeps.
    by eapply (FieldsSync_frame hgt (S n) (hgt c) ctx [c] _ w1);
      [|intros i ->%list_elem_of_singleton|]. }
  split.
  { rewrite (keeps_ids _ _ K), map_app. simpl. unfold r. by rewrite ID_apply_data. }
  split; [apply next_id_new|]. split.
  - intros i f Hf Hi. rewrite (Get_keeps _ _ _ _ K Hf). unfold Get.
    by rewrite find_row_app.
  - intros f Hf.
    assert (Forall2 keeps t1 (rows w3)) as K1.
    { etrans; [|by eapply HandleFirsrtContactCreation_keeps].
      eapply keeps_above_keeps.
      by eapply (FieldsSync_frame hgt (S n) (hgt c) ctx [c] _ w1);
        [|intros i ->%list_elem_of_singleton|]. }
    rewrite (Get_keeps _ _ _ _ K1 Hf), (SuperCreate_Get _ _ _ _ _ _ E Hf).
    apply get_apply_writable. intros ->. apply Hf. unfold synced_fields.
    rewrite !elem_of_app, !elem_of_cons. auto.
Qed.

Lemma Create_adds_one_record_witness :
  ∃ w', Create 4 [] ex_new_contact ex_world = Some ([next_id (rows ex_world)], w')
        ∧ map ID (rows w') = map ID (rows ex_world) ++ [next_id (rows ex_world)]
        ∧ (next_id (rows ex_world) ∉ map ID (rows ex_world))
        ∧ (∀ i f, f ∉ synced_fields → is_Some (find_row (rows ex_world) i) →
                  Get (rows w') [i] f = Get (rows ex_world) [i] f)
        ∧ (∀ f, f ∉ synced_fields →
                Get (rows w') [next_id (rows ex_world)] f
                = get_col f (apply_data (clear_company_name ex_new_contact)
                                        (default_row (next_id (rows ex_world))))).
Proof.
  apply (Create_adds_one_record ex_hgt).
  - apply ranked_b_ok. vm_compute. reflexivity.
  - vm_compute. lia.
Defined.

(** ** Writes of one plain column *)

Lemma SuperWrite_keeps_update ctx rs d t :
  Forall2 keeps (update_rows rs (writable ctx d) t) (SuperWrite ctx rs d t).
Proof.
  unfold SuperWrite. destruct (_ || _); [apply recompute_keeps|reflexivity].
Qed.

Lemma cParent_apply_data d r : d !! FParent = None → cParent (apply_data d r) = cParent r.
Proof.
  intros Hd. pose proof (get_apply_data d FParent r) as H. rewrite Hd in H.
  simpl in H. by injection H.
Qed.

Lemma ranked_update_rows hgt rs d t :
  d !! FParent = None → ranked hgt t → ranked hgt (update_rows rs d t).
Proof.
  intros Hd Hr r' p Hin Hp. unfold update_rows in Hin.
  apply list_elem_of_fmap in Hin as (r & -> & Hin).
  destruct (bool_decide (ID r ∈ rs)); [|by apply Hr].
  rewrite ID_apply_data. rewrite cParent_apply_data in Hp by done. by apply Hr.
Qed.

Lemma writable_lookup_ne ctx d f :
  f ≠ FCommercialPartner → writable ctx d !! f = d !! f.
Proof.
  intros Hf. unfold writable. destruct (HasKey _ _); [done|]. by rewrite lookup_delete_ne.
Qed.

Lemma clear_company_name_no_parent d :
  d !! FParent = None → clear_company_name d = d.
Proof. intros Hd. unfold clear_company_name, dParent, DGet. by rewrite Hd. Qed.

(** A write without parent among its values returns on a forest; what it
    leaves differs from the plain update of the rows in synchronised
    columns only. *)
Lemma Write_column hgt k fuel ctx rs d w :
  ranked hgt (rows w) → d !! FParent = None →
  (∀ i, i ∈ rs → (hgt i ≤ k)%nat) → (3 * k + 5 ≤ fuel)%nat →
  ∃ w', Write fuel ctx rs d w = Some w'
        ∧ Forall2 keeps (update_rows rs (writable ctx d) (rows w)) (rows w').
Proof.
  intros Hr Hd Hrs Hfuel.
  destruct (HasKey ctx "goto_super") eqn:Hctx.
  - destruct fuel as [|n]; [lia|]. rewrite Write_goto_super by done.
    eexists. split; [done|]. apply SuperWrite_keeps_update.
  - destruct (Write_total_keeps hgt k fuel ctx rs d w) as (w' & Hw' & K); try done.
    + rewrite clear_company_name_no_parent by done.
      eapply ranked_keeps; [apply SuperWrite_keeps_update|].
      apply ranked_update_rows; [|done]. by rewrite writable_lookup_ne.
    + exists w'. split; [done|]. etrans; [|exact K].
      rewrite clear_company_name_no_parent by done. apply SuperWrite_keeps_update.
Qed.

Lemma Get_Write_column t t' ctx rs d i f :
  Forall2 keeps (update_rows rs (writable ctx d) t) t' →
  f ∉ synced_fields →
  Get t' [i] f
  = match find_row t i with
    | Some r =>
        if bool_decide (i ∈ rs)
        then match d !! f with
             | Some v => if fits f v then v else get_col f r
             | None => get_col f r
             end
        else get_col f r
    | None => zero_value f
    end.
Proof.
  intros K Hf. rewrite (Get_keeps _ _ _ _ K Hf), Get_update_rows.
  destruct (find_row t i); [|done]. destruct (bool_decide _); [|done].
  rewrite get_apply_data, writable_lookup_ne; [done|].
  intros ->. apply Hf. unfold synced_fields. rewrite !elem_of_app, !elem_of_cons. auto.
Qed.

(** X8. On a forest [ToggleActive] returns and leaves every record of the
    set with the negation of the flag of the first record of the set: the
    records of a mixed set are not toggled one by one.  No other record
    changes its flag, and no column outside the synchronised ones changes
    besides. *)
Theorem ToggleActive_follows_first
        (hgt : Z → nat) (k : nat) (ctx : Context) (rs : PartnerSet) (w : World)
        (fuel : nat) :
  ranked hgt (rows w) → (∀ i, i ∈ rs → (hgt i ≤ k)%nat) → (3 * k + 5 ≤ fuel)%nat →
  ∃ w', ToggleActive fuel ctx rs w = Some w'
        ∧ (∀ i, i ∈ rs → is_Some (find_row (rows w) i) →
                Get (rows w') [i] FActive
                = VBool (negb (as_bool (Get (rows w) rs FActive))))
        ∧ (∀ i, i ∉ rs → Get (rows w') [i] FActive = Get (rows w) [i] FActive)
        ∧ (∀ i f, f ∉ synced_fields → f ≠ FActive →
                  Get (rows w') [i] f = Get (rows w) [i] f).
Proof.
  intros Hr Hrs Hfuel. unfold ToggleActive.
  set (b := as_bool (Get (rows w) rs FActive)).
  assert (∃ w', Write fuel ctx rs {[FActive := VBool (negb b)]} w = Some w'
                ∧ Forall2 keeps
                    (update_rows rs (writable ctx {[FActive := VBool (negb b)]}) (rows w))
                    (rows w')) as (w' & Hw' & K).
  { by apply (Write_column hgt k). }
  exists w'. split; [by destruct b|].
  split; [|split].
  - intros i Hi [r Hrow].
    rewrite (Get_Write_column _ _ _ _ _ _ _ K not_synced_Active), Hrow.
    by rewrite bool_decide_eq_true_2, lookup_singleton_eq.
  - intros i Hi.
    rewrite (Get_Write_column _ _ _ _ _ _ _ K not_synced_Active).
    unfold Get. destruct (find_row _ _); [|done].
    by rewrite bool_decide_eq_false_2.
  - intros i f Hf Hne.
    rewrite (Get_Write_column _ _ _ _ _ _ _ K Hf).
    unfold Get. destruct (find_row _ _); [|done].
    rewrite lookup_singleton_ne by done. by destruct (bool_decide _).
Qed.

Lemma ToggleActive_follows_first_witness :
  ∃ w', ToggleActive 11 [] [2; 3] ex_world = Some w'
        ∧ (∀ i, i ∈ [2; 3] → is_Some (find_row (rows ex_world) i) →
                Get (rows w') [i] FActive
                = VBool (negb (as_bool (Get (rows ex_world) [2; 3] FActive))))
        ∧ (∀ i, i ∉ [2; 3] → Get (rows w') [i] FActive = Get (rows ex_world) [i] FActive)
        ∧ (∀ i f, f ∉ synced_fields → f ≠ FActive →
                  Get (rows w') [i] f = Get (rows ex_world) [i] f).
Proof.
  apply (ToggleActive_follows_first ex_hgt 1).
  - apply ranked_b_ok. vm_compute. reflexivity.
  - intros i Hi. apply elem_of_cons in Hi as [->|Hi]; [vm_compute; lia|].
    apply list_elem_of_singleton in Hi. subst i. vm_compute. lia.
  - vm_compute. lia.
Defined.

(** ** The company type *)

Lemma recompute_iter_keeps n t : Forall2 keeps t (Nat.iter n recompute_pass t).
Proof.
  induction n as [|n IH]; simpl; [reflexivity|].
  etrans; [exact IH|]. unfold recompute_pass.
  apply Forall2_fmap_r, Forall_Forall2_diag, Forall_forall. intros r _.
  apply set_col_keeps. unfold synced_fields. rewrite !elem_of_app, !elem_of_cons. auto.
Qed.

Lemma find_row_recompute_pass t i :
  find_row (recompute_pass t) i
  = (λ r, set_col FCommercialPartner
                  (VRef (ref_of (ComputeCommercialPartner t [ID r]))) r)
      <$> find_row t i.
Proof.
  unfold find_row, recompute_pass. generalize (ComputeCommercialPartner t) as g.
  intros g. induction t as [|r t IH]; simpl; [done|].
  rewrite ID_set_col. by destruct (ID r =? i).
Qed.

Lemma CommercialPartner_recompute_pass t c :
  is_Some (find_row t c) →
  CommercialPartner (recompute_pass t) [c] = take 1 (ComputeCommercialPartner t [c]).
Proof.
  intros [r Hr]. unfold CommercialPartner, Get.
  rewrite find_row_recompute_pass, Hr. cbn [fmap option_fmap option_map].
  apply find_row_Some in Hr as [_ ->].
  rewrite get_set_col, decide_True by done. cbn [fits as_set as_ref ref_of].
  by destruct (ComputeCommercialPartner t [c]).
Qed.

Lemma CommercialPartner_recompute t c :
  is_Some (find_row t c) →
  ∃ t0, Forall2 keeps t t0
        ∧ CommercialPartner (recompute t) [c] = take 1 (ComputeCommercialPartner t0 [c]).
Proof.
  intros Hc. unfold recompute. destruct (length t) as [|n] eqn:E.
  { destruct t; [by destruct Hc|done]. }
  simpl. exists (Nat.iter n recompute_pass t).
  split; [apply recompute_iter_keeps|].
  apply CommercialPartner_recompute_pass.
  destruct (find_row_Forall2 keeps t (Nat.iter n recompute_pass t) c) as [r r' _|];
    [by intros ?? [? _]|apply recompute_iter_keeps|done|].
  by destruct Hc.
Qed.

(** X9. Choosing a company type and reading it back: on a forest
    [InverseCompanyType] returns, [ComputeCompanyType] then gives "company"
    for the choice "company" and "person" for every other string, and a
    record made a company is its own commercial partner. *)
Theorem InverseCompanyType_read_back
        (hgt : Z → nat) (ctx : Context) (c : Z) (companyType : string)
        (w : World) (fuel : nat) :
  ranked hgt (rows w) → is_Some (find_row (rows w) c) →
  (3 * hgt c + 5 ≤ fuel)%nat →
  ∃ w', InverseCompanyType fuel ctx [c] companyType w = Some w'
        ∧ ComputeCompanyType (rows w') [c]
          = (if String.eqb companyType "company" then "company" else "person")
        ∧ (companyType = "company" → CommercialPartner (rows w') [c] = [c]).
Proof.
  intros Hr [r Hrow] Hfuel. unfold InverseCompanyType.
  set (b := String.eqb companyType "company").
  set (d := {[FIsCompany := VBool b]} : PartnerData).
  assert (d !! FParent = None) as Hd by done.
  destruct (Write_column hgt (hgt c) fuel ctx [c] d w) as (w' & Hw' & K);
    [done|done|by intros i ->%list_elem_of_singleton|done|].
  exists w'. split; [done|].
  assert (IsCompany (rows w') [c] = b) as Hb.
  { unfold IsCompany.
    rewrite (Get_Write_column _ _ _ _ _ _ _ K not_synced_IsCompany), Hrow.
    rewrite bool_decide_eq_true_2 by left. unfold d. by rewrite lookup_singleton_eq. }
  split; [unfold ComputeCompanyType; by rewrite Hb|].
  intros Hct. assert (b = true) as Hbt by (unfold b; by rewrite Hct).
  set (t1 := SuperWrite ctx [c] d (rows w)).
  assert (Forall2 keeps (update_rows [c] (writable ctx d) (rows w)) t1) as K1
    by apply SuperWrite_keeps_update.
  assert (is_Some (find_row (update_rows [c] (writable ctx d) (rows w)) c)) as Hc1.
  { rewrite find_row_update_rows, Hrow. done. }
  assert (CommercialPartner t1 [c] = [c]) as Hcp.
  { unfold t1, SuperWrite.
    assert (Has d FParent || Has d FIsCompany = true) as -> by done.
    destruct (CommercialPartner_recompute _ c Hc1) as (t0 & K0 & ->).
    rewrite Compute_self; [done|]. left.
    rewrite (IsCompany_keeps _ _ _ K0).
    rewrite <-(IsCompany_keeps _ _ [c] K). by rewrite Hb. }
  destruct fuel as [|n]; [lia|]. rewrite Write_S in Hw'.
  destruct (HasKey ctx "goto_super"); [by injection Hw' as <-|].
  rewrite clear_company_name_no_parent in Hw' by done. cbv zeta in Hw'.
  cbn [for_each] in Hw'. apply bind_Some in Hw' as (w0 & HF & [= <-]).
  unfold CommercialPartner.
  rewrite (FieldsSync_own hgt n ctx c d (on_rows (SuperWrite ctx [c] d) w) w0);
    [exact Hcp| |done|exact HF|].
  - unfold on_rows; cbn [rows]. eapply ranked_keeps; [exact K1|].
    apply ranked_update_rows; [by rewrite writable_lookup_ne|done].
  - unfold AddressFields. rewrite !elem_of_cons, elem_of_nil. intuition congruence.
Qed.

Lemma InverseCompanyType_read_back_witness :
  ∃ w', InverseCompanyType 8 [] [2] "company" ex_world = Some w'
        ∧ ComputeCompanyType (rows w') [2]
          = (if String.eqb "company" "company" then "company" else "person")
        ∧ ("company" = "company" → CommercialPartner (rows w') [2] = [2]).
Proof.
  apply (InverseCompanyType_read_back ex_hgt).
  - apply ranked_b_ok. vm_compute. reflexivity.
  - vm_compute. eexists. reflexivity.
  - vm_compute. lia.
Defined.

(** ** [AddressGet] returns *)

Lemma scan_cons n t atMap record q result visited :
  scan (S n) t atMap (record :: q) result visited
  = let visited := {[ID_of record]} ∪ visited in
    let result :=
      if bool_decide (Type_ t record ∈ atMap)
         && negb (bool_decide (is_Some (result !! Type_ t record)))
      then <[Type_ t record := record]> result
      else result in
    if (size result =? size atMap)%nat then Some (Return result)
    else
      scan n t atMap
           (q ++ map (λ child, [child])
                     (filter (λ child, negb (bool_decide (child ∈ visited))
                                       && negb (IsCompany t [child]))
                             (Children t record)))
           result visited.
Proof. reflexivity. Qed.

Lemma climb_S n t atMap currentPartner result visited :
  climb (S n) t atMap currentPartner result visited
  = if IsEmpty currentPartner then Some (Continue result visited)
    else
      match scan n t atMap [currentPartner] result visited with
      | None => None
      | Some (Return result) => Some (Return result)
      | Some (Continue result visited) =>
          if IsCompany t currentPartner || IsEmpty (Parent t currentPartner)
          then Some (Continue result visited)
          else climb n t atMap (Parent t currentPartner) result visited
      end.
Proof. reflexivity. Qed.

Arguments scan : simpl never.
Arguments climb : simpl never.

Lemma unvisited_lt t visited x :
  is_Some (find_row t x) → x ∉ visited →
  (unvisited t ({[x]} ∪ visited) < unvisited t visited)%nat.
Proof.
  intros [r Hr] Hx. apply find_row_Some in Hr as [Hin <-]. unfold unvisited.
  assert (filter (λ r0, ID r0 ∉ {[ID r]} ∪ visited) t
          = filter (λ r0, ID r0 ∉ {[ID r]} ∪ visited)
                   (filter (λ r0, ID r0 ∉ visited) t)) as ->.
  { rewrite list_filter_filter. apply list_filter_iff. intros r0.
    rewrite not_elem_of_union. tauto. }
  apply (length_filter_lt _ _ r).
  - by apply list_elem_of_filter.
  - intros H. apply H, elem_of_union. left. by apply elem_of_singleton.
Qed.

Lemma NoDup_Children t rs : unique_ids t → NoDup (Children t rs).
Proof.
  intros Hu. unfold Children. destruct rs; [constructor|].
  eapply sublist_NoDup; [exact Hu|]. apply fmap_sublist, sublist_filter.
Qed.

Lemma NoDup_singletons (l : list Z) : NoDup l → NoDup (map (λ c, [c]) l).
Proof. apply NoDup_fmap_2. by intros x y [= ->]. Qed.

(** The children a scan queues behind a record. *)
Lemma queued_children t (visited : gset Z) record y :
  unique_ids t →
  y ∈ filter (λ child, negb (bool_decide (child ∈ {[ID_of record]} ∪ visited))
                       && negb (IsCompany t [child]))
             (Children t record) →
  (y ∉ {[ID_of record]} ∪ visited) ∧ is_Some (find_row t y)
  ∧ Parent t [y] = [ID_of record] ∧ ID_of record ∈ {[ID_of record]} ∪ visited.
Proof.
  intros Hu [HP Hy]%list_elem_of_filter.
  apply andb_prop_elim in HP as [HP _].
  destruct (bool_decide (y ∈ {[ID_of record]} ∪ visited)) eqn:E; [done|].
  apply bool_decide_eq_false in E. split; [done|].
  split; [by eapply Children_find_row|].
  split.
  - rewrite (Children_Parent t record y Hu Hy).
    destruct record; [|done]. by apply elem_of_nil in Hy.
  - apply elem_of_union. left. by apply elem_of_singleton.
Qed.

Lemma scan_queue_total t atMap :
  unique_ids t →
  ∀ m q result visited fuel,
    queue_ok t visited q → (unvisited t visited ≤ m)%nat → (m < fuel)%nat →
    is_Some (scan fuel t atMap q result visited).
Proof.
  intros Hu. induction m as [|m IH]; intros q result visited fuel [Hnd Hq] Hm Hfuel.
  - destruct fuel as [|n]; [lia|]. destruct q as [|record q]; [done|].
    destruct (Hq record) as (x & p & -> & Hx & Hrow & _); [left|].
    pose proof (unvisited_lt t visited x Hrow Hx). lia.
  - destruct fuel as [|n]; [lia|]. destruct q as [|record q]; [done|].
    destruct (Hq record) as (x & p & -> & Hx & Hrow & Hp & Hpv); [left|].
    rewrite scan_cons. cbv zeta. destruct (_ =? _)%nat; [done|].
    apply NoDup_cons in Hnd as [Hxq Hnd].
    apply IH; [|pose proof (unvisited_lt t visited x Hrow Hx);
                 change (ID_of [x]) with x; lia|lia].
    split.
    + apply NoDup_app. split; [done|]. split.
      * intros record Hrec Hin.
        destruct (Hq record) as (y & py & -> & Hy & _ & Hpy & Hpyv); [by right|].
        apply list_elem_of_fmap in Hin as (y' & [= <-] & Hin).
        apply queued_children in Hin as (_ & _ & Hpar & _); [|done].
        rewrite Hpy in Hpar. injection Hpar as ->. by apply Hx.
      * apply NoDup_singletons, NoDup_filter, NoDup_Children, Hu.
    + intros record [Hrec|Hrec]%elem_of_app.
      * destruct (Hq record) as (y & py & -> & Hy & Hyrow & Hpy & Hpyv); [by right|].
        exists y, py. split; [done|]. split.
        { rewrite not_elem_of_union. split; [|done].
          intros ->%elem_of_singleton. by apply Hxq. }
        split; [done|]. split; [done|]. apply elem_of_union. by right.
      * apply list_elem_of_fmap in Hrec as (y & -> & Hin).
        apply queued_children in Hin as (H1 & H2 & H3 & H4); [|done].
        by exists y, (ID_of [x]).
Qed.

(** A scan from one record ends within as many steps as the table has
    rows, and two. *)
Lemma scan_seed_total t atMap current result visited fuel :
  unique_ids t → (length t + 2 ≤ fuel)%nat →
  is_Some (scan fuel t atMap [current] result visited).
Proof.
  intros Hu Hfuel. destruct fuel as [|n]; [lia|]. rewrite scan_cons. cbv zeta.
  destruct (_ =? _)%nat; [done|]. rewrite app_nil_l.
  apply (scan_queue_total t atMap Hu (length t)); [|apply length_filter|lia].
  split.
  - apply NoDup_singletons, NoDup_filter, NoDup_Children, Hu.
  - intros record (y & -> & Hin)%list_elem_of_fmap.
    apply queued_children in Hin as (H1 & H2 & H3 & H4); [|done].
    by exists y, (ID_of current).
Qed.

Lemma climb_total t atMap current :
  unique_ids t → chain_ends t current →
  ∃ N, ∀ fuel result visited,
    (N ≤ fuel)%nat → is_Some (climb fuel t atMap current result visited).
Proof.
  intros Hu Hch. induction Hch as [rs Hroot|rs _ [N IH]].
  - exists (length t + 3)%nat. intros fuel result visited Hf.
    destruct fuel as [|n]; [lia|]. rewrite climb_S.
    destruct (IsEmpty rs); [done|].
    destruct (scan_seed_total t atMap rs result visited n Hu) as [flow ->]; [lia|].
    destruct flow; [done|]. rewrite Hroot. by rewrite orb_true_r.
  - exists (Nat.max (S N) (length t + 3)). intros fuel result visited Hf.
    destruct fuel as [|n]; [lia|]. rewrite climb_S.
    destruct (IsEmpty rs); [done|].
    destruct (scan_seed_total t atMap rs result visited n Hu) as [flow ->]; [lia|].
    destruct flow; [done|]. destruct (_ || _); [done|]. apply IH. lia.
Qed.

Lemma seeds_total t atMap rs :
  unique_ids t → (∀ x, x ∈ rs → chain_ends t [x]) →
  ∃ N, ∀ fuel result visited,
    (N ≤ fuel)%nat → is_Some (seeds fuel t atMap rs result visited).
Proof.
  intros Hu. induction rs as [|x rs IH]; intros Hrs.
  - by exists 0%nat.
  - destruct IH as [N1 IH]; [intros y Hy; apply Hrs; by right|].
    destruct (climb_total t atMap [x] Hu) as [N2 Hx]; [apply Hrs; left|].
    exists (Nat.max N1 N2). intros fuel result visited Hf. simpl.
    destruct (Hx fuel result visited) as [flow ->]; [lia|].
    destruct flow; [done|]. apply IH. lia.
Qed.

(** ** What [AddressGet] answers *)

Lemma found_typed t (atMap : gset string) record result :
  let result' :=
    if bool_decide (Type_ t record ∈ atMap)
       && negb (bool_decide (is_Some (result !! Type_ t record)))
    then <[Type_ t record := record]> result
    else result in
  typed t result → typed t result' ∧ result ⊆ result'.
Proof.
  intros result' Ht. unfold result'.
  destruct (bool_decide (Type_ t record ∈ atMap)); cbn [andb]; [|done].
  destruct (bool_decide (is_Some (result !! Type_ t record))) eqn:E; cbn [negb]; [done|].
  apply bool_decide_eq_false, eq_None_not_Some in E. split.
  - intros k v [[<- <-]|[_ Hk]]%lookup_insert_Some; [done|by apply Ht].
  - by apply insert_subseteq.
Qed.

Lemma scan_grows n t atMap q result visited flow :
  typed t result → scan n t atMap q result visited = Some flow →
  typed t (flow_result flow) ∧ result ⊆ flow_result flow.
Proof.
  revert q result visited. induction n as [|n IH]; [done|].
  intros q result visited Ht. destruct q as [|record q]; [by intros [= <-]|].
  rewrite scan_cons. cbv zeta.
  destruct (found_typed t atMap record result Ht) as [Ht' Hsub].
  destruct (_ =? _)%nat; [by intros [= <-]|].
  intros H. apply IH in H as [H1 H2]; [|done]. split; [done|by etrans].
Qed.

Lemma climb_grows n t atMap current result visited flow :
  typed t result → climb n t atMap current result visited = Some flow →
  typed t (flow_result flow) ∧ result ⊆ flow_result flow.
Proof.
  revert current result visited. induction n as [|n IH]; [done|].
  intros current result visited Ht. rewrite climb_S.
  destruct (IsEmpty current); [by intros [= <-]|].
  destruct (scan n t atMap [current] result visited) as [[r|r v]|] eqn:E; [| |done].
  - intros [= <-]. by apply (scan_grows _ _ _ _ _ _ _ Ht E).
  - destruct (scan_grows _ _ _ _ _ _ _ Ht E) as [H1 H2].
    destruct (_ || _); [by intros [= <-]|].
    intros H. apply IH in H as [H3 H4]; [|done]. split; [done|by etrans].
Qed.

Lemma seeds_grows n t atMap partners result visited flow :
  typed t result → seeds n t atMap partners result visited = Some flow →
  typed t (flow_result flow) ∧ result ⊆ flow_result flow.
Proof.
  revert result visited. induction partners as [|x partners IH]; simpl.
  { by intros result visited Ht [= <-]. }
  intros result visited Ht.
  destruct (climb n t atMap [x] result visited) as [[r|r v]|] eqn:E; [| |done].
  - intros [= <-]. by apply (climb_grows _ _ _ _ _ _ _ Ht E).
  - destruct (climb_grows _ _ _ _ _ _ _ Ht E) as [H1 H2].
    intros H. apply IH in H as [H3 H4]; [|done]. split; [done|by etrans].
Qed.

(** The first record scanned is filed under its type. *)
Lemma seeds_head n t (atMap : gset string) x partners flow :
  seeds n t atMap (x :: partners) ∅ ∅ = Some flow → Type_ t [x] ∈ atMap →
  flow_result flow !! Type_ t [x] = Some [x].
Proof.
  intros H Hin. simpl in H.
  assert (typed t ∅) as H0 by (by intros k v ?).
  assert (∀ fl, climb n t atMap [x] ∅ ∅ = Some fl →
                typed t (flow_result fl) ∧ flow_result fl !! Type_ t [x] = Some [x])
    as Hclimb.
  { intros fl. destruct n as [|n]; [done|]. rewrite climb_S. cbn [IsEmpty].
    assert (∀ fl', scan n t atMap [[x]] ∅ ∅ = Some fl' →
                   typed t (flow_result fl')
                   ∧ flow_result fl' !! Type_ t [x] = Some [x]) as Hscan.
    { intros fl'. destruct n as [|n]; [done|]. rewrite scan_cons. cbv zeta.
      rewrite bool_decide_eq_true_2 by done. rewrite lookup_empty.
      rewrite bool_decide_eq_false_2 by (by intros [? ?]). cbn [andb negb].
      assert (typed t (<[Type_ t [x] := [x]]> ∅)) as Ht1.
      { intros k v [[<- <-]|[_ Hk]]%lookup_insert_Some; done. }
      destruct (_ =? _)%nat.
      - intros [= <-]. split; [done|]. apply lookup_insert_eq.
      - intros Hs. apply scan_grows in Hs as [H1 H2]; [|done]. split; [done|].
        eapply lookup_weaken; [|exact H2]. apply lookup_insert_eq. }
    destruct (scan n t atMap [[x]] ∅ ∅) as [[r|r v]|] eqn:E; [| |done].
    - intros [= <-]. by apply Hscan.
    - destruct (Hscan _ eq_refl) as [H1 H2]. destruct (_ || _); [by intros [= <-]|].
      intros Hc. apply climb_grows in Hc as [H3 H4]; [|done]. split; [done|].
      by eapply lookup_weaken. }
  destruct (climb n t atMap [x] ∅ ∅) as [[r|r v]|] eqn:E; [| |done].
  - injection H as <-. by apply Hclimb.
  - destruct (Hclimb _ eq_refl) as [H1 H2].
    apply seeds_grows in H as [H3 H4]; [|done]. by eapply lookup_weaken.
Qed.

Lemma defaults_from (def : PartnerSet) (addrTypes : list string)
      (result : gmap string PartnerSet) a v :
  foldl (λ result addrType,
           match result !! addrType with
           | Some _ => result
           | None => <[addrType := def]> result
           end) result addrTypes !! a = Some v →
  result !! a = Some v ∨ (a ∈ addrTypes ∧ v = def).
Proof.
  revert result. induction addrTypes as [|x l IH]; intros result; simpl; [by left|].
  intros H. apply IH in H as [H|[H ->]].
  - destruct (result !! x) eqn:E; [by left|].
    apply lookup_insert_Some in H as [[<- <-]|[_ H]]; [right; split; [left|done]|by left].
  - right. split; [by right|done].
Qed.

(** X10. [AddressGet] returns on every table whose ids are distinct, for
    records whose parent links end.  It answers every requested type and
    nothing but the requested types and "contact"; an answer is a record of
    the type asked, or the default (a record of type "contact", or the
    queried set itself); and the first queried record is the answer for its
    own type when that is searched. *)
Theorem AddressGet_answers (t : Table) (rs : PartnerSet) (addrTypes : list string) :
  unique_ids t → (∀ x, x ∈ rs → chain_ends t [x]) →
  ∃ N, ∀ fuel, (N ≤ fuel)%nat →
    ∃ m, AddressGet fuel t rs addrTypes = Some m
         ∧ (∀ a, a ∈ addrTypes → is_Some (m !! a))
         ∧ (∀ k, is_Some (m !! k) → k = "contact" ∨ k ∈ addrTypes)
         ∧ (∀ k v, m !! k = Some v →
                   Type_ t v = k ∨ Type_ t v = "contact" ∨ v = rs)
         ∧ (∀ x rest, rs = x :: rest →
                      Type_ t [x] = "contact" ∨ Type_ t [x] ∈ addrTypes →
                      m !! Type_ t [x] = Some [x]).
Proof.
  intros Hu Hrs.
  set (atMap := {["contact"]} ∪ list_to_set addrTypes : gset string).
  destruct (seeds_total t atMap rs Hu Hrs) as [N HN].
  exists N. intros fuel Hfuel.
  destruct (HN fuel ∅ ∅ Hfuel) as [flow Hflow].
  assert (typed t ∅) as H0 by (by intros k v ?).
  assert (within_types atMap ∅) as W0.
  { unfold within_types. rewrite dom_empty_L. apply empty_subseteq. }
  destruct (seeds_grows _ _ _ _ _ _ _ H0 Hflow) as [Htyped _].
  pose proof (seeds_within _ _ _ _ _ _ _ W0 Hflow) as Hwithin.
  assert (∀ k, k ∈ atMap → k = "contact" ∨ k ∈ addrTypes) as Hat.
  { intros k [Hk%elem_of_singleton|Hk%elem_of_list_to_set]%elem_of_union;
      [by left|by right]. }
  assert (∀ x, Type_ t [x] = "contact" ∨ Type_ t [x] ∈ addrTypes →
               Type_ t [x] ∈ atMap) as Hin.
  { intros x [->|Hx]; apply elem_of_union; [left; by apply elem_of_singleton|right].
    by apply elem_of_list_to_set. }
  unfold AddressGet. fold atMap. rewrite Hflow.
  destruct flow as [r|r v]; cbn [flow_result] in *.
  - exists r. split; [done|]. destruct Hwithin as [Hw Hsz].
    split; [|split; [|split]].
    + intros a Ha. eapply (AddressGet_requested_types fuel t rs addrTypes); [|done].
      unfold AddressGet. fold atMap. by rewrite Hflow.
    + intros k Hk. apply Hat, Hw. by apply elem_of_dom.
    + intros k x Hk. left. by apply Htyped.
    + intros x rest -> Hx. by apply (seeds_head fuel t atMap x rest (Return r)), Hin.
  - eexists. split; [done|].
    set (def := default rs (r !! "contact")).
    assert (Type_ t def = "contact" ∨ def = rs) as Hdef.
    { unfold def. destruct (r !! "contact") eqn:E; [left; by apply Htyped|by right]. }
    split; [|split; [|split]].
    + intros a Ha. by apply defaults_cover.
    + intros k [x Hk]. apply defaults_from in Hk as [Hk|[Hk _]]; [|by right].
      apply Hat, Hwithin. apply elem_of_dom. by exists x.
    + intros k x Hk. apply defaults_from in Hk as [Hk|[_ ->]].
      * left. by apply Htyped.
      * right. exact Hdef.
    + intros x rest -> Hx.
      pose proof (seeds_head fuel t atMap x rest (Continue r v) Hflow (Hin x Hx)) as Hh.
      cbn [flow_result] in Hh.
      destruct (defaults_cover def addrTypes r (Type_ t [x])) as (_ & H2 & _).
      rewrite H2; [done|by rewrite Hh].
Qed.

Lemma AddressGet_answers_witness :
  ∃ N, ∀ fuel, (N ≤ fuel)%nat →
    ∃ m, AddressGet fuel ex_table [3] ["invoice"] = Some m
         ∧ (∀ a, a ∈ ["invoice"] → is_Some (m !! a))
         ∧ (∀ k, is_Some (m !! k) → k = "contact" ∨ k ∈ ["invoice"])
         ∧ (∀ k v, m !! k = Some v →
                   Type_ ex_table v = k ∨ Type_ ex_table v = "contact" ∨ v = [3])
         ∧ (∀ x rest, [3] = x :: rest →
                      Type_ ex_table [x] = "contact" ∨ Type_ ex_table [x] ∈ ["invoice"] →
                      m !! Type_ ex_table [x] = Some [x]).
Proof.
  apply (AddressGet_answers ex_table [3] ["invoice"]).
  - apply unique_ids_ok. vm_compute. reflexivity.
  - intros x Hx. apply list_elem_of_singleton in Hx. subst x.
    apply (chain_ends_b_ok 3). vm_compute. reflexivity.
Defined.

(** ** The default address layout *)

Lemma append_cons (c : ascii) (s s' : string) :
  String c s +:+ s' = String c (s +:+ s').
Proof. reflexivity. Qed.

Lemma append_nil_r (s : string) : s +:+ "" = s.
Proof. induction s as [|c s IH]; [done|]. by rewrite append_cons, IH. Qed.

Lemma append_assoc (s1 s2 s3 : string) : (s1 +:+ s2) +:+ s3 = s1 +:+ (s2 +:+ s3).
Proof. induction s1 as [|c s1 IH]; [done|]. by rewrite !append_cons, IH. Qed.

Lemma default_layout (data : AddressData) :
  execute_template (S (String.length default_address_format))
                   default_address_format data
  = Some (adStreet data +:+ String "010"
         (adStreet2 data +:+ String "010"
         (adCity data +:+ String " "
         (adStateCode data +:+ String " "
         (adZip data +:+ String "010"
         (adCountryName data +:+ "")))))).
Proof. destruct data. vm_compute. reflexivity. Qed.

Lemma default_layout_company (data : AddressData) :
  execute_template
    (S (String.length ("{{ .CompanyName }}" +:+ String "010" default_address_format)))
    ("{{ .CompanyName }}" +:+ String "010" default_address_format) data
  = Some (adCompanyName data +:+ String "010"
         (adStreet data +:+ String "010"
         (adStreet2 data +:+ String "010"
         (adCity data +:+ String " "
         (adStateCode data +:+ String " "
         (adZip data +:+ String "010"
         (adCountryName data +:+ ""))))))).
Proof. destruct data. vm_compute. reflexivity. Qed.

(** X11. For a partner whose country gives no address format (or that has
    no country) [DisplayAddress] does not fail and prints the street, the
    second street line, city, state code and zip on one line, and the
    country name, each on a line of its own, empty or not; the commercial
    company name comes first, on its own line, when there is one. *)
Theorem DisplayAddress_default_layout
        (cat : Catalog) (t : Table) (rs : PartnerSet) (withoutCompany : bool) :
  from_option country_AddressFormat ""
              (find_country cat (as_ref (Get t rs FCountry))) = "" →
  DisplayAddress cat t rs withoutCompany
  = Some ((if String.eqb (ComputeCommercialCompanyName t rs) "" then ""
           else ComputeCommercialCompanyName t rs +:+ String "010" "")
          +:+ as_string (Get t rs FStreet) +:+ String "010"
              (as_string (Get t rs FStreet2) +:+ String "010"
              (as_string (Get t rs FCity) +:+ String " "
              (from_option state_Code ""
                           (find_state cat (as_ref (Get t rs FState)))
               +:+ String " "
              (as_string (Get t rs FZip) +:+ String "010"
              (from_option country_Name ""
                           (find_country cat (as_ref (Get t rs FCountry))))))))).
Proof.
  intros Hfmt. unfold DisplayAddress. rewrite Hfmt. cbv zeta.
  cbn [adCompanyName String.eqb].
  destruct (String.eqb (ComputeCommercialCompanyName t rs) "") eqn:E; cbn [negb].
  - rewrite default_layout.
    cbn [adStreet adStreet2 adCity adZip adStateCode adCountryName].
    by rewrite append_nil_r.
  - rewrite default_layout_company.
    cbn [adStreet adStreet2 adCity adZip adStateCode adCountryName adCompanyName].
    by rewrite append_nil_r, append_assoc.
Qed.

Lemma DisplayAddress_default_layout_witness :
  DisplayAddress ex_catalog ex_table [1] false
  = Some ((if String.eqb (ComputeCommercialCompanyName ex_table [1]) "" then ""
           else ComputeCommercialCompanyName ex_table [1] +:+ String "010" "")
          +:+ as_string (Get ex_table [1] FStreet) +:+ String "010"
              (as_string (Get ex_table [1] FStreet2) +:+ String "010"
              (as_string (Get ex_table [1] FCity) +:+ String " "
              (from_option state_Code ""
                           (find_state ex_catalog (as_ref (Get ex_table [1] FState)))
               +:+ String " "
              (as_string (Get ex_table [1] FZip) +:+ String "010"
              (from_option country_Name ""
                           (find_country ex_catalog
                                         (as_ref (Get ex_table [1] FCountry))))))))).
Proof.
  apply (DisplayAddress_default_layout ex_catalog ex_table [1] false).
  vm_compute. reflexivity.
Defined.

(** ** [CreateCompany] *)

Lemma ranked_update_parent hgt rs d t p :
  d !! FParent = Some (VRef (Some p)) → (∀ i, i ∈ rs → (hgt i < hgt p)%nat) →
  ranked hgt t → ranked hgt (update_rows rs d t).
Proof.
  intros Hd Hrs Hr r' q Hin Hq. unfold update_rows in Hin.
  apply list_elem_of_fmap in Hin as (r & -> & Hin).
  destruct (bool_decide (ID r ∈ rs)) eqn:E; [|by apply Hr].
  apply bool_decide_eq_true in E. rewrite ID_apply_data.
  pose proof (get_apply_data d FParent r) as H. rewrite Hd in H. simpl in H.
  injection H as H. rewrite H in Hq. injection Hq as <-. by apply Hrs.
Qed.

Lemma ranked_app_root hgt t r : cParent r = None → ranked hgt t → ranked hgt (t ++ [r]).
Proof.
  intros Hp Hr r' q [Hin|Hin]%elem_of_app Hq; [by apply Hr|].
  apply list_elem_of_singleton in Hin as ->. congruence.
Qed.

(** The steps of [Create] on a forest. *)
Lemma Create_steps hgt ctx vals w fuel :
  ranked hgt (snd (SuperCreate ctx (clear_company_name vals) (rows w))) →
  (3 * hgt (next_id (rows w)) + 4 ≤ fuel)%nat →
  ∃ w1 w',
    FieldsSync fuel ctx [next_id (rows w)] (clear_company_name vals)
               (mkWorld (snd (SuperCreate ctx (clear_company_name vals) (rows w)))
                        (sync_log w)) = Some w1
    ∧ HandleFirsrtContactCreation fuel ctx [next_id (rows w)] w1 = Some w'
    ∧ Create fuel ctx vals w = Some ([next_id (rows w)], w').
Proof.
  intros Hr Hfuel. unfold Create.
  destruct (SuperCreate ctx (clear_company_name vals) (rows w)) as [partner t1] eqn:E.
  cbn [snd] in *.
  assert (partner = [next_id (rows w)]) as -> by (by injection E as <- _).
  destruct (FieldsSync_total hgt (hgt (next_id (rows w))) fuel ctx [next_id (rows w)]
              (clear_company_name vals) (mkWorld t1 (sync_log w)))
    as [w1 Hw1]; [done|by intros i ->%list_elem_of_singleton|done|].
  destruct fuel as [|n]; [lia|].
  destruct (HandleFirsrtContactCreation_total n ctx [next_id (rows w)] w1) as [w' Hw'].
  exists w1, w'. split; [done|]. split; [done|].
  rewrite Hw1. cbn [mbind option_bind]. by rewrite Hw'.
Qed.

Lemma Get_written t t' ctx rs d i f v :
  Forall2 keeps (update_rows rs (writable ctx d) t) t' → f ∉ synced_fields →
  i ∈ rs → is_Some (find_row t i) → d !! f = Some v → fits f v = true →
  Get t' [i] f = v.
Proof.
  intros K Hf Hi [r Hr] Hv Hfit. rewrite (Get_Write_column _ _ _ _ _ _ _ K Hf), Hr.
  by rewrite bool_decide_eq_true_2, Hv, Hfit.
Qed.

Lemma Get_not_written t t' ctx rs d i f :
  Forall2 keeps (update_rows rs (writable ctx d) t) t' → f ∉ synced_fields →
  i ∉ rs ∨ d !! f = None → Get t' [i] f = Get t [i] f.
Proof.
  intros K Hf Hi. rewrite (Get_Write_column _ _ _ _ _ _ _ K Hf). unfold Get.
  destruct (find_row t i); [|done].
  destruct Hi as [Hi| ->]; [by rewrite bool_decide_eq_false_2|].
  by destruct (bool_decide _).
Qed.

Lemma keeps_find_row t t' i :
  Forall2 keeps t t' → is_Some (find_row t i) → is_Some (find_row t' i).
Proof.
  intros K [r Hr].
  destruct (find_row_Forall2 keeps t t' i) as [r0 r' _|]; [by intros ?? [? _]|done|done|].
  done.
Qed.

Lemma Children_app_root t r i : cParent r = None → Children (t ++ [r]) [i] = Children t [i].
Proof.
  intros Hp. unfold Children. rewrite filter_app, filter_cons, filter_nil.
  rewrite Hp. rewrite bool_decide_eq_false_2 by done. cbn [andb].
  rewrite decide_False by (by intros []). by rewrite app_nil_r.
Qed.

Lemma Children_map (g : PartnerRow → PartnerRow) t i :
  (∀ r, r ∈ t → ID (g r) = ID r
              ∧ (bool_decide (cParent (g r) = Some i) && cActive (g r)
                 = bool_decide (cParent r = Some i) && cActive r)) →
  Children (map g t) [i] = Children t [i].
Proof.
  intros Hg. unfold Children. induction t as [|r t IH]; [done|].
  cbn [map]. rewrite !filter_cons.
  destruct (Hg r) as [HID HP]; [left|]. rewrite HP.
  destruct (decide _); cbn [map]; rewrite IH; try (intros r0 Hr0; apply Hg; by right).
  - by rewrite HID.
  - done.
Qed.

(** Giving the records of [rs] another parent than [i], when [i] was not
    their parent, leaves the children of [i] as they were. *)
Lemma Children_update_rows rs d t i p :
  d !! FParent = Some (VRef (Some p)) → d !! FActive = None → p ≠ i →
  (∀ r, r ∈ t → ID r ∈ rs → cParent r ≠ Some i) →
  Children (update_rows rs d t) [i] = Children t [i].
Proof.
  intros Hd Ha Hp Hrs. unfold update_rows. apply Children_map.
  intros r Hr. destruct (bool_decide (ID r ∈ rs)) eqn:E; [|done].
  apply bool_decide_eq_true in E. split; [apply ID_apply_data|].
  assert (cParent (apply_data d r) = Some p) as Hnew.
  { pose proof (get_apply_data d FParent r) as H. rewrite Hd in H. simpl in H.
    by injection H. }
  rewrite Hnew. rewrite (bool_decide_eq_false_2 (Some p = Some i)) by congruence.
  by rewrite (bool_decide_eq_false_2 (cParent r = Some i)) by (by apply Hrs).
Qed.

Lemma Get_recompute_pass t rs f :
  f ≠ FCommercialPartner → Get (recompute_pass t) rs f = Get t rs f.
Proof.
  intros Hf. unfold Get. destruct rs as [|i rs]; [done|].
  rewrite find_row_recompute_pass. destruct (find_row t i); [|done].
  cbn [fmap option_fmap option_map]. rewrite get_set_col.
  by rewrite decide_False by congruence.
Qed.

(** Recomputing the commercial partner changes no other column. *)
Lemma Get_recompute t rs f :
  f ≠ FCommercialPartner → Get (recompute t) rs f = Get t rs f.
Proof.
  intros Hf. unfold recompute. generalize (length t) as n.
  induction n as [|n IH]; [done|].
  change (Nat.iter (S n) recompute_pass t)
    with (recompute_pass (Nat.iter n recompute_pass t)).
  by rewrite Get_recompute_pass.
Qed.

(** After the recomputation a person directly under a root or a company
    has it as commercial partner. *)
Lemma CommercialPartner_recompute_child t c n :
  is_Some (find_row t c) → is_Some (find_row t n) → c ≠ n →
  IsCompany t [c] = false → Parent t [c] = [n] →
  IsCompany t [n] = true ∨ Parent t [n] = [] →
  CommercialPartner (recompute t) [c] = [n].
Proof.
  intros [rc Hc] [rn Hn] Hne Hco Hp Hroot.
  assert (∃ m, length t = S (S m)) as [m Hlen].
  { apply find_row_Some in Hc as [Hc Hc']. apply find_row_Some in Hn as [Hn Hn'].
    destruct t as [|a [|b t']]; [by apply elem_of_nil in Hc| |by eexists].
    apply list_elem_of_singleton in Hc, Hn. congruence. }
  unfold recompute. rewrite Hlen.
  change (Nat.iter (S (S m)) recompute_pass t)
    with (recompute_pass (recompute_pass (Nat.iter m recompute_pass t))).
  set (T := Nat.iter m recompute_pass t).
  assert (Forall2 keeps t T) as K by apply recompute_iter_keeps.
  assert (Forall2 keeps t (recompute_pass T)) as K1
    by apply (recompute_iter_keeps (S m)).
  rewrite CommercialPartner_recompute_pass by (by eapply keeps_find_row).
  rewrite Compute_parent.
  - rewrite (Parent_keeps _ _ _ K1), Hp.
    rewrite CommercialPartner_recompute_pass by (by eapply keeps_find_row).
    rewrite Compute_self; [done|].
    by rewrite (IsCompany_keeps _ _ _ K), (Parent_keeps _ _ _ K).
  - by rewrite (IsCompany_keeps _ _ _ K1).
  - by rewrite (Parent_keeps _ _ _ K1), Hp.
Qed.

Lemma HandleFirsrtContactCreation_rest n ctx rs w w' i f :
  HandleFirsrtContactCreation n ctx rs w = Some w' → f ∉ AddressFields →
  Get (rows w') [i] f = Get (rows w) [i] f.
Proof.
  unfold HandleFirsrtContactCreation.
  destruct (_ && _); [by intros [= <-]|].
  destruct (negb _); [by intros [= <-]|].
  destruct (_ && _); [|by intros [= <-]].
  intros H Hf. eapply UpdateAddress_rest; [exact H|by right].
Qed.

(** A write leaves the rows ranked above its records as the store left
    them. *)
Lemma Write_above hgt k n ctx rs vals w w' :
  HasKey ctx "goto_super" = false →
  ranked hgt (SuperWrite ctx rs (clear_company_name vals) (rows w)) →
  (∀ i, i ∈ rs → (hgt i < k)%nat) →
  Write n ctx rs vals w = Some w' →
  Forall2 (keeps_above hgt k)
          (SuperWrite ctx rs (clear_company_name vals) (rows w)) (rows w').
Proof.
  intros Hctx Hr Hrs. destruct n as [|n]; [done|]. rewrite Write_S, Hctx. cbv zeta.
  set (w1 := on_rows (SuperWrite ctx rs (clear_company_name vals)) w).
  change (SuperWrite ctx rs (clear_company_name vals) (rows w)) with (rows w1) in *.
  intros H.
  apply (for_each_steps _ (λ u, ranked hgt (rows u))
           (λ u u', Forall2 (keeps_above hgt k) (rows u) (rows u')))
    in H as [H _]; [done| | | |done].
  - intros u. reflexivity.
  - intros u1 u2 u3 ??. by etrans.
  - intros x u u' Hx Hu Hs.
    assert (Forall2 (keeps_above hgt (S (hgt x))) (rows u) (rows u')) as Huu.
    { eapply (FieldsSync_frame hgt n (hgt x) ctx [x]); [done| |exact Hs].
      by intros i ->%list_elem_of_singleton. }
    split.
    + eapply Forall2_keeps_above_mono; [|exact Huu]. apply Hrs in Hx. lia.
    + eapply ranked_keeps; [|exact Hu]. by eapply keeps_above_keeps.
Qed.

(** X12. [CreateCompany] on a partner with a company name, in a forest:
    it returns; one record is added, the company, named by the company
    name of the partner and without parent; the partner and the children
    it had are now children of the company, and the company name of the
    partner is cleared. *)
Theorem CreateCompany_moves_under_company
        (hgt : Z → nat) (ctx : Context) (c : Z) (w : World) (fuel : nat) :
  HasKey ctx "goto_super" = false → ranked hgt (rows w) →
  is_Some (find_row (rows w) c) → CompanyName (rows w) [c] ≠ "" →
  (hgt c < hgt (next_id (rows w)))%nat →
  (3 * hgt (next_id (rows w)) + 5 ≤ fuel)%nat →
  ∃ w', CreateCompany fuel ctx [c] w = Some w'
        ∧ map ID (rows w') = map ID (rows w) ++ [next_id (rows w)]
        ∧ Name (rows w') [next_id (rows w)] = CompanyName (rows w) [c]
        ∧ IsCompany (rows w') [next_id (rows w)] = true
        ∧ Parent (rows w') [next_id (rows w)] = []
        ∧ Parent (rows w') [c] = [next_id (rows w)]
        ∧ CompanyName (rows w') [c] = ""
        ∧ (∀ ch, ch ∈ Children (rows w) [c] →
                 Parent (rows w') [ch] = [next_id (rows w)])
        ∧ (IsCompany (rows w) [c] = false →
           ∀ f, f ∈ CommercialFields → Get (rows w') [c] f = zero_value f).
Proof.
  intros Hctx Hr Hc Hcn Hlt Hfuel.
  set (t := rows w) in *. set (n := next_id t) in *.
  set (cn := CompanyName t [c]) in *.
  set (values := <[FIsCompany := VBool true]>
                   (<[FName := VChar cn]> (UpdateFieldValues t [c] AddressFields))).
  assert (∀ f, f ∉ AddressFields → f ≠ FName → f ≠ FIsCompany → values !! f = None)
    as Hvalues.
  { intros f H1 H2 H3. unfold values.
    rewrite !lookup_insert_ne, lookup_UpdateFieldValues by done.
    by rewrite decide_False. }
  assert (values !! FParent = None) as HvP.
  { apply Hvalues; [|done..]. unfold AddressFields.
    rewrite !elem_of_cons, elem_of_nil. intuition congruence. }
  assert (clear_company_name values = values) as Hccn
    by (by apply clear_company_name_no_parent).
  set (r := apply_data (writable ctx values) (default_row n)).
  assert (ID r = n) as HIDr by apply ID_apply_data.
  assert (cParent r = None) as HrP.
  { unfold r. rewrite cParent_apply_data; [done|]. by rewrite writable_lookup_ne. }
  assert (snd (SuperCreate ctx values t) = recompute (t ++ [r])) as HtA0 by done.
  assert (ranked hgt (recompute (t ++ [r]))) as RA0.
  { eapply ranked_keeps; [apply recompute_keeps|]. by apply ranked_app_root. }
  (* the company is created *)
  destruct (Create_steps hgt ctx values w fuel) as (wA1 & wA & HA1 & HA2 & HA);
    [rewrite Hccn; exact RA0|fold t n; lia|].
  rewrite Hccn in HA1. fold t n in HA1, HA2, HA.
  change (snd (SuperCreate ctx values t)) with (recompute (t ++ [r])) in HA1.
  assert (Forall2 keeps (recompute (t ++ [r])) (rows wA1)) as KA1.
  { eapply keeps_above_keeps.
    by eapply (FieldsSync_frame hgt fuel (hgt n) ctx [n] values
                 (mkWorld (recompute (t ++ [r])) (sync_log w)));
      [|intros i ->%list_elem_of_singleton|]. }
  assert (Forall2 keeps (t ++ [r]) (rows wA)) as KA.
  { etrans; [apply recompute_keeps|]. etrans; [exact KA1|].
    by eapply HandleFirsrtContactCreation_keeps. }
  assert (ranked hgt (rows wA)) as RA.
  { eapply ranked_keeps; [exact KA|]. by apply ranked_app_root. }
  assert (is_Some (find_row (rows wA) c)) as HcA.
  { eapply keeps_find_row; [exact KA|]. by rewrite find_row_app. }
  (* the partner is moved under it *)
  set (valsP := {[FParent := VRef (ref_of [n])]} : PartnerData).
  set (dB := <[FCompanyName := VChar ""]> valsP).
  assert (clear_company_name valsP = dB) as HdB by done.
  assert (writable ctx dB !! FParent = Some (VRef (Some n))) as HdBP.
  { by rewrite writable_lookup_ne. }
  assert (ranked hgt (SuperWrite ctx [c] dB (rows wA))) as RB0.
  { eapply ranked_keeps; [apply SuperWrite_keeps_update|].
    eapply ranked_update_parent; [exact HdBP| |done].
    by intros i ->%list_elem_of_singleton. }
  destruct (Write_total_keeps hgt (hgt c) fuel ctx [c] valsP wA)
    as (wB & HB & KB);
    [done|by rewrite HdB|by intros i ->%list_elem_of_singleton|lia|].
  rewrite HdB in KB.
  assert (Forall2 keeps (update_rows [c] (writable ctx dB) (rows wA)) (rows wB)) as KBu.
  { etrans; [apply SuperWrite_keeps_update|exact KB]. }
  assert (ranked hgt (rows wB)) as RB.
  { eapply ranked_keeps; [exact KB|exact RB0]. }
  (* and so are its children *)
  set (chs := Children (rows wB) [c]).
  assert (∀ i, i ∈ chs → (hgt i < hgt c)%nat) as Hchs.
  { intros i Hi. by destruct (Children_ranked hgt _ _ _ RB Hi) as (j & [= <-] & ?). }
  assert (ranked hgt (SuperWrite ctx chs dB (rows wB))) as RC0.
  { eapply ranked_keeps; [apply SuperWrite_keeps_update|].
    eapply ranked_update_parent; [exact HdBP| |done].
    intros i Hi%Hchs. lia. }
  destruct (Write_total_keeps hgt (hgt c) fuel ctx chs valsP wB)
    as (wC & HC & KC);
    [done|by rewrite HdB|intros i Hi%Hchs; lia|lia|].
  rewrite HdB in KC.
  assert (Forall2 keeps (update_rows chs (writable ctx dB) (rows wB)) (rows wC)) as KCu.
  { etrans; [apply SuperWrite_keeps_update|exact KC]. }
  assert (n ∉ chs) as Hn by (intros Hi%Hchs; lia).
  assert (c ∉ chs) as Hcc by (intros Hi%Hchs; lia).
  assert (n ≠ c) as Hnc by (intros Heq; rewrite Heq in Hlt; lia).
  assert (chs = Children t [c]) as Hchs_eq.
  { unfold chs. rewrite (Children_keeps _ _ _ KBu).
    rewrite (Children_update_rows [c] _ _ c n HdBP); [| |done|].
    - rewrite (Children_keeps _ _ _ KA). by apply Children_app_root.
    - by rewrite writable_lookup_ne.
    - intros r0 Hr0 Heq%list_elem_of_singleton Hp.
      pose proof (RA r0 c Hr0 Hp) as Hlt'. rewrite Heq in Hlt'. lia. }
  exists wC. split.
  { unfold CreateCompany. fold t cn.
    rewrite (proj2 (String.eqb_neq cn "")) by done. cbn [negb]. cbv zeta.
    fold values. rewrite HA. cbn [mbind option_bind]. fold valsP.
    rewrite HB. cbn [mbind option_bind]. exact HC. }
  assert (∀ f, f ∉ synced_fields →
               Get (rows wA) [n] f = get_col f (apply_data values (default_row n)))
    as HnewA.
  { intros f Hf. rewrite (Get_keeps _ _ _ _ KA Hf). unfold Get.
    rewrite <-HIDr at 1. rewrite find_row_new by done.
    apply get_apply_writable. intros ->. apply Hf. unfold synced_fields.
    rewrite !elem_of_app, !elem_of_cons. auto. }
  split; [|split; [|split; [|split; [|split; [|split; [|split]]]]]].
  - rewrite (keeps_ids _ _ KCu). unfold update_rows. rewrite map_map.
    rewrite (map_ext _ ID) by (intros r0; destruct (bool_decide _);
                               [apply ID_apply_data|done]).
    rewrite (keeps_ids _ _ KBu). unfold update_rows. rewrite map_map.
    rewrite (map_ext _ ID) by (intros r0; destruct (bool_decide _);
                               [apply ID_apply_data|done]).
    rewrite (keeps_ids _ _ KA), map_app. simpl. by rewrite HIDr.
  - unfold Name.
    rewrite (Get_not_written _ _ _ _ _ _ _ KCu); [|apply (bool_decide_unpack _); by vm_compute|by left].
    rewrite (Get_not_written _ _ _ _ _ _ _ KBu); [|apply (bool_decide_unpack _); by vm_compute|right; done].
    rewrite HnewA by (apply (bool_decide_unpack _); by vm_compute).
    rewrite get_apply_data. unfold values.
    rewrite lookup_insert_ne, lookup_insert_eq by done. done.
  - unfold IsCompany.
    rewrite (Get_not_written _ _ _ _ _ _ _ KCu); [|apply not_synced_IsCompany|by left].
    rewrite (Get_not_written _ _ _ _ _ _ _ KBu); [|apply not_synced_IsCompany|right; done].
    rewrite HnewA by apply not_synced_IsCompany.
    rewrite get_apply_data. unfold values. by rewrite lookup_insert_eq.
  - unfold Parent.
    rewrite (Get_not_written _ _ _ _ _ _ _ KCu); [|apply not_synced_Parent|by left].
    rewrite (Get_not_written _ _ _ _ _ _ _ KBu); [|apply not_synced_Parent|left].
    + rewrite HnewA by apply not_synced_Parent.
      rewrite get_apply_data, HvP. done.
    + by intros ?%list_elem_of_singleton.
  - unfold Parent.
    rewrite (Get_not_written _ _ _ _ _ _ _ KCu); [|apply not_synced_Parent|by left].
    rewrite (Get_written _ _ _ _ _ _ _ (VRef (Some n)) KBu);
      [done|apply not_synced_Parent|left|done|done|done].
  - unfold CompanyName.
    rewrite (Get_not_written _ _ _ _ _ _ _ KCu); [|apply not_synced_CompanyName|by left].
    rewrite (Get_written _ _ _ _ _ _ _ (VChar "") KBu);
      [done|apply not_synced_CompanyName|left|done|done|done].
  - intros ch Hch. rewrite <-Hchs_eq in Hch. unfold Parent.
    rewrite (Get_written _ _ _ _ _ _ _ (VRef (Some n)) KCu);
      [done|apply not_synced_Parent|done| |done|done].
    by eapply Children_find_row.
  - intros Hperson f Hf.
    assert (f ≠ FCommercialPartner) as HfCP.
    { intros ->. revert Hf. unfold CommercialFields.
      rewrite !elem_of_cons, elem_of_nil. intuition congruence. }
    pose proof (not_address_commercial f Hf) as HfA.
    (* the children's write leaves the partner alone *)
    assert (Get (rows wC) [c] f = Get (rows wB) [c] f) as ->.
    { pose proof (Write_above hgt (hgt c) fuel ctx chs valsP wB wC Hctx) as HW.
      rewrite HdB in HW. specialize (HW RC0 Hchs HC).
      unfold Get at 1. rewrite (find_row_above hgt (hgt c) _ _ c HW) by lia.
      change (Get (SuperWrite ctx chs dB (rows wB)) [c] f = Get (rows wB) [c] f).
      unfold SuperWrite. assert (Has dB FParent || Has dB FIsCompany = true) as -> by done.
      rewrite Get_recompute, Get_update_rows by done.
      unfold Get. destruct (find_row (rows wB) c); [|done].
      by rewrite bool_decide_eq_false_2. }
    (* the partner's write pulls from the company *)
    set (tu := update_rows [c] (writable ctx dB) (rows wA)).
    assert (Forall2 keeps tu tu) as Ku by reflexivity.
    assert (is_Some (find_row (rows wA) n)) as HnA.
    { eapply keeps_find_row; [exact KA|]. rewrite <-HIDr. by rewrite find_row_new. }
    assert (SuperWrite ctx [c] dB (rows wA) = recompute tu) as HB0.
    { unfold SuperWrite. by assert (Has dB FParent || Has dB FIsCompany = true) as -> by done. }
    assert (CommercialPartner (SuperWrite ctx [c] dB (rows wA)) [c] = [n]) as Hcp.
    { rewrite HB0. apply CommercialPartner_recompute_child.
      - unfold tu. rewrite find_row_update_rows. by destruct HcA as [? ->].
      - unfold tu. rewrite find_row_update_rows. by destruct HnA as [? ->].
      - done.
      - unfold IsCompany.
        rewrite (Get_not_written _ _ _ _ _ _ _ Ku); [|apply not_synced_IsCompany|by right].
        rewrite (Get_keeps _ _ _ _ KA) by apply not_synced_IsCompany.
        unfold Get. rewrite find_row_app by done. exact Hperson.
      - unfold Parent.
        by rewrite (Get_written _ _ _ _ _ _ _ (VRef (Some n)) Ku);
          [|apply not_synced_Parent|left|done|done|done].
      - left. unfold IsCompany.
        rewrite (Get_not_written _ _ _ _ _ _ _ Ku); [|apply not_synced_IsCompany|by right].
        rewrite HnewA by apply not_synced_IsCompany.
        rewrite get_apply_data. unfold values. by rewrite lookup_insert_eq. }
    assert (Get (rows wB) [c] f = Get (SuperWrite ctx [c] dB (rows wA)) [n] f) as ->.
    { destruct fuel as [|m]; [lia|]. rewrite Write_S, Hctx, HdB in HB. cbv zeta in HB.
      cbn [for_each] in HB. apply bind_Some in HB as (w0 & HF & [= <-]).
      change (SuperWrite ctx [c] dB (rows wA))
        with (rows (on_rows (SuperWrite ctx [c] dB) wA)).
      eapply (FieldsSync_pulls_commercial hgt m ctx c n dB); [| | | |exact HF|done].
      - exact RB0.
      - done.
      - exact Hcp.
      - done. }
    rewrite HB0, Get_recompute by done. unfold tu.
    rewrite Get_update_rows. destruct HnA as [rn Hrn]. rewrite Hrn.
    rewrite bool_decide_eq_false_2 by (by intros ?%list_elem_of_singleton).
    change (get_col f rn) with (match Some rn with Some r0 => get_col f r0
                                | None => zero_value f end).
    rewrite <-Hrn. change (Get (rows wA) [n] f = zero_value f).
    (* the company has the commercial fields of a new record *)
    rewrite (HandleFirsrtContactCreation_rest _ _ _ _ _ n f HA2 HfA).
    rewrite (FieldsSync_own hgt fuel ctx n values
               (mkWorld (recompute (t ++ [r])) (sync_log w)) wA1 RA0);
      [| |exact HA1|done].
    + cbn [rows]. rewrite Get_recompute by done. unfold Get.
      rewrite <-HIDr at 1. rewrite find_row_new by done.
      unfold r. rewrite get_apply_writable, get_apply_data by done.
      rewrite Hvalues; [| done | |].
      * revert Hf. unfold CommercialFields. rewrite !elem_of_cons, elem_of_nil.
        by intros [->|[->|[]]].
      * intros ->. revert Hf. unfold CommercialFields.
        rewrite !elem_of_cons, elem_of_nil. intuition congruence.
      * intros ->. revert Hf. unfold CommercialFields.
        rewrite !elem_of_cons, elem_of_nil. intuition congruence.
    + unfold dParent, DGet. by rewrite HvP.
Qed.

Lemma CreateCompany_moves_under_company_witness :
  ∃ w', CreateCompany 11 [] [1] ex_solo = Some w'
        ∧ map ID (rows w') = map ID (rows ex_solo) ++ [next_id (rows ex_solo)]
        ∧ Name (rows w') [next_id (rows ex_solo)] = CompanyName (rows ex_solo) [1]
        ∧ IsCompany (rows w') [next_id (rows ex_solo)] = true
        ∧ Parent (rows w') [next_id (rows ex_solo)] = []
        ∧ Parent (rows w') [1] = [next_id (rows ex_solo)]
        ∧ CompanyName (rows w') [1] = ""
        ∧ (∀ ch, ch ∈ Children (rows ex_solo) [1] →
                 Parent (rows w') [ch] = [next_id (rows ex_solo)])
        ∧ (IsCompany (rows ex_solo) [1] = false →
           ∀ f, f ∈ CommercialFields → Get (rows w') [1] f = zero_value f).
Proof.
  apply (CreateCompany_moves_under_company ex_solo_hgt).
  - vm_compute. reflexivity.
  - apply ranked_b_ok. vm_compute. reflexivity.
  - vm_compute. eexists. reflexivity.
  - vm_compute. discriminate.
  - vm_compute. lia.
  - vm_compute. lia.
Defined.

(** ** The names of partner categories *)

Section category_names.
Import PartnerCategory.

Lemma split_name_end x token :
  no_slash x = true → split_from " / " x 0 token = [token +:+ x].
Proof.
  revert token. induction x as [|c x IH]; intros token Hx.
  - rewrite append_nil_r. reflexivity.
  - cbn [no_slash] in Hx. apply andb_true_iff in Hx as [Hc Hx].
    cbn [split_from].
    assert (HasPrefix (String c x) " / " = false) as ->.
    { cbn [HasPrefix]. destruct (Ascii.eqb " " c); [|done]. cbn [andb].
      destruct x as [|d x]; [done|]. cbn [no_slash] in Hx.
      apply andb_true_iff in Hx as [Hd _]. cbn [HasPrefix].
      rewrite Ascii.eqb_sym. by destruct (Ascii.eqb d "/"). }
    rewrite IH by done. by rewrite append_assoc.
Qed.

Lemma split_name_sep x rest token :
  no_slash x = true →
  split_from " / " (x +:+ " / " +:+ rest) 0 token
  = (token +:+ x) :: split_from " / " rest 0 "".
Proof.
  revert token. induction x as [|c x IH]; intros token Hx.
  - rewrite append_nil_r. reflexivity.
  - cbn [no_slash] in Hx. apply andb_true_iff in Hx as [Hc Hx].
    rewrite append_cons. cbn [split_from].
    assert (HasPrefix (String c (x +:+ " / " +:+ rest)) " / " = false) as ->.
    { cbn [HasPrefix]. destruct (Ascii.eqb " " c); [|done]. cbn [andb].
      destruct x as [|d x]; [done|]. cbn [no_slash] in Hx.
      apply andb_true_iff in Hx as [Hd _]. rewrite append_cons. cbn [HasPrefix].
      rewrite Ascii.eqb_sym. by destruct (Ascii.eqb d "/"). }
    rewrite IH by done. by rewrite append_assoc.
Qed.

(** Cutting a joined path gives the names back, when no name has a "/". *)
Lemma Split_Join names :
  names ≠ [] → Forall (λ x, no_slash x = true) names →
  Split (Join names " / ") " / " = names.
Proof.
  unfold Split. induction names as [|x names IH]; [done|]. intros _ Hall.
  apply Forall_cons in Hall as [Hx Hall].
  destruct names as [|y names].
  - cbn [Join]. by rewrite split_name_end.
  - change (Join (x :: y :: names) " / ")
      with (x +:+ " / " +:+ Join (y :: names) " / ").
    rewrite split_name_sep by done. by rewrite IH.
Qed.

Lemma no_slash_Name t rs :
  (∀ r, r ∈ t → no_slash (tag_Name r) = true) → no_slash (Name t rs) = true.
Proof.
  intros Ht. unfold Name. destruct rs as [|i rs]; [done|].
  unfold find_tag. destruct (find _ t) as [r|] eqn:E; [|done].
  apply find_some in E as [Hin _]. by apply Ht, list_elem_of_In.
Qed.

Lemma path_names_total t rs :
  (∀ r, r ∈ t → no_slash (tag_Name r) = true) → chain_ends t rs →
  ∃ N, ∀ fuel names, (N ≤ fuel)%nat →
    ∃ above, path_names fuel t rs names
             = Some (above ++ (if IsEmpty rs then names else Name t rs :: names))
             ∧ Forall (λ x, no_slash x = true) above.
Proof.
  intros Ht Hch. induction Hch as [rs Hroot|rs _ [N IH]].
  - exists 2%nat. intros fuel names Hf.
    destruct fuel as [|[|n]]; [lia..|]. exists []. split; [|constructor].
    cbn [path_names]. destruct (IsEmpty rs); [done|]. by rewrite Hroot.
  - exists (S N). intros fuel names Hf. destruct fuel as [|n]; [lia|].
    cbn [path_names]. destruct (IsEmpty rs) eqn:E.
    { exists []. split; [done|constructor]. }
    destruct (IH n (Name t rs :: names)) as (above & -> & Habove); [lia|].
    destruct (IsEmpty (Parent t rs)).
    + by exists above.
    + exists (above ++ [Name t (Parent t rs)]). split; [by rewrite <-app_assoc|].
      apply Forall_app. split; [done|]. apply Forall_singleton.
      by apply no_slash_Name.
Qed.

(** X13. The full name of a category and the search by it: when no
    category name has a "/" and the parent links of the category end,
    [NameGet] returns (unless the short display is asked for), and
    [SearchByName] on the name it gives searches by the name of the
    category itself. *)
Theorem SearchByName_NameGet
        (t : CategoryTable) (display : string) (super : CategorySet → string)
        (rs : CategorySet) :
  display ≠ "short" → rs ≠ [] →
  (∀ r, r ∈ t → no_slash (tag_Name r) = true) → chain_ends t rs →
  ∃ N, ∀ fuel, (N ≤ fuel)%nat →
    ∃ name, NameGet fuel t display super rs = Some name
            ∧ SearchByName name = Name t rs.
Proof.
  intros Hd Hrs Ht Hch. destruct (path_names_total t rs Ht Hch) as [N HN].
  exists N. intros fuel Hf. destruct (HN fuel [] Hf) as (above & Hp & Habove).
  unfold NameGet. rewrite (proj2 (String.eqb_neq display "short")) by done.
  rewrite Hp. cbn [mbind option_bind].
  assert (IsEmpty rs = false) as -> by (by destruct rs).
  eexists. split; [done|].
  assert (Split (Join (above ++ [Name t rs]) " / ") " / " = above ++ [Name t rs])
    as HS.
  { apply Split_Join; [by destruct above|].
    apply Forall_app. split; [done|]. apply Forall_singleton. by apply no_slash_Name. }
  unfold SearchByName.
  destruct (String.eqb (Join (above ++ [Name t rs]) " / ") "") eqn:E; cbn [negb].
  - apply String.eqb_eq in E. rewrite E in HS |- *.
    destruct above as [|a [|b above]]; by injection HS.
  - rewrite HS. apply last_last.
Qed.

Lemma SearchByName_NameGet_witness :
  ∃ N, ∀ fuel, (N ≤ fuel)%nat →
    ∃ name, NameGet fuel ex_tags "" (λ _, "") [3] = Some name
            ∧ SearchByName name = Name ex_tags [3].
Proof.
  apply (SearchByName_NameGet ex_tags "" (λ _, "") [3]).
  - discriminate.
  - discriminate.
  - intros r Hr. apply list_elem_of_In in Hr. simpl in Hr.
    destruct Hr as [<-|[<-|[<-|[]]]]; reflexivity.
  - apply chain_step, chain_step, chain_root. reflexivity.
Defined.

End category_names.

(** ** Commercial fields written on a contact *)

(** X14. A write of commercial fields on a record returns on a forest,
    leaves the record with the written values, and changes besides only
    records reached from it through children that are not companies: its
    parent, its company and every record elsewhere keep their rows, so what
    is written on a contact does not reach the company it belongs to. *)
Theorem Write_commercial_stays_below
        (hgt : Z → nat) (ctx : Context) (c : Z) (vals : PartnerData)
        (w : World) (fuel : nat) :
  ranked hgt (rows w) →
  (∀ f, is_Some (vals !! f) → f ∈ CommercialFields) →
  (3 * hgt c + 5 ≤ fuel)%nat →
  ∃ w', Write fuel ctx [c] vals w = Some w'
        ∧ (∀ f v, vals !! f = Some v → fits f v = true →
                  is_Some (find_row (rows w) c) → Get (rows w') [c] f = v)
        ∧ (∀ i, i ≠ c → ¬ within_company (rows w) c i →
                find_row (rows w') i = find_row (rows w) i).
Proof.
  intros Hr Hvals Hfuel.
  assert (commercial_only vals) as Hco by (intros f Hf; left; by apply Hvals).
  assert (only_synced vals) as Hos by (by apply commercial_only_synced).
  assert (vals !! FParent = None) as HP.
  { destruct (vals !! FParent) eqn:E; [|done].
    destruct not_synced_Parent. apply Hos. by rewrite E. }
  destruct (Write_column hgt (hgt c) fuel ctx [c] vals w) as (w' & Hw' & _);
    [done|done|by intros i ->%list_elem_of_singleton|done|].
  exists w'. split; [done|]. split.
  - intros f v Hv Hfit Hc.
    assert (f ∈ CommercialFields) as Hf by (apply Hvals; by rewrite Hv).
    assert (Get (SuperWrite ctx [c] vals (rows w)) [c] f = v) as H0.
    { apply SuperWrite_sets_own; [done..| |done].
      intros ->. revert Hf. unfold CommercialFields.
      rewrite !elem_of_cons, elem_of_nil. intuition congruence. }
    destruct fuel as [|n]; [lia|]. rewrite Write_S in Hw'.
    destruct (HasKey ctx "goto_super"); [by injection Hw' as <-|].
    rewrite clear_company_name_no_parent in Hw' by done. cbv zeta in Hw'.
    cbn [for_each] in Hw'. apply bind_Some in Hw' as (w0 & HF & [= <-]).
    rewrite <-H0.
    change (SuperWrite ctx [c] vals (rows w))
      with (rows (on_rows (SuperWrite ctx [c] vals) w)).
    eapply (FieldsSync_own hgt n ctx c vals); [|by apply only_synced_dParent|exact HF|].
    + unfold on_rows; cbn [rows]. eapply ranked_keeps; [|exact Hr].
      eapply touches_keeps. by apply SuperWrite_touches.
    + by apply not_address_commercial.
  - intros i Hi Hout. destruct (push_reach fuel) as (HW & _ & _).
    apply (touches_find_row _ _ _ _ (HW ctx [c] vals w w' Hco Hw')).
    intros [Hin|(y & Hy & Hin)].
    + by apply list_elem_of_singleton in Hin.
    + apply list_elem_of_singleton in Hy. by subst y.
Qed.

Lemma Write_commercial_stays_below_witness :
  ∃ w', Write 8 [] [2] {[FVAT := VChar "FR2"]} ex_world = Some w'
        ∧ (∀ f v, ({[FVAT := VChar "FR2"]} : PartnerData) !! f = Some v →
                  fits f v = true →
                  is_Some (find_row (rows ex_world) 2) → Get (rows w') [2] f = v)
        ∧ (∀ i, i ≠ 2 → ¬ within_company (rows ex_world) 2 i →
                find_row (rows w') i = find_row (rows ex_world) i).
Proof.
  apply (Write_commercial_stays_below ex_hgt).
  - apply ranked_b_ok. vm_compute. reflexivity.
  - intros f [v Hv]. apply lookup_singleton_Some in Hv as [<- _]. left.
  - vm_compute. lia.
Defined.

(** ** [AddressGet] and the company boundaries *)

Lemma scan_reach t rs (atMap : gset string) x y :
  x ∈ rs → climbs t x y →
  ∀ n q result visited flow,
    (∀ record, record ∈ q →
               ∃ z, record = [z] ∧ (z = y ∨ within_company t y z)) →
    (∀ k v, result !! k = Some v → in_reach t rs v) →
    scan n t atMap q result visited = Some flow →
    ∀ k v, flow_result flow !! k = Some v → in_reach t rs v.
Proof.
  intros Hx Hy. induction n as [|n IH]; [done|].
  intros q result visited flow Hq Hres. destruct q as [|record q]; [by intros [= <-]|].
  rewrite scan_cons. cbv zeta.
  destruct (Hq record) as (z & -> & Hz); [left|].
  set (result' := if _ && _ then _ else result).
  assert (∀ k v, result' !! k = Some v → in_reach t rs v) as Hres'.
  { unfold result'. destruct (_ && _); [|done].
    intros k v [[<- <-]|[_ Hk]]%lookup_insert_Some; [|by eapply Hres].
    by exists x, y, z. }
  destruct (_ =? _)%nat; [by intros [= <-]|].
  apply IH; [|done].
  intros record [Hrec|Hrec]%elem_of_app; [apply Hq; by right|].
  apply list_elem_of_fmap in Hrec as (ch & -> & Hin).
  exists ch. split; [done|]. right.
  assert (ch ∈ person_children t [z]) as Hch.
  { apply list_elem_of_filter in Hin as [HP Hin].
    apply andb_prop_elim in HP as [_ HP].
    unfold person_children. by apply list_elem_of_filter. }
  destruct Hz as [->|Hz]; [by apply within_child|by eapply within_company_step].
Qed.

Lemma climb_reach t rs (atMap : gset string) x :
  x ∈ rs →
  ∀ n y result visited flow,
    climbs t x y →
    (∀ k v, result !! k = Some v → in_reach t rs v) →
    climb n t atMap [y] result visited = Some flow →
    ∀ k v, flow_result flow !! k = Some v → in_reach t rs v.
Proof.
  intros Hx. induction n as [|n IH]; [done|].
  intros y result visited flow Hy Hres. rewrite climb_S. cbn [IsEmpty].
  destruct (scan n t atMap [[y]] result visited) as [[r|r v]|] eqn:E; [| |done].
  - intros [= <-]. eapply (scan_reach t rs atMap x y Hx Hy); [|exact Hres|exact E].
    intros record ->%list_elem_of_singleton. exists y. by split; [|left].
  - assert (∀ k u, r !! k = Some u → in_reach t rs u) as Hr.
    { eapply (scan_reach t rs atMap x y Hx Hy _ _ _ _ (Continue r v));
        [|exact Hres|exact E].
      intros record ->%list_elem_of_singleton. exists y. by split; [|left]. }
    destruct (IsCompany t [y]) eqn:Hco; [by intros [= <-]|].
    destruct (Parent_cases t [y]) as [->|[p Hp]]; [by intros [= <-]|].
    rewrite Hp. cbn [IsEmpty orb]. apply IH; [|done]. by eapply climbs_up.
Qed.

Lemma seeds_reach t rs (atMap : gset string) n partners :
  (∀ x, x ∈ partners → x ∈ rs) →
  ∀ result visited flow,
    (∀ k v, result !! k = Some v → in_reach t rs v) →
    seeds n t atMap partners result visited = Some flow →
    ∀ k v, flow_result flow !! k = Some v → in_reach t rs v.
Proof.
  induction partners as [|x partners IH]; intros Hin result visited flow Hres.
  { by intros [= <-]. }
  cbn [seeds].
  assert (x ∈ rs) as Hx by (apply Hin; left).
  destruct (climb n t atMap [x] result visited) as [[r|r v]|] eqn:E; [| |done].
  - intros [= <-].
    eapply (climb_reach t rs atMap x Hx); [apply climbs_here|exact Hres|exact E].
  - apply IH; [intros y Hy; apply Hin; by right|].
    eapply (climb_reach t rs atMap x Hx n x result visited (Continue r v));
      [apply climbs_here|exact Hres|exact E].
Qed.

(** X15. [AddressGet] keeps within the company: every answer other than
    the queried set itself is a record the search climbs to from a queried
    record, going up only from records that are not companies, or a record
    found from there through active children that are not companies. *)
Theorem AddressGet_within_company
        (t : Table) (rs : PartnerSet) (addrTypes : list string) :
  unique_ids t → (∀ x, x ∈ rs → chain_ends t [x]) →
  ∃ N, ∀ fuel, (N ≤ fuel)%nat →
    ∃ m, AddressGet fuel t rs addrTypes = Some m
         ∧ ∀ k v, m !! k = Some v → v = rs ∨ in_reach t rs v.
Proof.
  intros Hu Hrs.
  set (atMap := {["contact"]} ∪ list_to_set addrTypes : gset string).
  destruct (seeds_total t atMap rs Hu Hrs) as [N HN].
  exists N. intros fuel Hfuel.
  destruct (HN fuel ∅ ∅ Hfuel) as [flow Hflow].
  assert (∀ k v, flow_result flow !! k = Some v → in_reach t rs v) as Hreach.
  { eapply (seeds_reach t rs atMap fuel rs); [done| |exact Hflow].
    intros k v. by rewrite lookup_empty. }
  unfold AddressGet. fold atMap. rewrite Hflow.
  destruct flow as [r|r v]; cbn [flow_result] in Hreach.
  - exists r. split; [done|]. intros k u Hk. right. by eapply Hreach.
  - eexists. split; [done|]. intros k u Hk.
    apply defaults_from in Hk as [Hk|[_ ->]]; [right; by eapply Hreach|].
    destruct (r !! "contact") as [ct|] eqn:E; cbn [default]; [right|by left].
    by eapply Hreach.
Qed.

Lemma AddressGet_within_company_witness :
  ∃ N, ∀ fuel, (N ≤ fuel)%nat →
    ∃ m, AddressGet fuel ex_table [3] ["invoice"] = Some m
         ∧ ∀ k v, m !! k = Some v → v = [3] ∨ in_reach ex_table [3] v.
Proof.
  apply (AddressGet_within_company ex_table [3] ["invoice"]).
  - apply unique_ids_ok. vm_compute. reflexivity.
  - intros x Hx. apply list_elem_of_singleton in Hx. subst x.
    apply (chain_ends_b_ok 3). vm_compute. reflexivity.
Defined.

(** ** A new parent and the records below *)

Global Instance own_touch_refl c : Reflexive (own_touch c).
Proof. by intros r. Qed.

Global Instance own_touch_trans c : Transitive (own_touch c).
Proof.
  intros r1 r2 r3 (K1 & H1 & C1) (K2 & H2 & C2).
  split; [by etrans|]. split; [|congruence].
  intros Hc. rewrite H2, H1; [done..|]. destruct K1 as [-> _]. done.
Qed.

Lemma own_touch_keeps c t t' : Forall2 (own_touch c) t t' → Forall2 keeps t t'.
Proof. intros H. eapply Forall2_impl; [exact H|]. by intros r r' [? _]. Qed.

Lemma own_touch_find_row c t t' i :
  Forall2 (own_touch c) t t' → i ≠ c → find_row t' i = find_row t i.
Proof.
  intros Ht Hi.
  pose proof (find_row_Forall2 (own_touch c) t t' i (λ r r' HR, proj1 (proj1 HR)) Ht)
    as H.
  destruct (find_row t i) as [r|] eqn:E.
  - inversion H as [r0 r' (_ & Hr & _)|]; subst.
    apply find_row_Some in E as [_ <-]. by rewrite Hr.
  - by inversion H.
Qed.

Lemma own_touch_CommercialPartner c t t' rs :
  Forall2 (own_touch c) t t' → CommercialPartner t' rs = CommercialPartner t rs.
Proof.
  intros Ht. unfold CommercialPartner, Get. destruct rs as [|i rs]; [done|].
  pose proof (find_row_Forall2 (own_touch c) t t' i (λ r r' HR, proj1 (proj1 HR)) Ht)
    as H.
  inversion H as [r r' (_ & _ & Hr)|]; [|done]. simpl. by rewrite Hr.
Qed.

(** A write, in the store, of synchronised columns other than the
    commercial partner on the one record. *)
Lemma SuperWrite_own_touch ctx c d t :
  only_synced d → d !! FCommercialPartner = None →
  Forall2 (own_touch c) t (SuperWrite ctx [c] d t).
Proof.
  intros Hd Hcp. rewrite SuperWrite_plain by done.
  apply update_rows_Forall2; [apply _|].
  intros r _ Hr%list_elem_of_singleton.
  split; [by apply apply_data_keeps, only_synced_writable|]. split; [done|].
  pose proof (get_apply_data (writable ctx d) FCommercialPartner r) as H.
  assert (writable ctx d !! FCommercialPartner = None) as Hw.
  { unfold writable. destruct (HasKey _ _); [done|]. by rewrite lookup_delete_eq. }
  rewrite Hw in H. simpl in H. by injection H.
Qed.

Lemma UpdateAddress_own_touch n ctx c vals w w' :
  UpdateAddress_with (Write n) ctx [c] vals w = Some w' →
  Forall2 (own_touch c) (rows w) (rows w').
Proof.
  unfold UpdateAddress_with. set (res := foldl _ _ _).
  destruct (_ =? _)%nat; [by intros [= <-]|].
  destruct n as [|n]; [done|].
  rewrite Write_goto_super by apply HasKey_WithContext. intros [= <-].
  apply SuperWrite_own_touch; [apply only_synced_address_part|].
  unfold res. rewrite lookup_address_part. rewrite decide_False; [done|].
  unfold AddressFields. rewrite !elem_of_cons, elem_of_nil. intuition congruence.
Qed.

(** When the children of a record have its commercial partner, which is
    another record, and no address is written, [FieldsSync] changes the
    record only. *)
Lemma FieldsSync_no_push hgt c cp n :
  c ≠ cp →
  ∀ ctx vals w w',
    ranked hgt (rows w) →
    CommercialPartner (rows w) [c] = [cp] →
    (∀ d, d ∈ person_children (rows w) [c] → CommercialPartner (rows w) [d] = [cp]) →
    existsb (Has vals) AddressFields = false →
    FieldsSync n ctx [c] vals w = Some w' →
    Forall2 (own_touch c) (rows w) (rows w').
Proof.
  intros Hne. induction n as [n IH] using lt_wf_ind. destruct n as [|n]; [done|].
  intros ctx vals w w' Hr Hcp Hch Hva. rewrite FieldsSync_S. intros H.
  assert (Equals [c] [cp] = false) as HE.
  { unfold Equals. cbn [length forallb]. rewrite bool_decide_eq_false_2; [done|].
    intros ?%list_elem_of_singleton. by apply Hne. }
  (* what a state reached by touching [c] still has *)
  assert (∀ u, Forall2 (own_touch c) (rows w) (rows u) →
               ranked hgt (rows u)
               ∧ CommercialPartner (rows u) [c] = [cp]
               ∧ ∀ d, d ∈ person_children (rows u) [c] →
                      CommercialPartner (rows u) [d] = [cp]) as Hinv.
  { intros u Hu. pose proof (own_touch_keeps _ _ _ Hu) as Ku.
    split; [by eapply ranked_keeps|].
    split; [by rewrite (own_touch_CommercialPartner _ _ _ _ Hu)|].
    intros d Hd. rewrite (person_children_keeps _ _ _ Ku) in Hd.
    rewrite (own_touch_CommercialPartner _ _ _ _ Hu). by apply Hch. }
  apply bind_Some in H as (w1 & H1 & H).
  assert (Forall2 (own_touch c) (rows w) (rows w1)) as T1.
  { unfold sync_from_company in H1.
    destruct (negb _); [|by injection H1 as <-].
    unfold CommercialSyncFromCompany_with in H1. cbn [rows log_sync] in H1.
    rewrite Hcp, HE in H1.
    set (data := UpdateFieldValues (rows w) [cp] CommercialFields) in H1.
    assert (only_synced data) as Hdata by apply only_synced_commercial.
    assert (data !! FCommercialPartner = None) as HdataCP.
    { unfold data. rewrite lookup_UpdateFieldValues. rewrite decide_False; [done|].
      unfold CommercialFields. rewrite !elem_of_cons, elem_of_nil.
      intuition congruence. }
    assert (Forall2 (own_touch c) (rows w) (SuperWrite ctx [c] data (rows w))) as T0
      by (by apply SuperWrite_own_touch).
    destruct n as [|m]; [done|]. rewrite Write_S in H1.
    destruct (HasKey ctx "goto_super"); [by injection H1 as <-|].
    rewrite clear_company_name_synced in H1 by done. cbv zeta in H1.
    cbn [for_each] in H1. apply bind_Some in H1 as (w0 & HF & [= <-]).
    etrans; [exact T0|].
    destruct (Hinv (on_rows (SuperWrite ctx [c] data) (log_sync [c] w)) T0)
      as (R0 & C0 & D0).
    eapply (IH m ltac:(lia) ctx data
              (on_rows (SuperWrite ctx [c] data) (log_sync [c] w)) w0);
      [exact R0|exact C0|exact D0| |exact HF].
    apply commercial_only_no_address. intros f Hf. left.
    destruct Hf as [v Hv]. unfold data in Hv. rewrite lookup_UpdateFieldValues in Hv.
    by destruct (decide (f ∈ CommercialFields)). }
  destruct (Hinv w1 T1) as (R1 & C1 & D1).
  apply bind_Some in H as (w2 & H2 & H).
  assert (Forall2 (own_touch c) (rows w1) (rows w2)) as T2.
  { unfold sync_address_from_parent in H2.
    destruct (_ && _); [|by injection H2 as <-].
    by eapply UpdateAddress_own_touch. }
  assert (Forall2 (own_touch c) (rows w) (rows w2)) as T12 by (by etrans).
  destruct (Hinv w2 T12) as (R2 & C2 & D2).
  destruct (IsEmpty _); [by injection H as <-|].
  apply bind_Some in H as (w3 & H3 & H).
  unfold sync_to_children in H3. rewrite C2, HE in H3. cbn [andb] in H3.
  injection H3 as <-.
  apply bind_Some in H as (w4 & H4 & H).
  unfold sync_to_new_children in H4.
  assert (existsb (λ child, negb (Equals (CommercialPartner (rows w2) [child])
                                         (CommercialPartner (rows w2) [c])))
                  (person_children (rows w2) [c]) = false) as HX.
  { apply not_true_is_false. intros HX. apply existsb_exists in HX as (d & Hd & HX).
    apply list_elem_of_In in Hd. rewrite (D2 d Hd), C2, Equals_singleton in HX. done. }
  rewrite HX in H4. injection H4 as <-.
  unfold sync_address_to_children in H. rewrite Hva in H. by injection H as <-.
Qed.

Lemma address_keys_clear_company_name vals :
  existsb (Has (clear_company_name vals)) AddressFields
  = existsb (Has vals) AddressFields.
Proof.
  unfold Has. cbn [existsb AddressFields].
  by rewrite !lookup_clear_company_name by done.
Qed.

(** X16. A write that gives a record a parent, and no address, changes
    nothing but that record once the values are stored: the record takes
    the commercial fields of its commercial partner, while the records
    below it, whose commercial partner is now the same, keep the commercial
    fields they had. *)
Theorem Write_parent_leaves_children
        (hgt : Z → nat) (ctx : Context) (c cp : Z) (vals : PartnerData)
        (w : World) (fuel : nat) :
  HasKey ctx "goto_super" = false → dParent vals ≠ [] →
  existsb (Has vals) AddressFields = false →
  ranked hgt (SuperWrite ctx [c] (clear_company_name vals) (rows w)) →
  CommercialPartner (SuperWrite ctx [c] (clear_company_name vals) (rows w)) [c] = [cp] →
  (∀ d, d ∈ person_children (SuperWrite ctx [c] (clear_company_name vals) (rows w)) [c] →
        CommercialPartner (SuperWrite ctx [c] (clear_company_name vals) (rows w)) [d]
        = [cp]) →
  (hgt c < hgt cp)%nat → (3 * hgt c + 5 ≤ fuel)%nat →
  ∃ w', Write fuel ctx [c] vals w = Some w'
        ∧ (∀ f, f ∈ CommercialFields →
                Get (rows w') [c] f
                = Get (SuperWrite ctx [c] (clear_company_name vals) (rows w)) [cp] f)
        ∧ (∀ i, i ≠ c →
                find_row (rows w') i
                = find_row (SuperWrite ctx [c] (clear_company_name vals) (rows w)) i).
Proof.
  intros Hctx Hd Hva Hr Hcp Hch Hlt Hfuel. destruct fuel as [|n]; [lia|].
  rewrite Write_S, Hctx. cbv zeta.
  set (w1 := on_rows (SuperWrite ctx [c] (clear_company_name vals)) w).
  change (SuperWrite ctx [c] (clear_company_name vals) (rows w)) with (rows w1) in *.
  destruct (FieldsSync_total hgt (hgt c) n ctx [c] (clear_company_name vals) w1)
    as [w' Hw']; [done|by intros i ->%list_elem_of_singleton|lia|].
  assert (c ≠ cp) as Hne by (intros ->; lia).
  exists w'. split; [simpl; by rewrite Hw'|]. split.
  - intros f Hf.
    eapply (FieldsSync_pulls_commercial hgt n ctx c cp (clear_company_name vals) w1 w');
      try done.
    by rewrite dParent_clear_company_name.
  - intros i Hi. eapply (own_touch_find_row c); [|done].
    eapply (FieldsSync_no_push hgt c cp n Hne ctx (clear_company_name vals) w1 w');
      try done.
    by rewrite address_keys_clear_company_name.
Qed.

Lemma Write_parent_leaves_children_witness :
  ∃ w', Write 8 [] [4] {[FParent := VRef (Some 1)]} ex_join = Some w'
        ∧ (∀ f, f ∈ CommercialFields →
                Get (rows w') [4] f
                = Get (SuperWrite [] [4] (clear_company_name {[FParent := VRef (Some 1)]})
                                  (rows ex_join)) [1] f)
        ∧ (∀ i, i ≠ 4 →
                find_row (rows w') i
                = find_row (SuperWrite [] [4]
                                       (clear_company_name {[FParent := VRef (Some 1)]})
                                       (rows ex_join)) i).
Proof.
  apply (Write_parent_leaves_children ex_join_hgt [] 4 1).
  - vm_compute. reflexivity.
  - vm_compute. discriminate.
  - vm_compute. reflexivity.
  - apply ranked_b_ok. vm_compute. reflexivity.
  - vm_compute. reflexivity.
  - intros d Hd.
    assert (d = 5) as ->.
    { vm_compute in Hd. apply list_elem_of_singleton in Hd. exact Hd. }
    vm_compute. reflexivity.
  - vm_compute. lia.
  - vm_compute. lia.
Defined.

(** ** The displayed name of a partner *)

Lemma lacks_app c s1 s2 :
  lacks c s1 = true → lacks c s2 = true → lacks c (s1 +:+ s2) = true.
Proof.
  intros H1 H2. induction s1 as [|d s1 IH]; [done|].
  rewrite append_cons. cbn [lacks] in *.
  apply andb_true_iff in H1 as [-> H1]. by rewrite IH.
Qed.

Lemma lacks_tokens c s token :
  lacks c token = true →
  Forall (λ x, lacks c x = true) (PartnerCategory.split_from (String c "") s 0 token).
Proof.
  revert token. induction s as [|d s IH]; intros token Ht.
  - by apply Forall_singleton.
  - cbn [PartnerCategory.split_from PartnerCategory.HasPrefix].
    rewrite andb_true_r. destruct (Ascii.eqb c d) eqn:E.
    + apply Forall_cons. split; [done|]. by apply IH.
    + apply IH. apply lacks_app; [done|]. cbn [lacks].
      by rewrite Ascii.eqb_sym, E.
Qed.

Lemma lacks_Join c l new :
  Forall (λ x, lacks c x = true) l → lacks c new = true →
  lacks c (PartnerCategory.Join l new) = true.
Proof.
  intros Hl Hn. induction Hl as [|x l Hx Hl IH]; [done|].
  destruct l as [|y l]; [done|].
  change (PartnerCategory.Join (x :: y :: l) new)
    with (x +:+ new +:+ PartnerCategory.Join (y :: l) new).
  apply lacks_app; [done|]. by apply lacks_app.
Qed.

Lemma lacks_Replace c s new :
  lacks c new = true → lacks c (Replace s (String c "") new) = true.
Proof. intros Hn. apply lacks_Join; [|done]. by apply lacks_tokens. Qed.

(** X17. [NameGet] fails only where the address it is asked to show
    cannot be formatted; and under [html_format] the name it gives has no
    line break left, whatever the name, the address and the formatted email
    hold. *)
Theorem NameGet_html_has_no_line_break
        (cat : Catalog) (t : Table) (flags : NameFlags)
        (Email EmailFormatted : string) (rs : PartnerSet) :
  match NameGet cat t flags Email EmailFormatted rs with
  | Some name => html_format flags = true → lacks "010" name = true
  | None =>
      (show_address_only flags = true ∨ show_address flags = true)
      ∧ DisplayAddress cat t rs true = None
  end.
Proof.
  unfold NameGet. cbv zeta.
  set (name0 := if _ || _ then _ else Name t rs).
  destruct (show_address_only flags) eqn:E1, (show_address flags) eqn:E2,
           (DisplayAddress cat t rs true) as [address|] eqn:EA;
    cbn [mbind option_bind]; try (split; [tauto|done]);
    intros ->; by apply lacks_Replace.
Qed.

(** ** The commercial fields of a new contact *)

(** X18. A record created with a parent, in a forest, comes out of
    [Create] with the commercial fields of its commercial partner, whose
    commercial fields the creation does not change. *)
Theorem Create_pulls_commercial
        (hgt : Z → nat) (ctx : Context) (cp : Z) (vals : PartnerData)
        (w : World) (fuel : nat) :
  dParent vals ≠ [] →
  ranked hgt (snd (SuperCreate ctx (clear_company_name vals) (rows w))) →
  CommercialPartner (snd (SuperCreate ctx (clear_company_name vals) (rows w)))
                    [next_id (rows w)] = [cp] →
  (hgt (next_id (rows w)) < hgt cp)%nat →
  (3 * hgt (next_id (rows w)) + 4 ≤ fuel)%nat →
  ∃ w', Create fuel ctx vals w = Some ([next_id (rows w)], w')
        ∧ ∀ f, f ∈ CommercialFields →
               Get (rows w') [next_id (rows w)] f = Get (rows w') [cp] f
               ∧ Get (rows w') [cp] f
                 = Get (snd (SuperCreate ctx (clear_company_name vals) (rows w))) [cp] f.
Proof.
  intros Hd Hr Hcp Hlt Hfuel.
  destruct (Create_steps hgt ctx vals w fuel Hr Hfuel) as (w1 & w' & H1 & H2 & HC).
  exists w'. split; [done|]. intros f Hf.
  set (c := next_id (rows w)) in *.
  set (t1 := snd (SuperCreate ctx (clear_company_name vals) (rows w))) in *.
  pose proof (not_address_commercial f Hf) as HfA.
  rewrite !(HandleFirsrtContactCreation_rest _ _ _ _ _ _ f H2 HfA).
  assert (Get (rows w1) [cp] f = Get t1 [cp] f) as Hcpf.
  { unfold Get.
    rewrite (find_row_above hgt (S (hgt c)) t1 (rows w1)); [done| |lia].
    eapply (FieldsSync_frame hgt fuel (hgt c) ctx [c] _ (mkWorld t1 (sync_log w)));
      [done|by intros i ->%list_elem_of_singleton|exact H1]. }
  split; [|done]. rewrite Hcpf.
  eapply (FieldsSync_pulls_commercial hgt fuel ctx c cp (clear_company_name vals)
            (mkWorld t1 (sync_log w)) w1); try done.
  - by rewrite dParent_clear_company_name.
  - intros Heq. rewrite Heq in Hlt. lia.
Qed.

Lemma Create_pulls_commercial_witness :
  ∃ w', Create 4 [] ex_new_contact ex_world = Some ([next_id (rows ex_world)], w')
        ∧ ∀ f, f ∈ CommercialFields →
               Get (rows w') [next_id (rows ex_world)] f = Get (rows w') [1] f
               ∧ Get (rows w') [1] f
                 = Get (snd (SuperCreate [] (clear_company_name ex_new_contact)
                                         (rows ex_world))) [1] f.
Proof.
  apply (Create_pulls_commercial ex_hgt [] 1).
  - vm_compute. discriminate.
  - apply ranked_b_ok. vm_compute. reflexivity.
  - vm_compute. reflexivity.
  - vm_compute. lia.
  - vm_compute. lia.
Defined.

(** ** Commercial fields that are cleared *)

Global Instance address_touch_refl c : Reflexive (address_touch c).
Proof. by intros r. Qed.

Global Instance address_touch_trans c : Transitive (address_touch c).
Proof.
  intros r1 r2 r3 (I1 & H1 & C1) (I2 & H2 & C2).
  split; [congruence|]. split.
  - intros Hc. rewrite H2, H1; [done..|]. by rewrite I1.
  - intros f Hf. by rewrite C2, C1.
Qed.

Lemma address_touch_keeps c t t' : Forall2 (address_touch c) t t' → Forall2 keeps t t'.
Proof.
  intros H. eapply Forall2_impl; [exact H|]. intros r r' (HI & _ & HC).
  split; [done|]. intros f Hf. apply HC. intros Hin. by apply Hf, AddressFields_synced.
Qed.

Lemma address_touch_find_row c t t' i :
  Forall2 (address_touch c) t t' → i ≠ c → find_row t' i = find_row t i.
Proof.
  intros Ht Hi.
  pose proof (find_row_Forall2 (address_touch c) t t' i (λ r r' HR, proj1 HR) Ht) as H.
  destruct (find_row t i) as [r|] eqn:E.
  - inversion H as [r0 r' (_ & Hr & _)|]; subst.
    apply find_row_Some in E as [_ <-]. by rewrite Hr.
  - by inversion H.
Qed.

Lemma address_touch_Get c t t' rs f :
  Forall2 (address_touch c) t t' → f ∉ AddressFields → Get t' rs f = Get t rs f.
Proof.
  intros Ht Hf. unfold Get. destruct rs as [|i rs]; [done|].
  pose proof (find_row_Forall2 (address_touch c) t t' i (λ r r' HR, proj1 HR) Ht) as H.
  inversion H as [r r' (_ & _ & Hr)|]; [|done]. by apply Hr.
Qed.

Lemma UpdateAddress_address_touch n ctx c vals w w' :
  UpdateAddress_with (Write n) ctx [c] vals w = Some w' →
  Forall2 (address_touch c) (rows w) (rows w').
Proof.
  unfold UpdateAddress_with. set (res := foldl _ _ _).
  destruct (_ =? _)%nat; [by intros [= <-]|].
  destruct n as [|n]; [done|].
  rewrite Write_goto_super by apply HasKey_WithContext. intros [= <-].
  unfold on_rows; cbn [rows].
  rewrite SuperWrite_plain by apply only_synced_address_part.
  apply update_rows_Forall2; [apply _|].
  intros r _ Hr%list_elem_of_singleton.
  split; [apply ID_apply_data|]. split; [done|].
  intros f Hf. rewrite get_apply_data.
  assert (writable (WithContext "goto_super" ctx) res !! f = None) as ->; [|done].
  assert (res !! f = None) as Hres.
  { unfold res. rewrite lookup_address_part. by rewrite decide_False. }
  unfold writable. destruct (HasKey _ _); [done|].
  destruct (decide (f = FCommercialPartner)) as [->|Hne];
    [apply lookup_delete_eq|by rewrite lookup_delete_ne].
Qed.

(** On a commercial entity whose commercial fields are all empty, and
    whose children have it as commercial partner, [FieldsSync] without
    address among the values changes address columns of the entity only:
    nothing is pushed down. *)
Lemma FieldsSync_entity_quiet hgt b n ctx vals w w' :
  ranked hgt (rows w) → CommercialPartner (rows w) [b] = [b] →
  any_nonzero (rows w) [b] CommercialFields = false →
  (∀ d, d ∈ person_children (rows w) [b] → CommercialPartner (rows w) [d] = [b]) →
  existsb (Has vals) AddressFields = false →
  FieldsSync n ctx [b] vals w = Some w' →
  Forall2 (address_touch b) (rows w) (rows w').
Proof.
  intros Hr Hcp Hz Hch Hva. destruct n as [|n]; [done|]. rewrite FieldsSync_S.
  intros H. apply bind_Some in H as (w1 & H1 & H).
  assert (w1 = log_sync [b] w) as ->.
  { unfold sync_from_company in H1. destruct (negb _); [|by injection H1].
    unfold CommercialSyncFromCompany_with in H1. cbn [rows log_sync] in H1.
    rewrite Hcp, Equals_singleton in H1. by injection H1. }
  apply bind_Some in H as (w2 & H2 & H).
  assert (Forall2 (address_touch b) (rows w) (rows w2)) as T2.
  { unfold sync_address_from_parent in H2.
    destruct (_ && _); [|by injection H2 as <-].
    by eapply UpdateAddress_address_touch in H2. }
  assert (CommercialPartner (rows w2) [b] = [b]) as C2.
  { unfold CommercialPartner. rewrite (address_touch_Get b _ _ _ _ T2); [done|].
    unfold AddressFields. rewrite !elem_of_cons, elem_of_nil. intuition congruence. }
  destruct (IsEmpty _); [by injection H as <-|].
  apply bind_Some in H as (w3 & H3 & H).
  unfold sync_to_children in H3.
  assert (any_nonzero (rows w2) [b] CommercialFields = false) as Z2.
  { rewrite <-Hz. unfold any_nonzero. cbn [existsb CommercialFields].
    rewrite !(address_touch_Get b _ _ _ _ T2); [done|..];
      unfold AddressFields; rewrite !elem_of_cons, elem_of_nil; intuition congruence. }
  rewrite Z2, andb_false_r in H3. injection H3 as <-.
  apply bind_Some in H as (w4 & H4 & H).
  unfold sync_to_new_children in H4.
  assert (existsb (λ child, negb (Equals (CommercialPartner (rows w2) [child])
                                         (CommercialPartner (rows w2) [b])))
                  (person_children (rows w2) [b]) = false) as HX.
  { apply not_true_is_false. intros HX. apply existsb_exists in HX as (d & Hd & HX).
    apply list_elem_of_In in Hd.
    rewrite (person_children_keeps _ _ _ (address_touch_keeps _ _ _ T2)) in Hd.
    rewrite C2 in HX. unfold CommercialPartner in HX at 1.
    rewrite (address_touch_Get b _ _ _ _ T2) in HX.
    - fold (CommercialPartner (rows w) [d]) in HX.
      rewrite (Hch d Hd), Equals_singleton in HX. done.
    - unfold AddressFields. rewrite !elem_of_cons, elem_of_nil. intuition congruence. }
  rewrite HX in H4. injection H4 as <-.
  unfold sync_address_to_children in H. rewrite Hva in H. by injection H as <-.
Qed.

(** X19. Whether [FieldsSync] pushes the commercial fields of a commercial
    entity depends on their stored values, not on the values written: a
    write (without address or [goto_super]) that leaves every commercial
    field of the entity empty changes no other record, so that the
    children keep the VAT number the entity had before it was cleared. *)
Theorem Write_cleared_not_pushed
        (hgt : Z → nat) (ctx : Context) (b : Z) (vals : PartnerData)
        (w : World) (fuel : nat) :
  HasKey ctx "goto_super" = false →
  existsb (Has vals) AddressFields = false →
  ranked hgt (SuperWrite ctx [b] (clear_company_name vals) (rows w)) →
  CommercialPartner (SuperWrite ctx [b] (clear_company_name vals) (rows w)) [b] = [b] →
  any_nonzero (SuperWrite ctx [b] (clear_company_name vals) (rows w)) [b]
              CommercialFields = false →
  (∀ d, d ∈ person_children (SuperWrite ctx [b] (clear_company_name vals) (rows w)) [b] →
        CommercialPartner (SuperWrite ctx [b] (clear_company_name vals) (rows w)) [d]
        = [b]) →
  (3 * hgt b + 5 ≤ fuel)%nat →
  ∃ w', Write fuel ctx [b] vals w = Some w'
        ∧ (∀ i, i ≠ b →
                find_row (rows w') i
                = find_row (SuperWrite ctx [b] (clear_company_name vals) (rows w)) i)
        ∧ (∀ f, f ∉ AddressFields →
                Get (rows w') [b] f
                = Get (SuperWrite ctx [b] (clear_company_name vals) (rows w)) [b] f).
Proof.
  intros Hctx Hva Hr Hcp Hz Hch Hfuel. destruct fuel as [|n]; [lia|].
  rewrite Write_S, Hctx. cbv zeta.
  set (w1 := on_rows (SuperWrite ctx [b] (clear_company_name vals)) w).
  change (SuperWrite ctx [b] (clear_company_name vals) (rows w)) with (rows w1) in *.
  destruct (FieldsSync_total hgt (hgt b) n ctx [b] (clear_company_name vals) w1)
    as [w' Hw']; [done|by intros i ->%list_elem_of_singleton|lia|].
  exists w'. split; [simpl; by rewrite Hw'|].
  assert (Forall2 (address_touch b) (rows w1) (rows w')) as T.
  { eapply (FieldsSync_entity_quiet hgt b n ctx (clear_company_name vals) w1 w');
      try done.
    by rewrite address_keys_clear_company_name. }
  split.
  - intros i Hi. by eapply address_touch_find_row.
  - intros f Hf. by eapply address_touch_Get.
Qed.

Lemma Write_cleared_not_pushed_witness :
  ∃ w', Write 8 [] [1] {[FVAT := VChar ""]} ex_solo = Some w'
        ∧ (∀ i, i ≠ 1 →
                find_row (rows w') i
                = find_row (SuperWrite [] [1] (clear_company_name {[FVAT := VChar ""]})
                                       (rows ex_solo)) i)
        ∧ (∀ f, f ∉ AddressFields →
                Get (rows w') [1] f
                = Get (SuperWrite [] [1] (clear_company_name {[FVAT := VChar ""]})
                                  (rows ex_solo)) [1] f).
Proof.
  apply (Write_cleared_not_pushed ex_solo_hgt [] 1).
  - vm_compute. reflexivity.
  - vm_compute. reflexivity.
  - apply ranked_b_ok. vm_compute. reflexivity.
  - vm_compute. reflexivity.
  - vm_compute. reflexivity.
  - intros d Hd.
    assert (d = 2) as ->.
    { vm_compute in Hd. apply list_elem_of_singleton in Hd. exact Hd. }
    vm_compute. reflexivity.
  - vm_compute. lia.
Defined.
